(** * Bias metrics of the FAT* tutorial notebook

    A shallow embedding of the bias-metric cell of
    [FAT_Star_Tutorial_Measuring_Unintended_Bias_in_Text_Classification_Models_with_Real_Data.ipynb]:
    [compute_auc], [compute_subgroup_auc],
    [compute_background_positive_subgroup_negative_auc],
    [compute_background_negative_subgroup_positive_auc] and
    [compute_bias_metrics_for_model], together with the parts of
    scikit-learn ([metrics.roc_auc_score]), numpy ([np.diff], [np.trapz],
    the pairwise summation of [np.sum]) and pandas ([sort_values]) that
    the cell calls; and, of the other cells, [convert_to_bool],
    [convert_dataframe_to_bool], [calculate_overall_auc] and the loop that
    builds [identities_with_over_100_records].

    Modelling choices.
    - Numbers: a finite Python float is the rational number it stands for
      ([Q]).  The arithmetic of the library code is binary64 arithmetic:
      every sum, difference, product and quotient is rounded to the
      nearest number with a 53 bit significand, ties to even ([round64]),
      and rounded results are in lowest terms, so that equal numbers are
      equal terms.  The exponent range is not modelled: on fewer than
      [2^53] examples the rates and the terms computed here are 0 or lie
      between [2^-107] and 2, far from overflow and from the subnormal
      numbers.  Model scores are only compared with each other, so a
      score is any rational number.
    - Counts: the cumulative counts of [_binary_clf_curve] are integers
      ([Z]); as floats they are exact below [2^53].
    - Frames: a frame is the list of its rows; every row has the boolean
      columns (label, subgroup flags) and the float column (model score)
      that the cell reads, so no column lookup fails.
    - Rating frames: before the conversion to booleans a rating column
      holds floats, NaN for a missing rating; a row maps a column name to
      such a cell.
    - Exceptions: a call returns [Ok v] or raises ([Raise e]);
      [compute_auc] catches [ValueError] only, as the cell does.

    On the library side the development shows that the points of the ROC
    curve depend on the multiset of (label, score) pairs only
    ([curve_of_perm]), that [roc_auc_score] returns a number whenever both
    classes occur ([roc_auc_score_value]), how far rounding can take
    that number from the exact area of the curve ([auc_value_within]),
    and that this area is the share of the (positive, negative) pairs
    ranked in the right order, up to the rounding of the rates
    ([auc_value_near_share]). *)

From Stdlib Require Import String.
From Stdlib Require Import List ZArith QArith Qreduction Qround Qpower.
From Stdlib Require Import Lia Lqa Bool.
From Stdlib Require Import Permutation Sorting.Sorted.
From Stdlib Require Import Morphisms Setoid.
Import ListNotations.

Local Open Scope Z_scope.

(** ** Python values and exceptions *)

(** A Python float that is either a number or [np.nan]. *)
Inductive pyfloat : Type :=
| Num (q : Q)
| NaN.

Inductive exn : Type :=
| ValueError
| KeyError.

(** The outcome of a call: a returned value or a raised exception. *)
Inductive result (A : Type) : Type :=
| Ok (a : A)
| Raise (e : exn).

Arguments Ok {A} a.
Arguments Raise {A} e.

Definition bind {A B : Type} (m : result A) (k : A -> result B) : result B :=
  match m with
  | Ok a => k a
  | Raise e => Raise e
  end.

Notation "x <- m ;; k" := (bind m (fun x => k))
  (at level 61, m at next level, right associativity).

(** ** Binary64 arithmetic *)

Definition pow2 (e : Z) : Q := (2 ^ e)%Q.

(** The exponent [e] of a positive number [x]: [2^e <= x < 2^(e+1)]. *)
Definition exponent (x : Q) : Z :=
  let n := Qnum x in
  let d := Zpos (Qden x) in
  if d <=? n then Z.log2 (n / d) else - Z.log2_up ((d + n - 1) / n).

(** The nearest integer, the even one of two nearest. *)
Definition rne (m : Q) : Z :=
  let f := Qfloor m in
  match (m - inject_Z f ?= 1 # 2)%Q with
  | Lt => f
  | Gt => f + 1
  | Eq => if Z.even f then f else f + 1
  end.

(** A positive number rounded to 53 significant bits. *)
Definition round_pos (x : Q) : Q :=
  let e := exponent x in
  (inject_Z (rne (x * pow2 (52 - e))) * pow2 (e - 52))%Q.

Definition round64 (x : Q) : Q :=
  match (x ?= 0)%Q with
  | Eq => 0%Q
  | Gt => Qred (round_pos (Qred x))
  | Lt => Qred (- round_pos (Qred (- x)))
  end.

(** The four operations on floats. *)
Definition fadd (a b : Q) : Q := round64 (a + b).
Definition fsub (a b : Q) : Q := round64 (a - b).
Definition fmul (a b : Q) : Q := round64 (a * b).
Definition fdiv (a b : Q) : Q := round64 (a / b).

(** The unit roundoff [2^-53]. *)
Definition u64 : Q := 1 # (2 ^ 53).

(** ** numpy: [np.diff], [np.sum], [np.trapz] on float arrays *)

Module np.

(** [res += a[i]] over the elements of [a], from the left. *)
Definition sum_seq (res : Q) (a : list Q) : Q := fold_left fadd a res.

(** [r[j] += a[j]] for the eight accumulators. *)
Fixpoint zip_with (f : Q -> Q -> Q) (r a : list Q) : list Q :=
  match r, a with
  | x :: r', y :: a' => f x y :: zip_with f r' a'
  | _, _ => []
  end.

(** [k] more blocks of eight elements added to the accumulators [r]; the
    result holds the accumulators and the elements not yet added. *)
Fixpoint add_blocks (k : nat) (r a : list Q) : list Q * list Q :=
  match k with
  | O => (r, a)
  | S k' => add_blocks k' (zip_with fadd r (firstn 8 a)) (skipn 8 a)
  end.

(** [((r[0] + r[1]) + (r[2] + r[3])) + ((r[4] + r[5]) + (r[6] + r[7]))] *)
Definition sum_accumulators (r : list Q) : Q :=
  match r with
  | [r0; r1; r2; r3; r4; r5; r6; r7] =>
      fadd (fadd (fadd r0 r1) (fadd r2 r3)) (fadd (fadd r4 r5) (fadd r6 r7))
  | _ => 0%Q
  end.

(** The pairwise sum of at most 128 elements: fewer than eight are added
    from the left, starting from 0; otherwise eight accumulators take the
    blocks of eight, are added up, and the elements after the last full
    block are added from the left. *)
Definition block_sum (a : list Q) : Q :=
  let n := length a in
  if (n <? 8)%nat then sum_seq 0 a
  else
    let (r, rest) := add_blocks (n / 8 - 1) (firstn 8 a) (skipn 8 a) in
    sum_seq (sum_accumulators r) rest.

(** The pairwise sum of any number of elements: more than 128 are split
    at half the length, rounded down to a multiple of eight.  [depth]
    bounds the nesting of the splits. *)
Fixpoint pairwise_sum_rec (depth : nat) (a : list Q) : Q :=
  match depth with
  | O => block_sum a
  | S d =>
      let n := length a in
      if (n <=? 128)%nat then block_sum a
      else
        let n2 := (n / 2 - (n / 2) mod 8)%nat in
        fadd (pairwise_sum_rec d (firstn n2 a))
             (pairwise_sum_rec d (skipn n2 a))
  end.

Definition pairwise_sum (a : list Q) : Q := pairwise_sum_rec (length a) a.

(** [a.sum()]: the reduction starts from 0 and adds the pairwise sum. *)
Definition sum (a : list Q) : Q := fadd 0 (pairwise_sum a).

(** [np.diff(x)] *)
Fixpoint diff (x : list Q) : list Q :=
  match x with
  | [] => []
  | a :: t =>
      match t with
      | [] => []
      | b :: _ => fsub b a :: diff t
      end
  end.

(** The array [d * (y[1:] + y[:-1]) / 2.0] of [np.trapz(y, x)], over the
    points [(x, y)], with [d = diff(x)]. *)
Fixpoint trapz_terms (pts : list (Q * Q)) : list Q :=
  match pts with
  | [] => []
  | p :: t =>
      match t with
      | [] => []
      | q :: _ =>
          fdiv (fmul (fsub (fst q) (fst p)) (fadd (snd q) (snd p))) 2
          :: trapz_terms t
      end
  end.

(** [np.trapz(y, x)] *)
Definition trapz (pts : list (Q * Q)) : Q := sum (trapz_terms pts).

End np.

(** ** A stable sort *)

(** Insertion of [x] behind the elements that are not larger. *)
Fixpoint insert_sorted {A : Type} (leb : A -> A -> bool) (x : A) (l : list A)
  : list A :=
  match l with
  | [] => [x]
  | y :: t => if leb y x then y :: insert_sorted leb x t else x :: y :: t
  end.

(** Ascending, elements with equal keys in their original order. *)
Definition stable_sort {A : Type} (leb : A -> A -> bool) (l : list A)
  : list A :=
  fold_left (fun acc x => insert_sorted leb x acc) l [].

(** ** scikit-learn: [metrics.roc_auc_score] on binary labels *)

(** One example: its true label and its score. *)
Definition example : Type := (bool * Q)%type.

(** Order of [np.argsort(y_score, kind="mergesort")], a stable sort. *)
Definition score_leb (x y : example) : bool := Qle_bool (snd x) (snd y).

Module metrics.

(** [y_true[desc_score_indices]], [y_score[desc_score_indices]] with
    [desc_score_indices = np.argsort(y_score, kind="mergesort")[::-1]]. *)
Definition sort_desc (y_true : list bool) (y_score : list Q) : list example :=
  rev (stable_sort score_leb (combine y_true y_score)).

(** The cumulative counts [(fps, tps)] read at [threshold_idxs]: the
    positions where the score changes, and the last position.  [fp] and
    [tp] are the counts before the head of the list. *)
Fixpoint clf_curve_from (fp tp : Z) (l : list example) : list (Z * Z) :=
  match l with
  | [] => []
  | x :: rest =>
      let tp' := if fst x then tp + 1 else tp in
      let fp' := if fst x then fp else fp + 1 in
      match rest with
      | [] => [(fp', tp')]
      | y :: _ =>
          if Qeq_bool (snd x) (snd y)
          then clf_curve_from fp' tp' rest
          else (fp', tp') :: clf_curve_from fp' tp' rest
      end
  end.

Definition _binary_clf_curve (y_true : list bool) (y_score : list Q)
  : list (Z * Z) :=
  clf_curve_from 0 0 (sort_desc y_true y_score).

(** [drop_intermediate=True]: an interior point is kept when the second
    difference of [fps] or of [tps] at it is not zero; the first and the
    last point are kept.  [p] is the point before the head of the list. *)
Fixpoint drop_from (p : Z * Z) (l : list (Z * Z)) : list (Z * Z) :=
  match l with
  | [] => []
  | q :: t =>
      match t with
      | [] => [q]
      | r :: _ =>
          if (fst r - 2 * fst q + fst p =? 0)
             && (snd r - 2 * snd q + snd p =? 0)
          then drop_from q t
          else q :: drop_from q t
      end
  end.

Definition drop_intermediate (pts : list (Z * Z)) : list (Z * Z) :=
  match pts with
  | [] => []
  | p :: t => p :: drop_from p t
  end.

(** [roc_curve]: the points of [_binary_clf_curve] without the
    intermediate ones, after an added first point (0, 0);
    [fpr = fps / fps[-1]], [tpr = tps / tps[-1]], each quotient rounded. *)
Definition roc_curve (y_true : list bool) (y_score : list Q)
  : list (Q * Q) :=
  let pts :=
    (0, 0) :: drop_intermediate (_binary_clf_curve y_true y_score) in
  let '(n, p) := last pts (0, 0) in
  map (fun '(fp, tp) =>
         (fdiv (inject_Z fp) (inject_Z n), fdiv (inject_Z tp) (inject_Z p)))
      pts.

(** [auc(x, y)]: at least two points, [x] monotonic;
    [area = direction * np.trapz(y, x)]. *)
Definition auc (pts : list (Q * Q)) : result Q :=
  if (length pts <? 2)%nat then Raise ValueError
  else
    let dx := np.diff (map fst pts) in
    if existsb (fun d => negb (Qle_bool 0 d)) dx
    then if forallb (fun d => Qle_bool d 0) dx
         then Ok (- np.trapz pts)%Q
         else Raise ValueError
    else Ok (np.trapz pts).

(** [roc_auc_score(y_true, y_score)] for boolean labels.  Each of the
    three checks raises [ValueError]. *)
Definition roc_auc_score (y_true : list bool) (y_score : list Q)
  : result Q :=
  (* check_array: at least one sample *)
  if (length y_true =? 0)%nat || (length y_score =? 0)%nat
  then Raise ValueError
  (* len(np.unique(y_true)) != 2 *)
  else if negb (existsb (fun y => y) y_true && existsb negb y_true)
  then Raise ValueError
  (* check_consistent_length, in _binary_clf_curve *)
  else if negb (length y_true =? length y_score)%nat then Raise ValueError
  else auc (roc_curve y_true y_score).

End metrics.

(** ** The notebook cell *)

(** A row of a pandas frame that has the boolean columns and the float
    columns the cell reads, addressed by column name. *)
Record row : Type := {
  bcol : string -> bool;
  fcol : string -> Q
}.

Definition DataFrame : Type := list row.

(** [df[mask]] *)
Definition select (df : DataFrame) (mask : row -> bool) : DataFrame :=
  filter mask df.

(** [df[col]] for a boolean and for a float column. *)
Definition bools (df : DataFrame) (col : string) : list bool :=
  map (fun r => bcol r col) df.

Definition floats (df : DataFrame) (col : string) : list Q :=
  map (fun r => fcol r col) df.

Definition compute_auc (y_true : list bool) (y_pred : list Q)
  : result pyfloat :=
  match metrics.roc_auc_score y_true y_pred with
  | Ok a => Ok (Num a)
  | Raise ValueError => Ok NaN
  | Raise e => Raise e
  end.

Definition compute_subgroup_auc (df : DataFrame)
  (subgroup label model_name : string) : result pyfloat :=
  let subgroup_examples := select df (fun r => bcol r subgroup) in
  compute_auc (bools subgroup_examples label)
              (floats subgroup_examples model_name).

Definition compute_background_positive_subgroup_negative_auc (df : DataFrame)
  (subgroup label model_name : string) : result pyfloat :=
  let subgroup_negative_examples :=
    select df (fun r => bcol r subgroup && negb (bcol r label)) in
  let non_subgroup_positive_examples :=
    select df (fun r => negb (bcol r subgroup) && bcol r label) in
  let examples :=
    subgroup_negative_examples ++ non_subgroup_positive_examples in
  compute_auc (bools examples label) (floats examples model_name).

Definition compute_background_negative_subgroup_positive_auc (df : DataFrame)
  (subgroup label model_name : string) : result pyfloat :=
  let subgroup_positive_examples :=
    select df (fun r => bcol r subgroup && bcol r label) in
  let non_subgroup_negative_examples :=
    select df (fun r => negb (bcol r subgroup) && negb (bcol r label)) in
  let examples :=
    subgroup_positive_examples ++ non_subgroup_negative_examples in
  compute_auc (bools examples label) (floats examples model_name).

(** One entry of [records]: the dict built per subgroup, a row of the
    returned frame. *)
Record record : Type := {
  subgroup : string;
  subgroup_size : nat;
  subgroup_auc : pyfloat;
  background_positive_subgroup_negative_auc : pyfloat;
  background_negative_subgroup_positive_auc : pyfloat
}.

(** ** pandas: [DataFrame(records).sort_values('subgroup_auc', ascending=True)] *)

Definition isna (x : pyfloat) : bool :=
  match x with
  | NaN => true
  | Num _ => false
  end.

Definition auc_leb (x y : pyfloat) : bool :=
  match x, y with
  | Num a, Num b => Qle_bool a b
  | _, NaN => true
  | NaN, Num _ => false
  end.

Definition record_leb (x y : record) : bool :=
  auc_leb (subgroup_auc x) (subgroup_auc y).

(** The rows whose key is a number are sorted ascending; the rows whose
    key is NaN follow in their original order ([na_position='last']).  A
    frame built from an empty list of dicts has no column at all, and
    sorting it by a column name raises [KeyError].  The library's default
    sort ([kind='quicksort']) is, in the numpy of the notebook's time, an
    insertion sort on up to 16 rows, which leaves rows with equal keys in
    their original order, as [stable_sort] does; on longer frames the
    library's order of rows with equal keys is its own, and nothing below
    depends on that order. *)
Definition sort_values_subgroup_auc (records : list record)
  : result (list record) :=
  match records with
  | [] => Raise KeyError
  | _ :: _ =>
      Ok (stable_sort record_leb
            (filter (fun r => negb (isna (subgroup_auc r))) records)
          ++ filter (fun r => isna (subgroup_auc r)) records)
  end.

(** The body of the [for subgroup in subgroups] loop. *)
Definition subgroup_record (dataset : DataFrame)
  (sg model label_col : string) : result record :=
  let size := length (select dataset (fun r => bcol r sg)) in
  a <- compute_subgroup_auc dataset sg label_col model ;;
  b <- compute_background_positive_subgroup_negative_auc dataset sg label_col model ;;
  c <- compute_background_negative_subgroup_positive_auc dataset sg label_col model ;;
  Ok {| subgroup := sg;
        subgroup_size := size;
        subgroup_auc := a;
        background_positive_subgroup_negative_auc := b;
        background_negative_subgroup_positive_auc := c |}.

(** The loop, with [records] the list built so far. *)
Fixpoint for_subgroup (dataset : DataFrame) (subgroups : list string)
  (model label_col : string) (records : list record) : result (list record) :=
  match subgroups with
  | [] => Ok records
  | sg :: rest =>
      r <- subgroup_record dataset sg model label_col ;;
      for_subgroup dataset rest model label_col (records ++ [r])
  end.

Definition compute_bias_metrics_for_model (dataset : DataFrame)
  (subgroups : list string) (model label_col : string)
  (include_asegs : bool) : result (list record) :=
  records <- for_subgroup dataset subgroups model label_col [] ;;
  sort_values_subgroup_auc records.

(** ** Notions used to state the properties *)

Definition sumZ {A : Type} (f : A -> Z) (l : list A) : Z :=
  fold_right (fun a acc => f a + acc) 0 l.

(** The numbers of positive and of negative examples. *)
Definition positives (l : list example) : Z :=
  sumZ (fun x : example => if fst x then 1 else 0) l.

Definition negatives (l : list example) : Z :=
  sumZ (fun x : example => if fst x then 0 else 1) l.

(** The number of examples of class [c] that score at least [s]; the
    point of the curve at the threshold [s] holds the count of the
    negative and the count of the positive examples. *)
Definition count_ge (c : bool) (s : Q) (l : list example) : Z :=
  sumZ (fun y : example =>
          if Bool.eqb (fst y) c && Qle_bool s (snd y) then 1 else 0) l.

Definition point_at (l : list example) (s : Q) : Z * Z :=
  (count_ge false s l, count_ge true s l).

(** Scores in descending order. *)
Definition descending (l : list example) : Prop :=
  StronglySorted (fun x y => (snd y <= snd x)%Q) l.

(** The counts of [_binary_clf_curve], as a function of the zipped input. *)
Definition curve_of (l : list example) : list (Z * Z) :=
  metrics.clf_curve_from 0 0 (rev (stable_sort score_leb l)).

(** The points of [roc_curve] before the division by the class counts. *)
Definition roc_points (l : list example) : list (Z * Z) :=
  (0, 0) :: metrics.drop_intermediate (curve_of l).

(** The value [roc_auc_score] returns when both classes occur, as a
    function of the zipped input, and the result of [compute_auc]: that
    number when both classes occur, NaN otherwise. *)
Definition auc_value (l : list example) : Q :=
  np.trapz (metrics.roc_curve (map fst l) (map snd l)).

Definition auc_of (l : list example) : pyfloat :=
  if (0 <? positives l) && (0 <? negatives l)
  then Num (auc_value l)
  else NaN.

(** Orders on the points of the curve: by the false-positive count, by
    the true-positive count, and by the number of examples counted. *)
Definition fp_le (p q : Z * Z) : Prop := fst p <= fst q.

Definition tp_le (p q : Z * Z) : Prop := snd p <= snd q.

Definition count_lt (p q : Z * Z) : Prop := fst p + snd p < fst q + snd q.

(** A step of the curve along one axis; and such a step when the steps
    that change the false-positive count are at the true-positive count
    [c]. *)
Definition axis_parallel (p q : Z * Z) : Prop :=
  fst p = fst q \/ snd p = snd q.

Definition axis_step (c : Z) (p q : Z * Z) : Prop :=
  fst p = fst q \/ (snd p = c /\ snd q = c).

(** No positive example has the score of a negative one. *)
Definition no_cross_tie (l : list example) : Prop :=
  forall u v, In u l -> In v l -> fst u = true -> fst v = false ->
              ~ (snd u == snd v)%Q.

(** The division of a point by the two class counts. *)
Definition normalize (n p : Z) (q : Z * Z) : Q * Q :=
  (fdiv (inject_Z (fst q)) (inject_Z n), fdiv (inject_Z (snd q)) (inject_Z p)).

(** Rates in ascending order, and a true-positive rate in the unit
    interval. *)
Definition x_le (u v : Q * Q) : Prop := (fst u <= fst v)%Q.

Definition unit_y (u : Q * Q) : Prop := (0 <= snd u)%Q /\ (snd u <= 1)%Q.

(** The exact sum of a list of numbers, and the exact terms of the
    trapezoid sum over points whose coordinates are floats. *)
Fixpoint Qsum (a : list Q) : Q :=
  match a with
  | [] => 0
  | x :: t => x + Qsum t
  end.

Fixpoint exact_terms (pts : list (Q * Q)) : list Q :=
  match pts with
  | [] => []
  | p :: t =>
      match t with
      | [] => []
      | q :: _ =>
          ((fst q - fst p) * (snd q + snd p) / 2)%Q :: exact_terms t
      end
  end.

Fixpoint qpow (b : Q) (k : nat) : Q :=
  match k with
  | O => 1
  | S k' => b * qpow b k'
  end.

(** [v] is [s] up to [k] roundings: each rounding of a non-negative
    number moves it by at most the factor [1 - u64] or [1 + u64]. *)
Definition within (k : nat) (s v : Q) : Prop :=
  (qpow (1 - u64) k * s <= v)%Q /\ (v <= qpow (1 + u64) k * s)%Q.

Definition nonneg (a : list Q) : Prop := Forall (fun x => (0 <= x)%Q) a.

(** The area under the rounded curve, in exact arithmetic. *)
Definition exact_area (l : list example) : Q :=
  Qsum (exact_terms (metrics.roc_curve (map fst l) (map snd l))).

(** Every positive example scores strictly higher than every negative
    one, or strictly lower; all examples have the same score. *)
Definition separated (l : list example) : Prop :=
  forall x y, In x l -> In y l -> fst x = true -> fst y = false ->
              (snd y < snd x)%Q.

Definition inverted (l : list example) : Prop :=
  forall x y, In x l -> In y l -> fst x = true -> fst y = false ->
              (snd x < snd y)%Q.

Definition constant_score (l : list example) : Prop :=
  forall x y, In x l -> In y l -> (snd x == snd y)%Q.

(** The share by which the roundings of [roc_auc_score] on [n] examples
    can lower or raise the exact area under the rounded curve: at most
    [n + 5] roundings follow one another. *)
Definition rounded_down (n : nat) : Q := qpow (1 - u64) (n + 5).

Definition rounded_up (n : nat) : Q := qpow (1 + u64) (n + 5).

(** NaN, or a number between 0 and the largest rounded area on [n]
    examples. *)
Definition nan_or_bounded (n : nat) (v : pyfloat) : Prop :=
  match v with
  | Num q => (0 <= q)%Q /\ (q <= rounded_up n)%Q
  | NaN => True
  end.

(** NaN, or a number that is 1 up to the roundings on [n] examples. *)
Definition nan_or_about_one (n : nat) (v : pyfloat) : Prop :=
  match v with
  | Num q => (rounded_down n <= q)%Q /\ (q <= rounded_up n)%Q
  | NaN => True
  end.

(** ** The frames the cell builds *)

(** The (label, score) pairs of the rows of a frame. *)
Definition examples_of (df : DataFrame) (label model_name : string)
  : list example :=
  map (fun r => (bcol r label, fcol r model_name)) df.

(** Membership in the two comparison sets: in the subgroup with a false
    label or outside it with a true label, and the mirror rule. *)
Definition bpsn_member (sg label : string) (r : row) : bool :=
  (bcol r sg && negb (bcol r label)) || (negb (bcol r sg) && bcol r label).

Definition bnsp_member (sg label : string) (r : row) : bool :=
  (bcol r sg && bcol r label) || (negb (bcol r sg) && negb (bcol r label)).

(** The record of one subgroup, as a function of the frame alone. *)
Definition record_of (dataset : DataFrame) (model label_col sg : string)
  : record :=
  {| subgroup := sg;
     subgroup_size := length (select dataset (fun r => bcol r sg));
     subgroup_auc :=
       auc_of (examples_of (select dataset (fun r => bcol r sg))
                           label_col model);
     background_positive_subgroup_negative_auc :=
       auc_of (examples_of (select dataset (bpsn_member sg label_col))
                           label_col model);
     background_negative_subgroup_positive_auc :=
       auc_of (examples_of (select dataset (bnsp_member sg label_col))
                           label_col model) |}.

(** The order of two rows of the returned frame by their [subgroup_auc],
    NaN being the largest. *)
Definition auc_le (r1 r2 : record) : Prop :=
  auc_leb (subgroup_auc r1) (subgroup_auc r2) = true.

(** The number of rows whose flag for [sg] is true. *)
Definition count_flagged (dataset : DataFrame) (sg : string) : nat :=
  count_occ bool_dec (bools dataset sg) true.

(** ** Scenarios of the specification *)

(** A row with the label column [toxicity], the score column [model] and
    the subgroup columns [A] and [B]. *)
Definition scenario_row (label : bool) (score : Q) (in_A in_B : bool) : row :=
  {| bcol := fun c =>
       if String.eqb c "toxicity" then label
       else if String.eqb c "A" then in_A
       else if String.eqb c "B" then in_B
       else false;
     fcol := fun c => if String.eqb c "model" then score else 0%Q |}.

(** The four records of the first scenario. *)
Definition scenario : DataFrame :=
  [ scenario_row true (9 # 10) true false;
    scenario_row false (1 # 10) true false;
    scenario_row true (8 # 10) false false;
    scenario_row false (2 # 10) false false ].

(** Five records of subgroup [A], all labelled true, and two records of
    subgroup [B] with both labels. *)
Definition five_true_scenario : DataFrame :=
  [ scenario_row true (9 # 10) true false;
    scenario_row true (7 # 10) true false;
    scenario_row true (1 # 2) true false;
    scenario_row true (3 # 10) true false;
    scenario_row true (1 # 10) true false;
    scenario_row true (8 # 10) false true;
    scenario_row false (2 # 10) false true ].

(** The records of subgroup [A] of [scenario] in another order, among
    other records outside the subgroup. *)
Definition scenario_other_background : DataFrame :=
  [ scenario_row false (1 # 10) true false;
    scenario_row false (7 # 10) false true;
    scenario_row true (9 # 10) true false;
    scenario_row false (6 # 10) false false;
    scenario_row false (1 # 3) false false ].

(** ** The rest of the notebook *)

Definition TOXICITY_COLUMN : string := "toxicity".

Definition MODEL_NAME : string := "fat_star_tutorial".

Definition identity_columns : list string :=
  [ "male"; "female"; "transgender"; "other_gender"; "heterosexual";
    "homosexual_gay_or_lesbian"; "bisexual"; "other_sexual_orientation";
    "christian"; "jewish"; "muslim"; "hindu"; "buddhist"; "atheist";
    "other_religion"; "black"; "white"; "asian"; "latino";
    "other_race_or_ethnicity"; "physical_disability";
    "intellectual_or_learning_disability"; "psychiatric_or_mental_illness";
    "other_disability" ]%string.

(** A cell of a rating column: a float (NaN when the rating is missing)
    before the conversion, a boolean after it. *)
Inductive cell : Type :=
| CFloat (x : pyfloat)
| CBool (b : bool).

(** A row of a frame of rating columns, addressed by column name. *)
Definition rating_row : Type := string -> cell.

(** [x >= 0.5] on one cell: false on NaN; [True] counts as 1 and [False]
    as 0. *)
Definition ge_half (v : cell) : bool :=
  match v with
  | CFloat (Num q) => Qle_bool (1 # 2) q
  | CFloat NaN => false
  | CBool b => b
  end.

(** [df[col_name] = np.where(df[col_name] >= 0.5, True, False)]; the
    frame after the assignment. *)
Definition convert_to_bool (df : list rating_row) (col_name : string)
  : list rating_row :=
  map (fun (r : rating_row) (c : string) =>
         if String.eqb c col_name then CBool (ge_half (r col_name)) else r c)
      df.

(** The copy of the frame after the loop over
    [['toxicity'] + identity_columns]. *)
Definition convert_dataframe_to_bool (df : list rating_row)
  : list rating_row :=
  fold_left convert_to_bool ("toxicity"%string :: identity_columns) df.

(** What the loop of [convert_dataframe_to_bool] does to one row. *)
Definition convert_row (cols : list string) (r : rating_row) : rating_row :=
  fold_left (fun (r0 : rating_row) (col : string) (c : string) =>
               if String.eqb c col then CBool (ge_half (r0 col)) else r0 c)
            cols r.

(** No [try] here: what [roc_auc_score] raises is raised. *)
Definition calculate_overall_auc (df : DataFrame) (model_name : string)
  : result Q :=
  let true_labels := bools df TOXICITY_COLUMN in
  let predicted_labels := floats df model_name in
  metrics.roc_auc_score true_labels predicted_labels.

(** The loop that keeps the identities with 100 records or more, with
    [acc] the list built so far; [test_df.query(identity + '==True')] is
    the selection of the rows whose flag is true. *)
Fixpoint over_100_loop (test_df : DataFrame) (identities acc : list string)
  : list string :=
  match identities with
  | [] => acc
  | identity :: rest =>
      let num_records := length (select test_df (fun r => bcol r identity)) in
      if (100 <=? num_records)%nat
      then over_100_loop test_df rest (acc ++ [identity])
      else over_100_loop test_df rest acc
  end.

Definition identities_with_over_100_records (test_df : DataFrame)
  : list string :=
  over_100_loop test_df identity_columns [].

(** The last line of the cell. *)
Definition bias_metrics_df (test_df : DataFrame) : result (list record) :=
  compute_bias_metrics_for_model test_df
    (identities_with_over_100_records test_df)
    MODEL_NAME TOXICITY_COLUMN false.

(** ** Inputs on which rounding shows *)

(** One positive example above seven negative ones, the negative ones in
    tie groups of one, four and two examples. *)
Definition uneven_ties : list example :=
  [ (true, 1); (false, 1 # 2); (false, 2 # 5); (false, 2 # 5);
    (false, 2 # 5); (false, 2 # 5); (false, 3 # 10); (false, 3 # 10) ]%Q.

(** One positive example above 26 negative ones, the negative ones in tie
    groups of 1, 2, 3, 1, 2, 1 and 16 examples. *)
Definition eight_steps : list example :=
  ((true, 1) :: (false, 9 # 10)
   :: repeat (false, 8 # 10) 2 ++ repeat (false, 7 # 10) 3
   ++ (false, 6 # 10) :: repeat (false, 5 # 10) 2
   ++ (false, 4 # 10) :: repeat (false, 3 # 10) 16)%Q.
(** ** The share of correctly ordered pairs *)

(** What a (positive, negative) pair contributes, counted in halves: 2
    when the positive example scores higher, 1 on a tie, 0 otherwise. *)
Definition pair_weight (sp sn : Q) : Z :=
  match (sp ?= sn)%Q with
  | Gt => 2
  | Eq => 1
  | Lt => 0
  end.

Definition cross (x y : example) : Z :=
  if fst x && negb (fst y) then pair_weight (snd x) (snd y) else 0.

(** Twice the number of (positive, negative) pairs ranked in the right
    order, plus the number of tied pairs. *)
Definition concordance2 (l : list example) : Z :=
  sumZ (fun x => sumZ (cross x) l) l.

(** The scores of the positive and of the negative examples. *)
Definition positive_scores (l : list example) : list Q :=
  map snd (filter (fun x => fst x) l).

Definition negative_scores (l : list example) : list Q :=
  map snd (filter (fun x => negb (fst x)) l).

(** Over all pairs of a positive and a negative score: 2 for a pair in
    the right order, 1 for a tie; and the share of the pairs in the right
    order, a tie counting for half a pair. *)
Definition pair_total (pos neg : list Q) : Z :=
  sumZ (fun p => sumZ (pair_weight p) neg) pos.

Definition pair_share (pos neg : list Q) : Q :=
  inject_Z (pair_total pos neg)
  / inject_Z (2 * (Z.of_nat (length pos) * Z.of_nat (length neg))).

(** The trapezoid sum on the integer counts, doubled, from point [p]. *)
Fixpoint trapz2 (p : Z * Z) (l : list (Z * Z)) : Z :=
  match l with
  | [] => 0
  | q :: t => (fst q - fst p) * (snd q + snd p) + trapz2 q t
  end.

(** The exact trapezoid sum over the points [pts], read through an
    abscissa [f] and an ordinate [g]. *)
Fixpoint trapezoids (f g : Z * Z -> Q) (pts : list (Z * Z)) : Q :=
  match pts with
  | [] => 0
  | p :: t =>
      match t with
      | [] => 0
      | q :: _ => (f q - f p) * (g q + g p) / 2 + trapezoids f g t
      end
  end.

(** A rate in exact arithmetic and as the float [roc_curve] holds. *)
Definition exact_rate (n : Z) (a : Z) : Q := inject_Z a / inject_Z n.

Definition float_rate (n : Z) (a : Z) : Q := fdiv (inject_Z a) (inject_Z n).

(** The AUC [v] is the share [s] up to the roundings of [roc_auc_score]
    on [n] examples: the two rates of a point are each rounded once,
    which moves the area by [2 * u64] at most, and the trapezoid sum
    rounds [n + 5] times in a row at most. *)
Definition near_share (n : nat) (s v : Q) : Prop :=
  (rounded_down n * (s - 2 * u64) <= v)%Q
  /\ (v <= rounded_up n * (s + 2 * u64))%Q.

(** * Properties *)

(** ** Rounding *)

(** Powers of two. *)

Lemma two_nonzero : ~ (2 == 0)%Q.
Proof. discriminate. Qed.

Lemma pow2_pos e : (0 < pow2 e)%Q.
Proof. apply Qpower_0_lt. reflexivity. Qed.

Lemma pow2_add a b : (pow2 (a + b) == pow2 a * pow2 b)%Q.
Proof. apply Qpower_plus, two_nonzero. Qed.

Lemma pow2_le a b : a <= b -> (pow2 a <= pow2 b)%Q.
Proof. intros H. apply Qpower_le_compat_l; [exact H | discriminate]. Qed.

Lemma pow2_lt_inv a b : (pow2 a < pow2 b)%Q -> a < b.
Proof. intros H. apply (Qpower_lt_compat_l_inv 2); [exact H | reflexivity]. Qed.

Lemma pow2_inject e : 0 <= e -> (pow2 e == inject_Z (2 ^ e))%Q.
Proof. intros H. unfold pow2. rewrite Zpower_Qpower by exact H. reflexivity. Qed.

Lemma pow2_opp e : (pow2 (- e) == / pow2 e)%Q.
Proof. apply Qpower_opp. Qed.

Lemma pow2_cancel a : (pow2 a * pow2 (- a) == 1)%Q.
Proof.
  rewrite <- pow2_add. replace (a + - a) with 0 by ring. reflexivity.
Qed.

(** The binade of a positive number. *)

Lemma inv_inject_le (k n : Z) (d : positive) :
  0 < k -> Zpos d <= n * k -> (/ inject_Z k <= n # d)%Q.
Proof.
  intros Hk H. destruct k as [|k|k]; try lia.
  unfold Qle. simpl. lia.
Qed.

Lemma lt_inv_inject (k n : Z) (d : positive) :
  0 < k -> n * k < Zpos d -> (n # d < / inject_Z k)%Q.
Proof.
  intros Hk H. destruct k as [|k|k]; try lia.
  unfold Qlt. simpl. lia.
Qed.

Lemma exponent_spec (x : Q) :
  (0 < x)%Q ->
  (pow2 (exponent x) <= x)%Q /\ (x < pow2 (exponent x + 1))%Q.
Proof.
  destruct x as [n d]. intros Hx.
  assert (Hn : 0 < n) by (unfold Qlt in Hx; simpl in Hx; lia).
  unfold exponent. cbn [Qnum Qden].
  destruct (Z.leb_spec (Zpos d) n) as [Hle | Hlt].
  - assert (Hq : 0 < n / Zpos d) by (apply Z.div_str_pos; lia).
    pose proof (Z.log2_spec _ Hq) as [Hlo Hhi].
    pose proof (Z.log2_nonneg (n / Zpos d)) as He.
    pose proof (Z.mul_div_le n (Zpos d) ltac:(lia)) as Hmd.
    pose proof (Z.mul_succ_div_gt n (Zpos d) ltac:(lia)) as Hsd.
    split.
    + rewrite pow2_inject by exact He.
      unfold Qle. simpl. nia.
    + rewrite pow2_inject by lia.
      unfold Qlt. simpl.
      replace (Z.log2 (n / Zpos d) + 1) with (Z.succ (Z.log2 (n / Zpos d))) by lia.
      nia.
  - set (c := (Zpos d + n - 1) / n).
    assert (Hc : c = (Zpos d - 1) / n + 1).
    { unfold c. replace (Zpos d + n - 1) with (Zpos d - 1 + 1 * n) by ring.
      rewrite Z.div_add by lia. reflexivity. }
    pose proof (Z.mul_div_le (Zpos d - 1) n ltac:(lia)) as Hmd.
    pose proof (Z.mul_succ_div_gt (Zpos d - 1) n ltac:(lia)) as Hsd.
    assert (Hq1 : 1 <= (Zpos d - 1) / n).
    { apply Z.div_le_lower_bound; lia. }
    assert (Hc1 : 1 < c) by lia.
    pose proof (Z.log2_up_spec _ Hc1) as [Hlo Hhi].
    assert (HL : 0 < Z.log2_up c) by (apply Z.log2_up_pos; exact Hc1).
    assert (Hp : 0 < 2 ^ Z.log2_up c) by (apply Z.pow_pos_nonneg; lia).
    assert (Hp' : 0 < 2 ^ Z.pred (Z.log2_up c)) by (apply Z.pow_pos_nonneg; lia).
    split.
    + rewrite pow2_opp, pow2_inject by lia.
      apply inv_inject_le; [exact Hp | nia].
    + replace (- Z.log2_up c + 1) with (- Z.pred (Z.log2_up c)) by lia.
      rewrite pow2_opp, pow2_inject by lia.
      apply lt_inv_inject; [exact Hp' | nia].
Qed.

Lemma exponent_mono (x y : Q) :
  (0 < x)%Q -> (x <= y)%Q -> exponent x <= exponent y.
Proof.
  intros Hx Hxy.
  assert (Hy : (0 < y)%Q) by (eapply Qlt_le_trans; eassumption).
  destruct (exponent_spec x Hx) as [Hlo _].
  destruct (exponent_spec y Hy) as [_ Hhi].
  assert (H : (pow2 (exponent x) < pow2 (exponent y + 1))%Q).
  { eapply Qle_lt_trans; [exact Hlo |].
    eapply Qle_lt_trans; [exact Hxy | exact Hhi]. }
  apply pow2_lt_inv in H. lia.
Qed.

(** Rounding to the nearest integer, ties to even. *)

Lemma Qcompare_cases (p q : Q) :
  match (p ?= q)%Q with
  | Eq => (p == q)%Q
  | Lt => (p < q)%Q
  | Gt => (q < p)%Q
  end.
Proof.
  destruct (p ?= q)%Q eqn:E.
  - apply Qeq_alt, E.
  - apply Qlt_alt, E.
  - apply Qgt_alt, E.
Qed.

Lemma rne_cases (m : Q) :
  let f := Qfloor m in
  (rne m = f /\ (m - inject_Z f <= 1 # 2)%Q) \/
  (rne m = f + 1 /\ (1 # 2 <= m - inject_Z f)%Q).
Proof.
  intros f. unfold rne. fold f.
  pose proof (Qcompare_cases (m - inject_Z f) (1 # 2)) as E.
  destruct (m - inject_Z f ?= 1 # 2)%Q.
  - destruct (Z.even f).
    + left. split; [reflexivity | rewrite E; apply Qle_refl].
    + right. split; [reflexivity | rewrite E; apply Qle_refl].
  - left. split; [reflexivity | apply Qlt_le_weak, E].
  - right. split; [reflexivity | apply Qlt_le_weak, E].
Qed.

Lemma inject_Z_succ (f : Z) : (inject_Z (f + 1) == inject_Z f + 1)%Q.
Proof. rewrite inject_Z_plus. reflexivity. Qed.

Lemma rne_error (m : Q) :
  (m - (1 # 2) <= inject_Z (rne m))%Q /\ (inject_Z (rne m) <= m + (1 # 2))%Q.
Proof.
  pose proof (Qfloor_le m) as Hlo.
  pose proof (Qlt_floor m) as Hhi.
  rewrite inject_Z_succ in Hhi.
  destruct (rne_cases m) as [[-> H] | [-> H]].
  - split; lra.
  - rewrite inject_Z_succ. split; lra.
Qed.

Lemma rne_mono (a b : Q) : (a <= b)%Q -> rne a <= rne b.
Proof.
  intros Hab.
  pose proof (Qfloor_resp_le _ _ Hab) as Hf.
  destruct (Z.eq_dec (Qfloor a) (Qfloor b)) as [Heq | Hne].
  - unfold rne. rewrite <- Heq.
    set (f := Qfloor a).
    pose proof (Qcompare_cases (a - inject_Z f) (1 # 2)) as Ea.
    pose proof (Qcompare_cases (b - inject_Z f) (1 # 2)) as Eb.
    destruct (a - inject_Z f ?= 1 # 2)%Q;
      destruct (b - inject_Z f ?= 1 # 2)%Q;
      try (exfalso; lra); destruct (Z.even f); lia.
  - destruct (rne_cases a) as [[-> _] | [-> _]];
      destruct (rne_cases b) as [[-> _] | [-> _]]; lia.
Qed.

Lemma rne_inject (z : Z) : rne (inject_Z z) = z.
Proof.
  unfold rne. rewrite Qfloor_Z.
  assert (E : (inject_Z z - inject_Z z ?= 1 # 2)%Q = Lt).
  { apply Qlt_alt.
    setoid_replace (inject_Z z - inject_Z z)%Q with 0%Q by ring.
    reflexivity. }
  rewrite E. reflexivity.
Qed.

(** Rounding to binary64: the relative error is at most [u64], and
    rounding keeps the order. *)

Lemma round_pos_scaled (x : Q) :
  (x * pow2 (52 - exponent x) * pow2 (exponent x - 52) == x)%Q.
Proof.
  rewrite <- Qmult_assoc.
  replace (exponent x - 52) with (- (52 - exponent x)) by ring.
  rewrite pow2_cancel. ring.
Qed.

Lemma pow2_split (e : Z) : (pow2 e == pow2 (e - 52) * inject_Z (2 ^ 52))%Q.
Proof.
  rewrite <- (pow2_inject 52) by lia. rewrite <- pow2_add.
  replace (e - 52 + 52) with e by ring. reflexivity.
Qed.

Lemma pow2_split53 (e : Z) :
  (pow2 (e + 1) == pow2 (e - 52) * inject_Z (2 ^ 53))%Q.
Proof.
  rewrite <- (pow2_inject 53) by lia. rewrite <- pow2_add.
  replace (e - 52 + 53) with (e + 1) by ring. reflexivity.
Qed.

Lemma round_pos_error (x : Q) :
  (0 < x)%Q ->
  ((1 - u64) * x <= round_pos x)%Q /\ (round_pos x <= (1 + u64) * x)%Q.
Proof.
  intros Hx. unfold round_pos.
  destruct (exponent_spec x Hx) as [Hlo _].
  set (e := exponent x) in *.
  pose proof (round_pos_scaled x) as Hs. fold e in Hs.
  pose proof (pow2_pos (e - 52)) as Ht.
  rewrite (pow2_split e) in Hlo.
  set (t := pow2 (e - 52)) in *.
  set (m := (x * pow2 (52 - e))%Q) in *.
  destruct (rne_error m) as [Hr1 Hr2].
  set (r := inject_Z (rne m)) in *.
  assert (H1 : ((m - (1 # 2)) * t <= r * t)%Q)
    by (apply Qmult_le_compat_r; [exact Hr1 | apply Qlt_le_weak, Ht]).
  assert (H2 : (r * t <= (m + (1 # 2)) * t)%Q)
    by (apply Qmult_le_compat_r; [exact Hr2 | apply Qlt_le_weak, Ht]).
  assert (E1 : ((m - (1 # 2)) * t == x - (1 # 2) * t)%Q)
    by (rewrite <- Hs; ring).
  assert (E2 : ((m + (1 # 2)) * t == x + (1 # 2) * t)%Q)
    by (rewrite <- Hs; ring).
  rewrite E1 in H1. rewrite E2 in H2.
  assert (Hu : ((1 # 2) * t <= u64 * x)%Q).
  { assert (Hc : (u64 * (t * inject_Z (2 ^ 52)) == (1 # 2) * t)%Q).
    { unfold u64. change (inject_Z (2 ^ 52)) with (4503599627370496 # 1)%Q.
      change (1 # 2 ^ 53)%Q with (1 # 9007199254740992)%Q. field. }
    rewrite <- Hc. apply Qmult_le_l; [reflexivity | exact Hlo]. }
  split; lra.
Qed.

Lemma round_pos_bounds (x : Q) :
  (0 < x)%Q ->
  (pow2 (exponent x) <= round_pos x)%Q /\
  (round_pos x <= pow2 (exponent x + 1))%Q.
Proof.
  intros Hx. unfold round_pos.
  destruct (exponent_spec x Hx) as [Hlo Hhi].
  set (e := exponent x) in *.
  pose proof (pow2_pos (e - 52)) as Ht.
  pose proof (pow2_pos (52 - e)) as Hs.
  assert (Hm1 : (inject_Z (2 ^ 52) <= x * pow2 (52 - e))%Q).
  { rewrite <- (pow2_inject 52) by lia.
    setoid_replace (pow2 52) with (pow2 e * pow2 (52 - e))%Q
      by (rewrite <- pow2_add; replace (e + (52 - e)) with 52 by ring;
          reflexivity).
    apply Qmult_le_compat_r; [exact Hlo | apply Qlt_le_weak, Hs]. }
  assert (Hm2 : (x * pow2 (52 - e) <= inject_Z (2 ^ 53))%Q).
  { rewrite <- (pow2_inject 53) by lia.
    setoid_replace (pow2 53) with (pow2 (e + 1) * pow2 (52 - e))%Q
      by (rewrite <- pow2_add; replace (e + 1 + (52 - e)) with 53 by ring;
          reflexivity).
    apply Qmult_le_compat_r; [apply Qlt_le_weak, Hhi | apply Qlt_le_weak, Hs]. }
  apply rne_mono in Hm1. apply rne_mono in Hm2.
  rewrite rne_inject in Hm1, Hm2.
  split.
  - rewrite (pow2_split e), (Qmult_comm (pow2 (e - 52)) (inject_Z (2 ^ 52))).
    apply Qmult_le_compat_r; [| apply Qlt_le_weak, Ht].
    rewrite <- Zle_Qle. exact Hm1.
  - rewrite (pow2_split53 e), (Qmult_comm (pow2 (e - 52)) (inject_Z (2 ^ 53))).
    apply Qmult_le_compat_r; [| apply Qlt_le_weak, Ht].
    rewrite <- Zle_Qle. exact Hm2.
Qed.

Lemma round_pos_mono (x y : Q) :
  (0 < x)%Q -> (x <= y)%Q -> (round_pos x <= round_pos y)%Q.
Proof.
  intros Hx Hxy.
  assert (Hy : (0 < y)%Q) by (eapply Qlt_le_trans; eassumption).
  pose proof (exponent_mono x y Hx Hxy) as He.
  destruct (Z.eq_dec (exponent x) (exponent y)) as [Heq | Hne].
  - unfold round_pos. rewrite Heq.
    apply Qmult_le_compat_r; [| apply Qlt_le_weak, pow2_pos].
    rewrite <- Zle_Qle. apply rne_mono.
    apply Qmult_le_compat_r; [exact Hxy | apply Qlt_le_weak, pow2_pos].
  - destruct (round_pos_bounds x Hx) as [_ H1].
    destruct (round_pos_bounds y Hy) as [H2 _].
    eapply Qle_trans; [exact H1 |].
    eapply Qle_trans; [| exact H2].
    apply pow2_le. lia.
Qed.

Lemma round64_proper (x y : Q) : (x == y)%Q -> round64 x = round64 y.
Proof.
  intros H. unfold round64.
  rewrite (Qred_complete _ _ H).
  assert (H' : (- x == - y)%Q) by (rewrite H; reflexivity).
  rewrite (Qred_complete _ _ H').
  rewrite H. reflexivity.
Qed.

Lemma round64_pos (x : Q) :
  (0 < x)%Q -> round64 x = Qred (round_pos (Qred x)).
Proof.
  intros H. unfold round64.
  assert (E : (x ?= 0)%Q = Gt) by (apply Qgt_alt; exact H).
  rewrite E. reflexivity.
Qed.

Lemma round64_zero (x : Q) : (x == 0)%Q -> round64 x = 0%Q.
Proof.
  intros H. unfold round64.
  assert (E : (x ?= 0)%Q = Eq) by (apply Qeq_alt; exact H).
  rewrite E. reflexivity.
Qed.

Lemma round64_error (x : Q) :
  (0 <= x)%Q ->
  ((1 - u64) * x <= round64 x)%Q /\ (round64 x <= (1 + u64) * x)%Q.
Proof.
  intros Hx. destruct (Qle_lt_or_eq _ _ Hx) as [Hpos | Hz].
  - rewrite (round64_pos x Hpos).
    pose proof (Qred_correct x) as Hq.
    set (y := Qred x) in *.
    assert (Hp : (0 < y)%Q) by (rewrite Hq; exact Hpos).
    destruct (round_pos_error _ Hp) as [H1 H2].
    rewrite Qred_correct, <- Hq. split; assumption.
  - symmetry in Hz. rewrite (round64_zero x Hz). rewrite Hz.
    split; unfold u64; lra.
Qed.

Lemma round64_nonneg (x : Q) : (0 <= x)%Q -> (0 <= round64 x)%Q.
Proof.
  intros Hx. destruct (round64_error x Hx) as [H _].
  eapply Qle_trans; [| exact H].
  apply Qmult_le_0_compat; [vm_compute; discriminate | exact Hx].
Qed.

Lemma round64_mono (x y : Q) :
  (0 <= x)%Q -> (x <= y)%Q -> (round64 x <= round64 y)%Q.
Proof.
  intros Hx Hxy. destruct (Qle_lt_or_eq _ _ Hx) as [Hpos | Hz].
  - assert (Hy : (0 < y)%Q) by (eapply Qlt_le_trans; eassumption).
    rewrite (round64_pos x Hpos), (round64_pos y Hy).
    rewrite (Qred_correct (round_pos (Qred x))),
      (Qred_correct (round_pos (Qred y))).
    pose proof (Qred_correct x) as Hqx. pose proof (Qred_correct y) as Hqy.
    apply round_pos_mono; rewrite ?Hqx, ?Hqy; assumption.
  - symmetry in Hz. rewrite (round64_zero x Hz).
    apply round64_nonneg. eapply Qle_trans; eassumption.
Qed.

(** ** The error of a sum *)

Lemma lo_bounds : (0 < 1 - u64)%Q /\ (1 - u64 <= 1)%Q.
Proof. split; vm_compute; [reflexivity | discriminate]. Qed.

Lemma hi_bounds : (1 <= 1 + u64)%Q.
Proof. vm_compute. discriminate. Qed.

Lemma qpow_pos b k : (0 < b)%Q -> (0 < qpow b k)%Q.
Proof.
  intros Hb. induction k as [| k IH]; simpl; [reflexivity |].
  apply Qmult_lt_0_compat; assumption.
Qed.

Lemma qpow_add b k k' : (qpow b (k + k') == qpow b k * qpow b k')%Q.
Proof.
  induction k as [| k IH]; simpl; [ring |]. rewrite IH. ring.
Qed.

Lemma qpow_ge_1 b k : (1 <= b)%Q -> (1 <= qpow b k)%Q.
Proof.
  intros Hb. induction k as [| k IH]; simpl; [apply Qle_refl |].
  assert (H0 : (0 <= qpow b k)%Q) by lra.
  assert (H : (1 * qpow b k <= b * qpow b k)%Q)
    by (apply Qmult_le_compat_r; assumption).
  lra.
Qed.

Lemma qpow_le_1 b k : (0 <= b)%Q -> (b <= 1)%Q -> (0 <= qpow b k <= 1)%Q.
Proof.
  intros H0 H1. induction k as [| k [IH0 IH1]]; simpl.
  - split; [discriminate | apply Qle_refl].
  - split.
    + apply Qmult_le_0_compat; assumption.
    + assert (H : (b * qpow b k <= 1 * qpow b k)%Q)
        by (apply Qmult_le_compat_r; assumption).
      lra.
Qed.

Lemma qpow_hi_mono b k k' :
  (1 <= b)%Q -> (k <= k')%nat -> (qpow b k <= qpow b k')%Q.
Proof.
  intros Hb Hk. replace k' with (k + (k' - k))%nat by lia.
  rewrite qpow_add.
  pose proof (qpow_ge_1 b (k' - k) Hb) as H1.
  pose proof (qpow_ge_1 b k Hb) as H2.
  assert (H : (qpow b k * 1 <= qpow b k * qpow b (k' - k))%Q).
  { rewrite !(Qmult_comm (qpow b k)).
    apply Qmult_le_compat_r; [exact H1 | lra]. }
  lra.
Qed.

Lemma qpow_lo_anti b k k' :
  (0 <= b)%Q -> (b <= 1)%Q -> (k <= k')%nat -> (qpow b k' <= qpow b k)%Q.
Proof.
  intros H0 H1 Hk. replace k' with (k + (k' - k))%nat by lia.
  rewrite qpow_add.
  destruct (qpow_le_1 b (k' - k) H0 H1) as [Ha Hb].
  destruct (qpow_le_1 b k H0 H1) as [Hc Hd].
  assert (H : (qpow b k * qpow b (k' - k) <= qpow b k * 1)%Q).
  { rewrite !(Qmult_comm (qpow b k)).
    apply Qmult_le_compat_r; assumption. }
  lra.
Qed.

Lemma within_nonneg k s v : (0 <= s)%Q -> within k s v -> (0 <= v)%Q.
Proof.
  intros Hs [H _]. eapply Qle_trans; [| exact H].
  apply Qmult_le_0_compat; [| exact Hs].
  apply Qlt_le_weak, qpow_pos, lo_bounds.
Qed.

Lemma within_refl s : within 0 s s.
Proof. unfold within. simpl. split; lra. Qed.

Lemma within_weaken k k' s v :
  (0 <= s)%Q -> (k <= k')%nat -> within k s v -> within k' s v.
Proof.
  intros Hs Hk [H1 H2]. destruct lo_bounds as [Hl0 Hl1].
  split.
  - eapply Qle_trans; [| exact H1].
    apply Qmult_le_compat_r; [| exact Hs].
    apply qpow_lo_anti; [apply Qlt_le_weak, Hl0 | exact Hl1 | exact Hk].
  - eapply Qle_trans; [exact H2 |].
    apply Qmult_le_compat_r; [| exact Hs].
    apply qpow_hi_mono; [apply hi_bounds | exact Hk].
Qed.

Lemma within_trans k k' s v w :
  within k s v -> within k' v w -> within (k + k') s w.
Proof.
  intros [H1 H2] [H3 H4]. destruct lo_bounds as [Hl0 Hl1].
  split.
  - eapply Qle_trans; [| exact H3].
    rewrite qpow_add, (Qmult_comm (qpow (1 - u64) k)), <- Qmult_assoc.
    rewrite !(Qmult_comm (qpow (1 - u64) k')).
    apply Qmult_le_compat_r; [exact H1 |].
    apply Qlt_le_weak, qpow_pos, Hl0.
  - eapply Qle_trans; [exact H4 |].
    rewrite qpow_add, (Qmult_comm (qpow (1 + u64) k)), <- Qmult_assoc.
    rewrite !(Qmult_comm (qpow (1 + u64) k')).
    apply Qmult_le_compat_r; [exact H2 |].
    apply Qlt_le_weak, qpow_pos.
    eapply Qlt_le_trans; [| apply hi_bounds]. reflexivity.
Qed.

Lemma within_round v : (0 <= v)%Q -> within 1 v (round64 v).
Proof.
  intros Hv. destruct (round64_error v Hv) as [H1 H2].
  unfold within. simpl. rewrite !Qmult_1_r. split; assumption.
Qed.

Lemma within_plus k s1 s2 v1 v2 :
  within k s1 v1 -> within k s2 v2 -> within k (s1 + s2) (v1 + v2).
Proof.
  intros [H1 H2] [H3 H4]. split.
  - rewrite Qmult_plus_distr_r. apply Qplus_le_compat; assumption.
  - rewrite Qmult_plus_distr_r. apply Qplus_le_compat; assumption.
Qed.

Lemma within_proper k s s' v : (s == s')%Q -> within k s v -> within k s' v.
Proof. intros E [H1 H2]. split; rewrite <- E; assumption. Qed.

Lemma within_zero k v : within k 0 v -> (v == 0)%Q.
Proof.
  intros [H1 H2]. rewrite Qmult_0_r in H1, H2. apply Qle_antisym; assumption.
Qed.

Lemma within_fadd k s1 s2 v1 v2 :
  (0 <= s1)%Q -> (0 <= s2)%Q ->
  within k s1 v1 -> within k s2 v2 -> within (S k) (s1 + s2) (fadd v1 v2).
Proof.
  intros Hs1 Hs2 H1 H2.
  pose proof (within_nonneg _ _ _ Hs1 H1) as Hv1.
  pose proof (within_nonneg _ _ _ Hs2 H2) as Hv2.
  replace (S k) with (k + 1)%nat by lia.
  apply (within_trans k 1 _ (v1 + v2)%Q).
  - apply within_plus; assumption.
  - apply within_round. lra.
Qed.

Lemma Qsum_app a b : (Qsum (a ++ b) == Qsum a + Qsum b)%Q.
Proof. induction a as [| x a IH]; simpl; [ring | rewrite IH; ring]. Qed.

Lemma Qsum_nonneg a : nonneg a -> (0 <= Qsum a)%Q.
Proof.
  induction 1 as [| x a Hx _ IH]; simpl; [discriminate | lra].
Qed.

Lemma sum_seq_within a : forall k s res,
  (0 <= s)%Q -> nonneg a -> within k s res ->
  within (k + length a) (s + Qsum a) (np.sum_seq res a).
Proof.
  induction a as [| x a IH]; intros k s res Hs Ha Hres.
  - simpl. rewrite Nat.add_0_r.
    apply (within_proper _ s); [ring | exact Hres].
  - inversion Ha as [| ? ? Hx Ha']; subst.
    change (np.sum_seq res (x :: a)) with (np.sum_seq (fadd res x) a).
    simpl length. replace (k + S (length a))%nat with (S k + length a)%nat by lia.
    apply (within_proper _ (s + x + Qsum a)); [simpl; ring |].
    apply IH; [lra | exact Ha' |].
    apply within_fadd; [exact Hs | exact Hx | exact Hres |].
    apply (within_weaken 0); [exact Hx | lia | apply within_refl].
Qed.

Lemma zip_with_within k : forall ss r a,
  Forall2 (within k) ss r -> nonneg ss -> nonneg a -> length a = length r ->
  Forall2 (within (S k)) (np.zip_with Qplus ss a) (np.zip_with fadd r a)
  /\ nonneg (np.zip_with Qplus ss a)
  /\ (Qsum (np.zip_with Qplus ss a) == Qsum ss + Qsum a)%Q
  /\ length (np.zip_with fadd r a) = length r.
Proof.
  intros ss r a H. revert a.
  induction H as [| s v ss r Hsv H IH]; intros a Hss Ha Hlen.
  - destruct a; [| discriminate]. simpl.
    split; [constructor | split; [constructor | split; [ring | reflexivity]]].
  - destruct a as [| x a]; [discriminate |].
    inversion Hss as [| ? ? Hs Hss']; subst.
    inversion Ha as [| ? ? Hx Ha']; subst.
    simpl in Hlen. injection Hlen as Hlen.
    destruct (IH a Hss' Ha' Hlen) as [I1 [I2 [I3 I4]]].
    simpl. split; [| split; [| split]].
    + constructor; [| exact I1].
      apply within_fadd; [exact Hs | exact Hx | exact Hsv |].
      apply (within_weaken 0); [exact Hx | lia | apply within_refl].
    + constructor; [lra | exact I2].
    + rewrite I3. ring.
    + f_equal. exact I4.
Qed.

Lemma Qsum_firstn_skipn (n : nat) (a : list Q) :
  (Qsum a == Qsum (firstn n a) + Qsum (skipn n a))%Q.
Proof. rewrite <- Qsum_app, firstn_skipn. reflexivity. Qed.

Lemma nonneg_firstn n a : nonneg a -> nonneg (firstn n a).
Proof.
  unfold nonneg. intros H. rewrite <- (firstn_skipn n a) in H.
  apply Forall_app in H. apply H.
Qed.

Lemma nonneg_skipn n a : nonneg a -> nonneg (skipn n a).
Proof.
  unfold nonneg. intros H. rewrite <- (firstn_skipn n a) in H.
  apply Forall_app in H. apply H.
Qed.

Lemma add_blocks_within m : forall r a ss k,
  length r = 8%nat -> Forall2 (within k) ss r -> nonneg ss -> nonneg a ->
  (8 * m <= length a)%nat ->
  exists ss',
    length (fst (np.add_blocks m r a)) = 8%nat
    /\ Forall2 (within (k + m)) ss' (fst (np.add_blocks m r a))
    /\ nonneg ss'
    /\ nonneg (snd (np.add_blocks m r a))
    /\ (Qsum ss' + Qsum (snd (np.add_blocks m r a)) == Qsum ss + Qsum a)%Q
    /\ length (snd (np.add_blocks m r a)) = (length a - 8 * m)%nat.
Proof.
  induction m as [| m IH]; intros r a ss k Hr H Hss Ha Hlen.
  - exists ss. simpl. rewrite Nat.add_0_r, Nat.sub_0_r.
    split; [exact Hr |]. split; [exact H |]. split; [exact Hss |].
    split; [exact Ha |]. split; reflexivity.
  - cbn [np.add_blocks].
    assert (Hf : length (firstn 8 a) = length r)
      by (rewrite length_firstn; lia).
    destruct (zip_with_within k ss r (firstn 8 a) H Hss
                (nonneg_firstn 8 a Ha) Hf) as [I1 [I2 [I3 I4]]].
    destruct (IH (np.zip_with fadd r (firstn 8 a)) (skipn 8 a)
                 (np.zip_with Qplus ss (firstn 8 a)) (S k))
      as [ss' [J1 [J2 [J3 [J4 [J5 J6]]]]]].
    + rewrite I4. exact Hr.
    + exact I1.
    + exact I2.
    + apply nonneg_skipn, Ha.
    + rewrite length_skipn. lia.
    + exists ss'.
      split; [exact J1 |]. split; [| split; [exact J3 |]].
      * replace (k + S m)%nat with (S k + m)%nat by lia. exact J2.
      * split; [exact J4 |]. split.
        -- rewrite J5, I3, (Qsum_firstn_skipn 8 a). ring.
        -- rewrite J6, length_skipn. lia.
Qed.

Lemma sum_accumulators_within k ss r :
  length r = 8%nat -> Forall2 (within k) ss r -> nonneg ss ->
  within (k + 3) (Qsum ss) (np.sum_accumulators r).
Proof.
  intros Hr H Hss.
  destruct r as [| r0 [| r1 [| r2 [| r3 [| r4 [| r5 [| r6 [| r7 [| ? ?]]]]]]]]];
    try discriminate.
  inversion H as [| s0 ? ss0 ? W0 H0]; subst. clear H.
  inversion H0 as [| s1 ? ss1 ? W1 H1]; subst. clear H0.
  inversion H1 as [| s2 ? ss2 ? W2 H2]; subst. clear H1.
  inversion H2 as [| s3 ? ss3 ? W3 H3]; subst. clear H2.
  inversion H3 as [| s4 ? ss4 ? W4 H4]; subst. clear H3.
  inversion H4 as [| s5 ? ss5 ? W5 H5]; subst. clear H4.
  inversion H5 as [| s6 ? ss6 ? W6 H6]; subst. clear H5.
  inversion H6 as [| s7 ? ss7 ? W7 H7]; subst. clear H6.
  inversion H7; subst. clear H7.
  inversion Hss as [| ? ? P0 Q0]; subst. inversion Q0 as [| ? ? P1 Q1]; subst.
  inversion Q1 as [| ? ? P2 Q2]; subst. inversion Q2 as [| ? ? P3 Q3]; subst.
  inversion Q3 as [| ? ? P4 Q4]; subst. inversion Q4 as [| ? ? P5 Q5]; subst.
  inversion Q5 as [| ? ? P6 Q6]; subst. inversion Q6 as [| ? ? P7 Q7]; subst.
  cbn [np.sum_accumulators].
  apply (within_proper _ (((s0 + s1) + (s2 + s3)) + ((s4 + s5) + (s6 + s7))));
    [simpl; ring |].
  replace (k + 3)%nat with (S (S (S k))) by lia.
  apply within_fadd; [lra | lra | |];
    (apply within_fadd; [lra | lra | |]);
    (apply within_fadd; assumption).
Qed.

Lemma block_sum_within a :
  nonneg a -> within (length a) (Qsum a) (np.block_sum a).
Proof.
  intros Ha. unfold np.block_sum.
  destruct (Nat.ltb_spec (length a) 8) as [Hlt | Hge].
  - apply (within_proper _ (0 + Qsum a)); [ring |].
    apply (sum_seq_within a 0 0 0); [apply Qle_refl | exact Ha |].
    apply within_refl.
  - set (m := (length a / 8 - 1)%nat).
    pose proof (Nat.div_mod_eq (length a) 8) as Hdm.
    pose proof (Nat.mod_upper_bound (length a) 8 ltac:(lia)) as Hmod.
    assert (Hm : (8 * m <= length (skipn 8 a))%nat)
      by (rewrite length_skipn; unfold m; lia).
    assert (Hf : length (firstn 8 a) = 8%nat) by (rewrite length_firstn; lia).
    assert (H0 : Forall2 (within 0) (firstn 8 a) (firstn 8 a)).
    { clear. induction (firstn 8 a); constructor;
        [apply within_refl | assumption]. }
    destruct (add_blocks_within m (firstn 8 a) (skipn 8 a) (firstn 8 a) 0
                Hf H0 (nonneg_firstn 8 a Ha) (nonneg_skipn 8 a Ha) Hm)
      as [ss' [J1 [J2 [J3 [J4 [J5 J6]]]]]].
    destruct (np.add_blocks m (firstn 8 a) (skipn 8 a)) as [r rest].
    cbn [fst snd] in *.
    pose proof (sum_accumulators_within _ _ _ J1 J2 J3) as Hacc.
    pose proof (sum_seq_within rest _ _ _ (Qsum_nonneg _ J3) J4 Hacc) as Hs.
    apply (within_proper _ (Qsum ss' + Qsum rest)).
    + rewrite J5. symmetry. apply Qsum_firstn_skipn.
    + eapply within_weaken; [| | exact Hs].
      * pose proof (Qsum_nonneg _ J3). pose proof (Qsum_nonneg _ J4). lra.
      * rewrite J6, length_skipn. unfold m. lia.
Qed.

Lemma pairwise_sum_rec_within d : forall a,
  nonneg a -> within (length a) (Qsum a) (np.pairwise_sum_rec d a).
Proof.
  induction d as [| d IH]; intros a Ha.
  - apply block_sum_within, Ha.
  - cbn [np.pairwise_sum_rec].
    destruct (Nat.leb_spec (length a) 128) as [Hle | Hgt].
    + apply block_sum_within, Ha.
    + set (n2 := (length a / 2 - (length a / 2) mod 8)%nat).
      pose proof (Nat.div_mod_eq (length a) 2) as Hdm.
      pose proof (Nat.mod_upper_bound (length a) 2 ltac:(lia)) as Hm2.
      pose proof (Nat.mod_upper_bound (length a / 2) 8 ltac:(lia)) as Hm8.
      assert (Hn2 : (1 <= n2 < length a)%nat) by (unfold n2; lia).
      pose proof (IH _ (nonneg_firstn n2 a Ha)) as H1.
      pose proof (IH _ (nonneg_skipn n2 a Ha)) as H2.
      rewrite length_firstn in H1. rewrite length_skipn in H2.
      apply (within_proper _ (Qsum (firstn n2 a) + Qsum (skipn n2 a)));
        [symmetry; apply Qsum_firstn_skipn |].
      replace (length a) with (S (length a - 1)) at 1 by lia.
      apply within_fadd.
      * apply Qsum_nonneg, nonneg_firstn, Ha.
      * apply Qsum_nonneg, nonneg_skipn, Ha.
      * eapply within_weaken; [| | exact H1];
          [apply Qsum_nonneg, nonneg_firstn, Ha | lia].
      * eapply within_weaken; [| | exact H2];
          [apply Qsum_nonneg, nonneg_skipn, Ha | lia].
Qed.

Lemma pairwise_sum_within a :
  nonneg a -> within (length a) (Qsum a) (np.pairwise_sum a).
Proof. apply pairwise_sum_rec_within. Qed.

Lemma pairwise_sum_rec_depth d : forall d' a,
  (length a <= d)%nat -> (length a <= d')%nat ->
  np.pairwise_sum_rec d a = np.pairwise_sum_rec d' a.
Proof.
  induction d as [| d IH]; intros d' a H H'.
  - destruct d' as [| d']; [reflexivity |].
    cbn [np.pairwise_sum_rec].
    destruct (Nat.leb_spec (length a) 128); [reflexivity | lia].
  - destruct d' as [| d'].
    + cbn [np.pairwise_sum_rec].
      destruct (Nat.leb_spec (length a) 128); [reflexivity | lia].
    + cbn [np.pairwise_sum_rec].
      destruct (Nat.leb_spec (length a) 128) as [Hle | Hgt]; [reflexivity |].
      pose proof (Nat.div_mod_eq (length a) 2) as Hdm.
      pose proof (Nat.mod_upper_bound (length a) 2 ltac:(lia)) as Hm2.
      pose proof (Nat.mod_upper_bound (length a / 2) 8 ltac:(lia)) as Hm8.
      f_equal; apply IH;
        rewrite ?length_firstn, ?length_skipn; lia.
Qed.

(** ** Sums of integers *)

Lemma sumZ_cons {A : Type} (f : A -> Z) a l :
  sumZ f (a :: l) = f a + sumZ f l.
Proof. reflexivity. Qed.

Lemma sumZ_plus {A : Type} (f g : A -> Z) l :
  sumZ (fun a => f a + g a) l = sumZ f l + sumZ g l.
Proof.
  induction l as [| a l IH]; simpl; [reflexivity | rewrite IH; ring].
Qed.

Lemma sumZ_ext {A : Type} (f g : A -> Z) l :
  (forall a, In a l -> f a = g a) -> sumZ f l = sumZ g l.
Proof.
  induction l as [| a l IH]; intros H; simpl; [reflexivity |].
  rewrite (H a (or_introl eq_refl)), IH; [reflexivity |].
  intros b Hb. apply H. right. exact Hb.
Qed.

Lemma sumZ_le {A : Type} (f g : A -> Z) l :
  (forall a, In a l -> f a <= g a) -> sumZ f l <= sumZ g l.
Proof.
  induction l as [| a l IH]; intros H; simpl; [lia |].
  specialize (H a (or_introl eq_refl)) as Ha.
  assert (sumZ f l <= sumZ g l) by (apply IH; intros b Hb; apply H; right; exact Hb).
  lia.
Qed.

Lemma sumZ_zero {A : Type} (l : list A) : sumZ (fun _ => 0) l = 0.
Proof. induction l as [| a l IH]; simpl; [reflexivity | rewrite IH; reflexivity]. Qed.

Lemma sumZ_perm {A : Type} (f : A -> Z) l l' :
  Permutation l l' -> sumZ f l = sumZ f l'.
Proof.
  induction 1; rewrite ?sumZ_cons; lia.
Qed.

Lemma positives_nonneg l : 0 <= positives l.
Proof.
  unfold positives.
  induction l as [| [[|] s] l IH]; rewrite ?sumZ_cons; simpl fst; [simpl | |]; lia.
Qed.

Lemma negatives_nonneg l : 0 <= negatives l.
Proof.
  unfold negatives.
  induction l as [| [[|] s] l IH]; rewrite ?sumZ_cons; simpl fst; [simpl | |]; lia.
Qed.

Lemma positives_perm l l' : Permutation l l' -> positives l = positives l'.
Proof. apply sumZ_perm. Qed.

Lemma negatives_perm l l' : Permutation l l' -> negatives l = negatives l'.
Proof. apply sumZ_perm. Qed.

Lemma sumZ_map {A B : Type} (f : B -> Z) (g : A -> B) l :
  sumZ f (map g l) = sumZ (fun x => f (g x)) l.
Proof.
  induction l as [| a l IH]; [reflexivity |].
  cbn [map]. rewrite !sumZ_cons, IH. reflexivity.
Qed.

Lemma sumZ_nonneg {A : Type} (f : A -> Z) l :
  (forall x, In x l -> 0 <= f x) -> 0 <= sumZ f l.
Proof.
  induction l as [| a l IH]; intros H; [simpl; lia |].
  rewrite sumZ_cons.
  pose proof (H a (or_introl eq_refl)).
  assert (0 <= sumZ f l) by (apply IH; intros x Hx; apply H; right; exact Hx).
  lia.
Qed.

(** ** The stable sort *)

Lemma insert_sorted_perm {A : Type} (leb : A -> A -> bool) (x : A) l :
  Permutation (x :: l) (insert_sorted leb x l).
Proof.
  induction l as [| y t IH]; [reflexivity |].
  cbn [insert_sorted]. destruct (leb y x); [| reflexivity].
  eapply Permutation_trans; [apply perm_swap |].
  apply perm_skip. exact IH.
Qed.

Lemma fold_insert_perm {A : Type} (leb : A -> A -> bool) (l : list A) :
  forall acc,
    Permutation (l ++ acc)
                (fold_left (fun acc x => insert_sorted leb x acc) l acc).
Proof.
  induction l as [| x l IH]; intros acc; [reflexivity |].
  cbn [fold_left app].
  eapply Permutation_trans; [| apply IH].
  eapply Permutation_trans; [apply Permutation_middle |].
  apply Permutation_app_head. apply insert_sorted_perm.
Qed.

Lemma stable_sort_perm {A : Type} (leb : A -> A -> bool) (l : list A) :
  Permutation l (stable_sort leb l).
Proof.
  unfold stable_sort.
  pose proof (fold_insert_perm leb l []) as H.
  rewrite app_nil_r in H. exact H.
Qed.

Section SortedOutput.

Variable A : Type.
Variable leb : A -> A -> bool.
Hypothesis leb_total : forall x y, leb x y = true \/ leb y x = true.
Hypothesis leb_trans :
  forall x y z, leb x y = true -> leb y z = true -> leb x z = true.

Lemma insert_sorted_sorted (x : A) l :
  StronglySorted (fun a b => leb a b = true) l ->
  StronglySorted (fun a b => leb a b = true) (insert_sorted leb x l).
Proof.
  induction 1 as [| y t Hs IH Hall]; [repeat constructor |].
  cbn [insert_sorted]. destruct (leb y x) eqn:E.
  - constructor; [exact IH |].
    apply Forall_forall. intros z Hz.
    apply (Permutation_in z (Permutation_sym (insert_sorted_perm leb x t)))
      in Hz.
    destruct Hz as [Hz | Hz]; [subst z; exact E |].
    rewrite Forall_forall in Hall. exact (Hall z Hz).
  - assert (Hxy : leb x y = true)
      by (destruct (leb_total x y) as [H | H]; [exact H | congruence]).
    constructor; [constructor; assumption |].
    constructor; [exact Hxy |].
    apply Forall_forall. intros z Hz.
    rewrite Forall_forall in Hall.
    exact (leb_trans x y z Hxy (Hall z Hz)).
Qed.

Lemma stable_sort_sorted (l : list A) :
  StronglySorted (fun a b => leb a b = true) (stable_sort leb l).
Proof.
  unfold stable_sort.
  assert (H : forall acc,
             StronglySorted (fun a b => leb a b = true) acc ->
             StronglySorted (fun a b => leb a b = true)
               (fold_left (fun acc x => insert_sorted leb x acc) l acc)).
  { induction l as [| x l IH]; intros acc Hacc; [exact Hacc |].
    cbn [fold_left]. apply IH. apply insert_sorted_sorted. exact Hacc. }
  apply H. constructor.
Qed.

End SortedOutput.

Lemma StronglySorted_rev {A : Type} (R : A -> A -> Prop) l :
  StronglySorted R l -> StronglySorted (fun x y => R y x) (rev l).
Proof.
  induction 1 as [| a l Hs IH Hall]; simpl; [constructor |].
  assert (Happ : forall l1,
             StronglySorted (fun x y => R y x) l1 ->
             Forall (fun y => R a y) (rev l1) ->
             StronglySorted (fun x y => R y x) (l1 ++ [a])).
  { induction l1 as [| b l1 IH1]; intros Hs1 Hf; simpl.
    - constructor; constructor.
    - apply StronglySorted_inv in Hs1. destruct Hs1 as [Hs1 Hb].
      simpl in Hf. apply Forall_app in Hf. destruct Hf as [Hf Hab].
      constructor.
      + apply IH1; assumption.
      + apply Forall_app. split; [exact Hb |].
        constructor; [| constructor]. inversion Hab; assumption. }
  apply Happ; [exact IH |].
  rewrite rev_involutive. exact Hall.
Qed.

Lemma score_leb_total (x y : example) :
  score_leb x y = true \/ score_leb y x = true.
Proof.
  unfold score_leb. rewrite !Qle_bool_iff.
  destruct (Qlt_le_dec (snd y) (snd x)) as [H | H].
  - right. apply Qlt_le_weak. exact H.
  - left. exact H.
Qed.

Lemma score_leb_trans (x y z : example) :
  score_leb x y = true -> score_leb y z = true -> score_leb x z = true.
Proof. unfold score_leb. rewrite !Qle_bool_iff. apply Qle_trans. Qed.

(** The examples in descending order of the scores, as the curve reads
    them. *)
Lemma sorted_descending (l : list example) :
  descending (rev (stable_sort score_leb l)).
Proof.
  unfold descending.
  pose proof (stable_sort_sorted example score_leb score_leb_total
                score_leb_trans l) as Hs.
  apply StronglySorted_rev in Hs.
  induction Hs as [| a t Ht IH Hall]; constructor; [exact IH |].
  eapply Forall_impl; [| exact Hall].
  intros b Hb. cbv beta in Hb. unfold score_leb in Hb.
  apply Qle_bool_iff in Hb. exact Hb.
Qed.

Lemma sorted_perm (l : list example) :
  Permutation l (rev (stable_sort score_leb l)).
Proof.
  eapply Permutation_trans; [apply stable_sort_perm |].
  apply Permutation_rev.
Qed.

Lemma sort_desc_descending y_true y_score :
  descending (metrics.sort_desc y_true y_score).
Proof. apply sorted_descending. Qed.

Lemma sort_desc_perm y_true y_score :
  Permutation (combine y_true y_score) (metrics.sort_desc y_true y_score).
Proof. apply sorted_perm. Qed.

(** ** The curve of a list in descending order *)

Lemma clf_curve_from_cons2 fp tp x y rest :
  metrics.clf_curve_from fp tp (x :: y :: rest) =
  let tp' := if fst x then tp + 1 else tp in
  let fp' := if fst x then fp else fp + 1 in
  if Qeq_bool (snd x) (snd y)
  then metrics.clf_curve_from fp' tp' (y :: rest)
  else (fp', tp') :: metrics.clf_curve_from fp' tp' (y :: rest).
Proof. reflexivity. Qed.

Lemma descending_inv x l :
  descending (x :: l) ->
  descending l /\ (forall y, In y l -> (snd y <= snd x)%Q).
Proof.
  intros H. apply StronglySorted_inv in H. destruct H as [H1 H2].
  split; [exact H1 |]. apply Forall_forall. exact H2.
Qed.

Lemma count_ge_cons c s x l :
  count_ge c s (x :: l) =
  (if Bool.eqb (fst x) c && Qle_bool s (snd x) then 1 else 0)
  + count_ge c s l.
Proof. reflexivity. Qed.

Lemma count_ge_nonneg c s l : 0 <= count_ge c s l.
Proof.
  apply sumZ_nonneg. intros x _.
  destruct (Bool.eqb (fst x) c && Qle_bool s (snd x)); lia.
Qed.

Lemma Qle_bool_proper_l s s' t :
  (s == s')%Q -> Qle_bool s t = Qle_bool s' t.
Proof.
  intros E. destruct (Qle_bool s t) eqn:H1, (Qle_bool s' t) eqn:H2;
    try reflexivity.
  - apply Qle_bool_iff in H1. rewrite E in H1. apply Qle_bool_iff in H1.
    congruence.
  - apply Qle_bool_iff in H2. rewrite <- E in H2. apply Qle_bool_iff in H2.
    congruence.
Qed.

Lemma count_ge_proper c s s' l :
  (s == s')%Q -> count_ge c s l = count_ge c s' l.
Proof.
  intros E. apply sumZ_ext. intros y _.
  rewrite (Qle_bool_proper_l s s' (snd y) E). reflexivity.
Qed.

Lemma count_ge_perm c s l l' :
  Permutation l l' -> count_ge c s l = count_ge c s l'.
Proof. apply sumZ_perm. Qed.

(** Above every score of the list nothing is counted; at or below every
    score of a class the whole class is. *)
Lemma count_ge_above c s l :
  (forall y, In y l -> fst y = c -> (snd y < s)%Q) -> count_ge c s l = 0.
Proof.
  intros H. unfold count_ge.
  transitivity (sumZ (fun _ : example => 0) l); [| apply sumZ_zero].
  apply sumZ_ext. intros y Hy.
  destruct (Bool.eqb (fst y) c) eqn:Ec; [| reflexivity].
  apply Bool.eqb_prop in Ec. specialize (H y Hy Ec).
  destruct (Qle_bool s (snd y)) eqn:E; [| reflexivity].
  apply Qle_bool_iff in E. exfalso. exact (Qlt_not_le _ _ H E).
Qed.

Lemma count_ge_below_true s l :
  (forall y, In y l -> fst y = true -> (s <= snd y)%Q) ->
  count_ge true s l = positives l.
Proof.
  intros H. apply sumZ_ext. intros y Hy.
  destruct (fst y) eqn:Ey; cbn [Bool.eqb andb]; [| reflexivity].
  assert (E : Qle_bool s (snd y) = true)
    by (apply Qle_bool_iff, H; assumption).
  rewrite E. reflexivity.
Qed.

Lemma count_ge_below_false s l :
  (forall y, In y l -> fst y = false -> (s <= snd y)%Q) ->
  count_ge false s l = negatives l.
Proof.
  intros H. apply sumZ_ext. intros y Hy.
  destruct (fst y) eqn:Ey; cbn [Bool.eqb andb]; [reflexivity |].
  assert (E : Qle_bool s (snd y) = true)
    by (apply Qle_bool_iff, H; assumption).
  rewrite E. reflexivity.
Qed.

Lemma count_ge_le_true s l : count_ge true s l <= positives l.
Proof.
  apply sumZ_le. intros y _.
  destruct (fst y); cbn [Bool.eqb andb]; [| lia].
  destruct (Qle_bool s (snd y)); lia.
Qed.

Lemma count_ge_le_false s l : count_ge false s l <= negatives l.
Proof.
  apply sumZ_le. intros y _.
  destruct (fst y); cbn [Bool.eqb andb]; [lia |].
  destruct (Qle_bool s (snd y)); lia.
Qed.

(** The points of the curve are the points at the scores of the list. *)
Lemma curve_members l :
  descending l ->
  forall fp tp p,
    In p (metrics.clf_curve_from fp tp l) <->
    exists x, In x l /\
              p = (fp + count_ge false (snd x) l,
                   tp + count_ge true (snd x) l).
Proof.
  induction l as [| x rest IH]; intros Hd fp tp p.
  - simpl. split; [intros [] | intros [x [[] _]]].
  - apply descending_inv in Hd. destruct Hd as [Hd Hle].
    set (fp' := if fst x then fp else fp + 1).
    set (tp' := if fst x then tp + 1 else tp).
    assert (Hshift : forall s, (s <= snd x)%Q ->
               (fp + count_ge false s (x :: rest),
                tp + count_ge true s (x :: rest)) =
               (fp' + count_ge false s rest, tp' + count_ge true s rest)).
    { intros s Hs. apply Qle_bool_iff in Hs.
      rewrite !count_ge_cons, Hs. subst fp' tp'.
      destruct (fst x); cbn [Bool.eqb andb]; f_equal; lia. }
    destruct rest as [| y rest'].
    + cbn [metrics.clf_curve_from]. fold fp' tp'.
      assert (Hx : (fp + count_ge false (snd x) [x],
                    tp + count_ge true (snd x) [x]) = (fp', tp')).
      { rewrite (Hshift (snd x) (Qle_refl _)).
        unfold count_ge. simpl. f_equal; lia. }
      split.
      * intros [Hp | []]. exists x. split; [left; reflexivity |].
        rewrite Hx. symmetry. exact Hp.
      * intros [z [[Hz | []] Hp]]. subst z. left. rewrite Hp, Hx. reflexivity.
    + rewrite clf_curve_from_cons2. cbv zeta. fold fp' tp'.
      set (rest := y :: rest') in *.
      destruct (Qeq_bool (snd x) (snd y)) eqn:E.
      * apply Qeq_bool_iff in E. rewrite (IH Hd fp' tp' p). split.
        -- intros [z [Hz Hp]]. exists z. split; [right; exact Hz |].
           rewrite Hp. symmetry. apply Hshift. apply Hle. exact Hz.
        -- intros [z [[Hz | Hz] Hp]].
           ++ subst z. exists y. split; [left; reflexivity |].
              rewrite Hp, (Hshift (snd x) (Qle_refl _)).
              rewrite (count_ge_proper false _ _ rest E),
                (count_ge_proper true _ _ rest E).
              reflexivity.
           ++ exists z. split; [exact Hz |].
              rewrite Hp. apply Hshift. apply Hle. exact Hz.
      * apply Qeq_bool_neq in E.
        assert (Hlt : forall z, In z rest -> (snd z < snd x)%Q).
        { intros z Hz.
          assert (Hy : (snd y < snd x)%Q).
          { pose proof (Hle y (or_introl eq_refl)) as Hy.
            apply Qle_lteq in Hy. destruct Hy as [Hy | Hy]; [exact Hy |].
            exfalso. apply E. symmetry. exact Hy. }
          destruct Hz as [Hz | Hz]; [subst z; exact Hy |].
          apply descending_inv in Hd. destruct Hd as [_ Hd].
          eapply Qle_lt_trans; [apply Hd; exact Hz | exact Hy]. }
        assert (Hx : (fp + count_ge false (snd x) (x :: rest),
                      tp + count_ge true (snd x) (x :: rest)) = (fp', tp')).
        { rewrite (Hshift (snd x) (Qle_refl _)).
          rewrite !count_ge_above by (intros z Hz _; apply Hlt; exact Hz).
          f_equal; lia. }
        cbn [In]. rewrite (IH Hd fp' tp' p). split.
        -- intros [Hp | [z [Hz Hp]]].
           ++ exists x. split; [left; reflexivity |].
              rewrite Hx. symmetry. exact Hp.
           ++ exists z. split; [right; exact Hz |].
              rewrite Hp. symmetry. apply Hshift. apply Hle. exact Hz.
        -- intros [z [[Hz | Hz] Hp]].
           ++ subst z. left. rewrite Hp, Hx. reflexivity.
           ++ right. exists z. split; [exact Hz |].
              rewrite Hp. apply Hshift. apply Hle. exact Hz.
Qed.

(** Every point counts more examples than the point before it. *)
Lemma curve_strict l : forall fp tp,
  StronglySorted count_lt (metrics.clf_curve_from fp tp l)
  /\ Forall (fun p => fp + tp < fst p + snd p)
            (metrics.clf_curve_from fp tp l).
Proof.
  induction l as [| x rest IH]; intros fp tp.
  - simpl. split; constructor.
  - destruct rest as [| y rest'].
    + cbn [metrics.clf_curve_from]. split.
      * repeat constructor.
      * constructor; [| constructor]. cbn [fst snd]. destruct (fst x); lia.
    + rewrite clf_curve_from_cons2. cbv zeta.
      set (fp' := if fst x then fp else fp + 1).
      set (tp' := if fst x then tp + 1 else tp).
      assert (Hstep : fp + tp < fp' + tp')
        by (subst fp' tp'; destruct (fst x); lia).
      destruct (IH fp' tp') as [Hs Hall].
      destruct (Qeq_bool (snd x) (snd y)).
      * split; [exact Hs |].
        eapply Forall_impl; [| exact Hall]. intros p Hp. cbv beta in Hp. lia.
      * split.
        -- constructor; [exact Hs |].
           eapply Forall_impl; [| exact Hall].
           intros p Hp. unfold count_lt. cbn [fst snd]. exact Hp.
        -- constructor; [cbn [fst snd]; exact Hstep |].
           eapply Forall_impl; [| exact Hall].
           intros p Hp. cbv beta in Hp. lia.
Qed.

(** Two lists in a strict order with the same elements are equal. *)
Lemma strongly_sorted_unique {A : Type} (R : A -> A -> Prop) :
  (forall x, ~ R x x) ->
  (forall x y z, R x y -> R y z -> R x z) ->
  forall l1 l2,
    StronglySorted R l1 -> StronglySorted R l2 ->
    (forall x, In x l1 <-> In x l2) -> l1 = l2.
Proof.
  intros Hirr Htrans.
  induction l1 as [| a l1 IH]; intros l2 H1 H2 Hin.
  - destruct l2 as [| b l2]; [reflexivity |].
    exfalso. apply (proj2 (Hin b)). left. reflexivity.
  - destruct l2 as [| b l2].
    + exfalso. apply (proj1 (Hin a)). left. reflexivity.
    + apply StronglySorted_inv in H1. destruct H1 as [H1 Ha].
      apply StronglySorted_inv in H2. destruct H2 as [H2 Hb].
      rewrite Forall_forall in Ha, Hb.
      assert (Hab : a = b).
      { destruct (proj1 (Hin a) (or_introl eq_refl)) as [E | Hal2];
          [symmetry; exact E |].
        destruct (proj2 (Hin b) (or_introl eq_refl)) as [E | Hbl1];
          [exact E |].
        exfalso. apply (Hirr a).
        exact (Htrans a b a (Ha b Hbl1) (Hb a Hal2)). }
      subst b. f_equal. apply IH; [exact H1 | exact H2 |].
      intros x. split; intros Hx.
      * destruct (proj1 (Hin x) (or_intror Hx)) as [E | Hx2]; [| exact Hx2].
        subst x. exfalso. exact (Hirr a (Ha a Hx)).
      * destruct (proj2 (Hin x) (or_intror Hx)) as [E | Hx1]; [| exact Hx1].
        subst x. exfalso. exact (Hirr a (Hb a Hx)).
Qed.

Lemma count_lt_irrefl (p : Z * Z) : ~ count_lt p p.
Proof. unfold count_lt. lia. Qed.

Lemma count_lt_trans (p q r : Z * Z) :
  count_lt p q -> count_lt q r -> count_lt p r.
Proof. unfold count_lt. lia. Qed.

(** The points of the curve of any list: one point for each score. *)
Lemma curve_of_members (l : list example) (p : Z * Z) :
  In p (curve_of l) <-> exists x, In x l /\ p = point_at l (snd x).
Proof.
  unfold curve_of, point_at.
  pose proof (sorted_perm l) as Hperm.
  rewrite (curve_members _ (sorted_descending l) 0 0 p).
  split; intros [x [Hx Hp]]; exists x.
  - split; [exact (Permutation_in x (Permutation_sym Hperm) Hx) |].
    rewrite Hp, !Z.add_0_l.
    rewrite <- (count_ge_perm false _ _ _ Hperm),
      <- (count_ge_perm true _ _ _ Hperm).
    reflexivity.
  - split; [exact (Permutation_in x Hperm Hx) |].
    rewrite Hp, !Z.add_0_l.
    rewrite <- (count_ge_perm false _ _ _ Hperm),
      <- (count_ge_perm true _ _ _ Hperm).
    reflexivity.
Qed.

Lemma curve_of_sorted (l : list example) : StronglySorted count_lt (curve_of l).
Proof. apply curve_strict. Qed.

(** Two inputs with the same points at their scores have the same curve. *)
Lemma curve_of_ext (l l' : list example) :
  (forall p, (exists x, In x l /\ p = point_at l (snd x)) <->
             (exists x, In x l' /\ p = point_at l' (snd x))) ->
  curve_of l = curve_of l'.
Proof.
  intros H.
  apply (strongly_sorted_unique count_lt count_lt_irrefl count_lt_trans);
    try apply curve_of_sorted.
  intros p. rewrite !curve_of_members. apply H.
Qed.

(** The curve depends on the multiset of the examples only. *)
Lemma curve_of_perm (l l' : list example) :
  Permutation l l' -> curve_of l = curve_of l'.
Proof.
  intros Hperm. apply curve_of_ext. intros p.
  unfold point_at.
  split; intros [x [Hx Hp]]; exists x.
  - split; [exact (Permutation_in x Hperm Hx) |].
    rewrite Hp, (count_ge_perm false _ _ _ Hperm),
      (count_ge_perm true _ _ _ Hperm).
    reflexivity.
  - split; [exact (Permutation_in x (Permutation_sym Hperm) Hx) |].
    rewrite Hp, (count_ge_perm false _ _ _ Hperm),
      (count_ge_perm true _ _ _ Hperm).
    reflexivity.
Qed.

(** The last point of the curve holds the two class counts. *)
Lemma clf_curve_from_last l : forall fp tp d,
  l <> [] ->
  last (metrics.clf_curve_from fp tp l) d =
  (fp + negatives l, tp + positives l).
Proof.
  induction l as [| x rest IH]; intros fp tp d Hne; [congruence |].
  destruct rest as [| y rest].
  - unfold negatives, positives.
    destruct x as [[|] s]; cbn [metrics.clf_curve_from last sumZ fold_right fst];
      f_equal; ring.
  - rewrite clf_curve_from_cons2. cbv zeta.
    assert (Hne' : y :: rest <> []) by discriminate.
    assert (Hcount : negatives (x :: y :: rest) =
                     (if fst x then 0 else 1) + negatives (y :: rest) /\
                     positives (x :: y :: rest) =
                     (if fst x then 1 else 0) + positives (y :: rest))
      by (split; reflexivity).
    destruct Hcount as [Hn Hp]. rewrite Hn, Hp.
    assert (Hnil : forall fp' tp',
               metrics.clf_curve_from fp' tp' (y :: rest) <> []).
    { intros fp' tp' Hc.
      pose proof (IH fp' tp' (fp' - 1, tp') Hne') as Hl.
      rewrite Hc in Hl. cbn [last] in Hl.
      pose proof (negatives_nonneg (y :: rest)).
      apply (f_equal fst) in Hl. cbn [fst] in Hl. lia. }
    destruct (Qeq_bool (snd x) (snd y)).
    + rewrite IH by exact Hne'. destruct (fst x); f_equal; ring.
    + match goal with
      | |- last (?p :: ?c) d = _ =>
          replace (last (p :: c) d) with (last c d)
      end.
      * rewrite IH by exact Hne'. destruct (fst x); f_equal; ring.
      * destruct (metrics.clf_curve_from
                    (if fst x then fp else fp + 1)
                    (if fst x then tp + 1 else tp) (y :: rest)) eqn:Ec;
          [exfalso; exact (Hnil _ _ Ec) | reflexivity].
Qed.

Lemma clf_curve_from_nonempty l fp tp :
  l <> [] -> metrics.clf_curve_from fp tp l <> [].
Proof.
  intros Hne Hc.
  pose proof (clf_curve_from_last l fp tp (fp - 1, tp) Hne) as Hl.
  rewrite Hc in Hl. cbn [last] in Hl.
  pose proof (negatives_nonneg l).
  apply (f_equal fst) in Hl. cbn [fst] in Hl. lia.
Qed.

Lemma clf_curve_from_sorted l : forall fp tp,
  Sorted fp_le ((fp, tp) :: metrics.clf_curve_from fp tp l).
Proof.
  induction l as [| x rest IH]; intros fp tp.
  - simpl. constructor; constructor.
  - destruct rest as [| y rest].
    + cbn [metrics.clf_curve_from].
      constructor; [constructor; constructor |].
      constructor. unfold fp_le. simpl. destruct (fst x); lia.
    + rewrite clf_curve_from_cons2. cbv zeta.
      set (fp' := if fst x then fp else fp + 1).
      set (tp' := if fst x then tp + 1 else tp).
      assert (Hfp : fp <= fp') by (subst fp'; destruct (fst x); lia).
      pose proof (IH fp' tp') as Hs.
      destruct (Qeq_bool (snd x) (snd y)).
      * apply Sorted_inv in Hs. destruct Hs as [Hs Hhd].
        constructor; [exact Hs |].
        destruct (metrics.clf_curve_from fp' tp' (y :: rest)) as [| q c];
          constructor.
        apply HdRel_inv in Hhd. unfold fp_le in *. simpl in *. lia.
      * constructor; [exact Hs |]. constructor. exact Hfp.
Qed.

Lemma clf_curve_from_tp_sorted l : forall fp tp,
  Sorted tp_le ((fp, tp) :: metrics.clf_curve_from fp tp l).
Proof.
  induction l as [| x rest IH]; intros fp tp.
  - simpl. constructor; constructor.
  - destruct rest as [| y rest].
    + cbn [metrics.clf_curve_from].
      constructor; [constructor; constructor |].
      constructor. unfold tp_le. simpl. destruct (fst x); lia.
    + rewrite clf_curve_from_cons2. cbv zeta.
      set (fp' := if fst x then fp else fp + 1).
      set (tp' := if fst x then tp + 1 else tp).
      assert (Htp : tp <= tp') by (subst tp'; destruct (fst x); lia).
      pose proof (IH fp' tp') as Hs.
      destruct (Qeq_bool (snd x) (snd y)).
      * apply Sorted_inv in Hs. destruct Hs as [Hs Hhd].
        constructor; [exact Hs |].
        destruct (metrics.clf_curve_from fp' tp' (y :: rest)) as [| q c];
          constructor.
        apply HdRel_inv in Hhd. unfold tp_le in *. simpl in *. lia.
      * constructor; [exact Hs |]. constructor. exact Htp.
Qed.

Lemma clf_curve_from_length l : forall fp tp,
  (length (metrics.clf_curve_from fp tp l) <= length l)%nat.
Proof.
  induction l as [| x rest IH]; intros fp tp; [simpl; lia |].
  destruct rest as [| y rest]; [simpl; lia |].
  rewrite clf_curve_from_cons2. cbv zeta.
  destruct (Qeq_bool (snd x) (snd y)).
  - etransitivity; [apply IH |]. simpl. lia.
  - cbn [length]. apply le_n_S. apply IH.
Qed.

(** Without a tie between a positive and a negative example every step of
    the curve is along one axis.  [a] negative or [b] positive examples
    tied with the head of the list have been counted since the last point
    [(fp0, tp0)]. *)
Lemma curve_axis_parallel rest : forall x fp0 tp0 a b,
  no_cross_tie (x :: rest) ->
  0 <= a -> 0 <= b ->
  (0 < a -> fst x = false /\ b = 0) ->
  (0 < b -> fst x = true /\ a = 0) ->
  Sorted axis_parallel
    ((fp0, tp0) :: metrics.clf_curve_from (fp0 + a) (tp0 + b) (x :: rest)).
Proof.
  induction rest as [| y rest IH]; intros x fp0 tp0 a b Hnt Ha Hb Hna Hnb.
  - cbn [metrics.clf_curve_from].
    constructor; [repeat constructor |].
    constructor. unfold axis_parallel. cbn [fst snd].
    destruct (fst x) eqn:Ex.
    + left. destruct (Z.eq_dec a 0) as [E | E]; [lia |].
      destruct (Hna ltac:(lia)) as [Hf _]. congruence.
    + right. destruct (Z.eq_dec b 0) as [E | E]; [lia |].
      destruct (Hnb ltac:(lia)) as [Hf _]. congruence.
  - rewrite clf_curve_from_cons2. cbv zeta.
    assert (Hnt' : no_cross_tie (y :: rest)).
    { intros u v Hu Hv. apply Hnt; right; assumption. }
    destruct (Qeq_bool (snd x) (snd y)) eqn:E.
    + apply Qeq_bool_iff in E.
      assert (Hxy : fst y = fst x).
      { destruct (fst x) eqn:Ex, (fst y) eqn:Ey; try reflexivity; exfalso.
        - apply (Hnt x y); [left; reflexivity | right; left; reflexivity
                           | exact Ex | exact Ey | exact E].
        - apply (Hnt y x); [right; left; reflexivity | left; reflexivity
                           | exact Ey | exact Ex | symmetry; exact E]. }
      destruct (fst x) eqn:Ex.
      * replace (tp0 + b + 1) with (tp0 + (b + 1)) by ring.
        apply IH; [exact Hnt' | exact Ha | lia | |].
        -- intros H0. destruct (Hna H0) as [Hf _]. congruence.
        -- intros _. split; [exact Hxy |].
           destruct (Z.eq_dec a 0) as [Ea | Ea]; [exact Ea |].
           destruct (Hna ltac:(lia)) as [Hf _]. congruence.
      * replace (fp0 + a + 1) with (fp0 + (a + 1)) by ring.
        apply IH; [exact Hnt' | lia | exact Hb | |].
        -- intros _. split; [exact Hxy |].
           destruct (Z.eq_dec b 0) as [Eb | Eb]; [exact Eb |].
           destruct (Hnb ltac:(lia)) as [Hf _]. congruence.
        -- intros H0. destruct (Hnb H0) as [Hf _]. congruence.
    + set (fp' := if fst x then fp0 + a else fp0 + a + 1).
      set (tp' := if fst x then tp0 + b + 1 else tp0 + b).
      pose proof (IH y fp' tp' 0 0 Hnt' ltac:(lia) ltac:(lia)
                    ltac:(intros; lia) ltac:(intros; lia)) as Hs.
      rewrite !Z.add_0_r in Hs.
      constructor; [exact Hs |].
      constructor. unfold axis_parallel. subst fp' tp'. cbn [fst snd].
      destruct (fst x) eqn:Ex.
      * left. destruct (Z.eq_dec a 0) as [Ea | Ea]; [lia |].
        destruct (Hna ltac:(lia)) as [Hf _]. congruence.
      * right. destruct (Z.eq_dec b 0) as [Eb | Eb]; [lia |].
        destruct (Hnb ltac:(lia)) as [Hf _]. congruence.
Qed.

Lemma curve_of_axis_parallel (l : list example) :
  no_cross_tie l -> Sorted axis_parallel ((0, 0) :: curve_of l).
Proof.
  intros Hnt. unfold curve_of.
  pose proof (sorted_perm l) as Hperm.
  destruct (rev (stable_sort score_leb l)) as [| x rest] eqn:E.
  - simpl. repeat constructor.
  - pose proof (curve_axis_parallel rest x 0 0 0 0) as H.
    rewrite !Z.add_0_r in H. apply H; try lia.
    intros u v Hu Hv.
    apply Hnt; apply (Permutation_in _ (Permutation_sym Hperm)); assumption.
Qed.

(** ** Dropping the intermediate points *)

Lemma drop_from_cons2 p q r t :
  metrics.drop_from p (q :: r :: t) =
  if (fst r - 2 * fst q + fst p =? 0) && (snd r - 2 * snd q + snd p =? 0)
  then metrics.drop_from q (r :: t)
  else q :: metrics.drop_from q (r :: t).
Proof. reflexivity. Qed.

Lemma drop_from_In l : forall p x,
  In x (metrics.drop_from p l) -> In x l.
Proof.
  induction l as [| q t IH]; intros p x Hx; [exact Hx |].
  destruct t as [| r t]; [exact Hx |].
  rewrite drop_from_cons2 in Hx.
  destruct ((fst r - 2 * fst q + fst p =? 0)
            && (snd r - 2 * snd q + snd p =? 0)).
  - right. exact (IH q x Hx).
  - destruct Hx as [Hx | Hx]; [left; exact Hx | right; exact (IH q x Hx)].
Qed.

Lemma drop_from_nonempty l : forall p,
  l <> [] -> metrics.drop_from p l <> [].
Proof.
  induction l as [| q t IH]; intros p Hne; [congruence |].
  destruct t as [| r t]; [discriminate |].
  rewrite drop_from_cons2.
  destruct ((fst r - 2 * fst q + fst p =? 0)
            && (snd r - 2 * snd q + snd p =? 0)).
  - apply IH. discriminate.
  - discriminate.
Qed.

Lemma drop_from_last l : forall p d,
  last (metrics.drop_from p l) d = last l d.
Proof.
  induction l as [| q t IH]; intros p d; [reflexivity |].
  destruct t as [| r t]; [reflexivity |].
  rewrite drop_from_cons2.
  change (last (q :: r :: t) d) with (last (r :: t) d).
  destruct ((fst r - 2 * fst q + fst p =? 0)
            && (snd r - 2 * snd q + snd p =? 0)).
  - apply IH.
  - rewrite <- (IH q d).
    pose proof (drop_from_nonempty (r :: t) q) as Hne.
    destruct (metrics.drop_from q (r :: t)) as [| a c];
      [exfalso; apply Hne; [discriminate | reflexivity] | reflexivity].
Qed.

Lemma drop_from_strongly_sorted (R : Z * Z -> Z * Z -> Prop) l :
  StronglySorted R l ->
  forall p, StronglySorted R (metrics.drop_from p l).
Proof.
  induction 1 as [| q t Hs IH Hall]; intros p; [constructor |].
  destruct t as [| r t]; [repeat constructor |].
  rewrite drop_from_cons2.
  destruct ((fst r - 2 * fst q + fst p =? 0)
            && (snd r - 2 * snd q + snd p =? 0)).
  - apply IH.
  - constructor; [apply IH |].
    apply Forall_forall. intros x Hx. apply drop_from_In in Hx.
    rewrite Forall_forall in Hall. exact (Hall x Hx).
Qed.

Lemma drop_intermediate_In c x :
  In x (metrics.drop_intermediate c) -> In x c.
Proof.
  destruct c as [| q t]; [intros [] |].
  cbn [metrics.drop_intermediate]. intros [H | H]; [left; exact H |].
  right. exact (drop_from_In t q x H).
Qed.

Lemma drop_from_length l : forall p,
  (length (metrics.drop_from p l) <= length l)%nat.
Proof.
  induction l as [| q t IH]; intros p; [simpl; lia |].
  destruct t as [| r t]; [simpl; lia |].
  rewrite drop_from_cons2.
  destruct ((fst r - 2 * fst q + fst p =? 0)
            && (snd r - 2 * snd q + snd p =? 0)).
  - etransitivity; [apply IH |]. simpl. lia.
  - cbn [length]. apply le_n_S. apply IH.
Qed.

Lemma drop_intermediate_length c :
  (length (metrics.drop_intermediate c) <= length c)%nat.
Proof.
  destruct c as [| q t]; [simpl; lia |].
  cbn [metrics.drop_intermediate length]. apply le_n_S, drop_from_length.
Qed.

Lemma drop_intermediate_last (c : list (Z * Z)) (k : Z * Z) :
  c <> [] ->
  metrics.drop_intermediate c <> []
  /\ last (metrics.drop_intermediate c) k = last c k.
Proof.
  intros Hne. destruct c as [| q t]; [congruence |].
  cbn [metrics.drop_intermediate].
  split; [discriminate |].
  destruct t as [| r t]; [reflexivity |].
  change (last (q :: r :: t) k) with (last (r :: t) k).
  rewrite <- (drop_from_last (r :: t) q k).
  pose proof (drop_from_nonempty (r :: t) q) as Hd.
  destruct (metrics.drop_from q (r :: t)) as [| a c];
    [exfalso; apply Hd; [discriminate | reflexivity] | reflexivity].
Qed.

(** The removal keeps an order of the points. *)
Lemma drop_intermediate_sorted (R : Z * Z -> Z * Z -> Prop)
  (c : list (Z * Z)) (k : Z * Z) :
  Transitive R ->
  Sorted R (k :: c) -> Sorted R (k :: metrics.drop_intermediate c).
Proof.
  intros Htrans Hs. destruct c as [| q t]; [exact Hs |].
  cbn [metrics.drop_intermediate].
  apply StronglySorted_Sorted.
  apply Sorted_StronglySorted in Hs; [| exact Htrans].
  apply StronglySorted_inv in Hs. destruct Hs as [Hs Hk].
  apply StronglySorted_inv in Hs. destruct Hs as [Hs Hq].
  constructor.
  - constructor; [apply drop_from_strongly_sorted; exact Hs |].
    apply Forall_forall. intros x Hx. apply drop_from_In in Hx.
    rewrite Forall_forall in Hq. exact (Hq x Hx).
  - inversion Hk as [| ? ? Hkq Hkt]; subst.
    constructor; [exact Hkq |].
    apply Forall_forall. intros x Hx. apply drop_from_In in Hx.
    rewrite Forall_forall in Hkt. exact (Hkt x Hx).
Qed.

#[local] Instance fp_le_trans : Transitive fp_le.
Proof. intros x y z. unfold fp_le. lia. Qed.

#[local] Instance tp_le_trans : Transitive tp_le.
Proof. intros x y z. unfold tp_le. lia. Qed.

(** [k] is the last point kept, [p] the point before [q]; the points
    between [k] and [p] were dropped, so [k], [p] and [q] lie on one
    line: a step along an axis stays one. *)
Lemma drop_from_axis (c : Z) t : forall q k p m,
  fst p - fst k = m * (fst q - fst p) ->
  snd p - snd k = m * (snd q - snd p) ->
  Sorted (axis_step c) (p :: q :: t) ->
  Sorted (axis_step c) (k :: metrics.drop_from p (q :: t)).
Proof.
  induction t as [| r t IH]; intros q k p m H1 H2 Hs.
  - cbn [metrics.drop_from].
    apply Sorted_inv in Hs. destruct Hs as [_ Hpq].
    apply HdRel_inv in Hpq.
    constructor; [repeat constructor |]. constructor.
    unfold axis_step in *. destruct Hpq as [E | [E1 E2]].
    + left. rewrite <- E in H1. lia.
    + right. split; [| exact E2]. rewrite E1, E2 in H2. lia.
  - rewrite drop_from_cons2.
    pose proof Hs as Hs0.
    apply Sorted_inv in Hs. destruct Hs as [Hs Hpq].
    apply HdRel_inv in Hpq.
    destruct ((fst r - 2 * fst q + fst p =? 0)
              && (snd r - 2 * snd q + snd p =? 0)) eqn:E.
    + apply andb_true_iff in E. destruct E as [D1 D2].
      apply Z.eqb_eq in D1, D2.
      apply (IH r k q (m + 1)); [nia | nia | exact Hs].
    + constructor.
      * apply (IH r q q 0); [lia | lia | exact Hs].
      * constructor. unfold axis_step in *. destruct Hpq as [E' | [E1 E2]].
        -- left. rewrite <- E' in H1. lia.
        -- right. split; [| exact E2]. rewrite E1, E2 in H2. lia.
Qed.

Lemma drop_intermediate_axis (c0 : Z) (c : list (Z * Z)) (k : Z * Z) :
  Sorted (axis_step c0) (k :: c) ->
  Sorted (axis_step c0) (k :: metrics.drop_intermediate c).
Proof.
  intros Hs. destruct c as [| q t]; [exact Hs |].
  cbn [metrics.drop_intermediate].
  destruct t as [| r t]; [exact Hs |].
  pose proof Hs as Hs0.
  apply Sorted_inv in Hs. destruct Hs as [Hs Hkq].
  constructor; [| constructor; apply HdRel_inv in Hkq; exact Hkq].
  apply (drop_from_axis c0 t r q q 0); [lia | lia | exact Hs].
Qed.

(** Steps along an axis, between points that lie on two sides of the unit
    square. *)
Lemma axis_step_sorted (Good : Z * Z -> Prop) (c : Z) (pts : list (Z * Z)) :
  (forall p q, Good p -> Good q -> axis_parallel p q -> fst p <= fst q ->
               axis_step c p q) ->
  Forall Good pts -> Sorted axis_parallel pts -> Sorted fp_le pts ->
  Sorted (axis_step c) pts.
Proof.
  intros Hstep Hgood Hax Hfp.
  induction pts as [| p pts IH]; [constructor |].
  apply Sorted_inv in Hax. destruct Hax as [Hax Hhd1].
  apply Sorted_inv in Hfp. destruct Hfp as [Hfp Hhd2].
  inversion Hgood as [| ? ? Hp Hgood']; subst.
  constructor; [apply IH; assumption |].
  destruct pts as [| q pts]; constructor.
  apply HdRel_inv in Hhd1. apply HdRel_inv in Hhd2.
  inversion Hgood' as [| ? ? Hq _]; subst.
  apply Hstep; assumption.
Qed.

(** ** From the integer counts to the rates *)

Lemma inject_Z_nonzero n : 0 < n -> ~ (inject_Z n == 0)%Q.
Proof.
  intros Hn H. change 0%Q with (inject_Z 0) in H.
  apply (proj1 (inject_Z_injective n 0)) in H. lia.
Qed.

Lemma fdiv_zero n : fdiv (inject_Z 0) (inject_Z n) = 0%Q.
Proof.
  unfold fdiv. apply round64_zero.
  unfold Qdiv. change (inject_Z 0) with 0%Q. ring.
Qed.

Lemma round64_one : round64 1 = 1%Q.
Proof. vm_compute. reflexivity. Qed.

Lemma fdiv_self n : 0 < n -> fdiv (inject_Z n) (inject_Z n) = 1%Q.
Proof.
  intros Hn. unfold fdiv. rewrite <- round64_one.
  apply round64_proper. field. apply inject_Z_nonzero. exact Hn.
Qed.

Lemma Qdiv_inject_nonneg a n :
  0 <= a -> 0 < n -> (0 <= inject_Z a / inject_Z n)%Q.
Proof.
  intros Ha Hn. unfold Qdiv. apply Qmult_le_0_compat.
  - change 0%Q with (inject_Z 0). rewrite <- Zle_Qle. exact Ha.
  - apply Qinv_le_0_compat. change 0%Q with (inject_Z 0).
    rewrite <- Zle_Qle. lia.
Qed.

Lemma fdiv_nonneg a n :
  0 <= a -> 0 < n -> (0 <= fdiv (inject_Z a) (inject_Z n))%Q.
Proof.
  intros Ha Hn. unfold fdiv. apply round64_nonneg.
  apply Qdiv_inject_nonneg; assumption.
Qed.

Lemma fdiv_mono a b n :
  0 <= a -> a <= b -> 0 < n ->
  (fdiv (inject_Z a) (inject_Z n) <= fdiv (inject_Z b) (inject_Z n))%Q.
Proof.
  intros Ha Hab Hn. unfold fdiv. apply round64_mono.
  - apply Qdiv_inject_nonneg; assumption.
  - unfold Qdiv. apply Qmult_le_compat_r.
    + rewrite <- Zle_Qle. exact Hab.
    + apply Qinv_le_0_compat. change 0%Q with (inject_Z 0).
      rewrite <- Zle_Qle. lia.
Qed.

Lemma normalize_x_sorted n p pts :
  0 < n -> Forall (fun q => 0 <= fst q) pts -> Sorted fp_le pts ->
  Sorted x_le (map (normalize n p) pts).
Proof.
  intros Hn Hall Hs. induction pts as [| a pts IH]; [constructor |].
  apply Sorted_inv in Hs. destruct Hs as [Hs Hhd].
  inversion Hall as [| ? ? Ha Hall']; subst.
  cbn [map]. constructor; [apply IH; assumption |].
  destruct pts as [| b pts]; constructor.
  apply HdRel_inv in Hhd. unfold fp_le in Hhd.
  unfold x_le, normalize. cbn [fst].
  apply fdiv_mono; assumption.
Qed.

Lemma normalize_unit_y n p pts :
  0 < p -> Forall (fun q => 0 <= snd q <= p) pts ->
  Forall unit_y (map (normalize n p) pts).
Proof.
  intros Hp Hall. induction Hall as [| a pts [Ha1 Ha2] _ IH]; [constructor |].
  cbn [map]. constructor; [| exact IH].
  unfold unit_y, normalize. cbn [snd]. split.
  - apply fdiv_nonneg; assumption.
  - rewrite <- (fdiv_self p Hp). apply fdiv_mono; assumption.
Qed.

(** ** The trapezoid sum *)

Lemma diff_cons2 a b t :
  np.diff (a :: b :: t) = fsub b a :: np.diff (b :: t).
Proof. reflexivity. Qed.

Lemma diff_nonneg F :
  Sorted x_le F -> Forall (fun d => (0 <= d)%Q) (np.diff (map fst F)).
Proof.
  induction F as [| a F IH]; intros Hs; [constructor |].
  apply Sorted_inv in Hs. destruct Hs as [Hs Hhd].
  destruct F as [| b F]; [constructor |].
  cbn [map]. rewrite diff_cons2. constructor.
  - apply HdRel_inv in Hhd. unfold x_le in Hhd.
    unfold fsub. apply round64_nonneg. lra.
  - apply (IH Hs).
Qed.

Lemma auc_increasing pts :
  (2 <= length pts)%nat ->
  Forall (fun d => (0 <= d)%Q) (np.diff (map fst pts)) ->
  metrics.auc pts = Ok (np.trapz pts).
Proof.
  intros Hlen Hall. unfold metrics.auc.
  destruct (length pts <? 2)%nat eqn:E.
  - apply Nat.ltb_lt in E. lia.
  - destruct (existsb (fun d => negb (Qle_bool 0 d))
                      (np.diff (map fst pts))) eqn:Ex; [| reflexivity].
    apply existsb_exists in Ex. destruct Ex as [d [Hd Hneg]].
    rewrite Forall_forall in Hall. specialize (Hall d Hd).
    apply Qle_bool_iff in Hall. rewrite Hall in Hneg. discriminate.
Qed.

Lemma trapz_terms_cons2 p q t :
  np.trapz_terms (p :: q :: t) =
  fdiv (fmul (fsub (fst q) (fst p)) (fadd (snd q) (snd p))) 2
  :: np.trapz_terms (q :: t).
Proof. reflexivity. Qed.

Lemma exact_terms_cons2 p q t :
  exact_terms (p :: q :: t) =
  ((fst q - fst p) * (snd q + snd p) / 2)%Q :: exact_terms (q :: t).
Proof. reflexivity. Qed.

Lemma trapz_terms_length F :
  length (np.trapz_terms F) = pred (length F).
Proof.
  induction F as [| p F IH]; [reflexivity |].
  destruct F as [| q F]; [reflexivity |].
  rewrite trapz_terms_cons2. cbn [length] in *. rewrite IH. reflexivity.
Qed.

Lemma within_mult k k' a b v w :
  (0 <= a)%Q -> (0 <= b)%Q ->
  within k a v -> within k' b w -> within (k + k') (a * b) (v * w).
Proof.
  intros Ha Hb [H1 H2] [H3 H4]. destruct lo_bounds as [Hl0 _].
  pose proof (qpow_pos (1 - u64) k Hl0) as P1.
  pose proof (qpow_pos (1 - u64) k' Hl0) as P2.
  split; rewrite qpow_add.
  - setoid_replace (qpow (1 - u64) k * qpow (1 - u64) k' * (a * b))%Q
      with ((qpow (1 - u64) k * a) * (qpow (1 - u64) k' * b))%Q by ring.
    apply Qmult_le_compat_nonneg; split; try assumption;
      apply Qmult_le_0_compat; try assumption; apply Qlt_le_weak; assumption.
  - setoid_replace (qpow (1 + u64) k * qpow (1 + u64) k' * (a * b))%Q
      with ((qpow (1 + u64) k * a) * (qpow (1 + u64) k' * b))%Q by ring.
    apply Qmult_le_compat_nonneg; split; try assumption.
    + eapply Qle_trans; [| exact H1].
      apply Qmult_le_0_compat; [apply Qlt_le_weak; assumption | exact Ha].
    + eapply Qle_trans; [| exact H3].
      apply Qmult_le_0_compat; [apply Qlt_le_weak; assumption | exact Hb].
Qed.

Lemma within_half k a v : within k a v -> within k (a / 2) (v / 2).
Proof.
  intros [H1 H2]. split.
  - setoid_replace (qpow (1 - u64) k * (a / 2))%Q
      with ((qpow (1 - u64) k * a) / 2)%Q by field.
    unfold Qdiv. apply Qmult_le_compat_r; [exact H1 | discriminate].
  - setoid_replace (qpow (1 + u64) k * (a / 2))%Q
      with ((qpow (1 + u64) k * a) / 2)%Q by field.
    unfold Qdiv. apply Qmult_le_compat_r; [exact H2 | discriminate].
Qed.

(** One term of the trapezoid sum is rounded four times. *)
Lemma term_within x x' y y' :
  (x <= x')%Q -> (0 <= y)%Q -> (0 <= y')%Q ->
  (0 <= (x' - x) * (y' + y) / 2)%Q
  /\ within 4 ((x' - x) * (y' + y) / 2)
            (fdiv (fmul (fsub x' x) (fadd y' y)) 2).
Proof.
  intros Hx Hy Hy'.
  assert (Hd : (0 <= x' - x)%Q) by lra.
  assert (Hs : (0 <= y' + y)%Q) by lra.
  assert (Hp : (0 <= (x' - x) * (y' + y))%Q)
    by (apply Qmult_le_0_compat; assumption).
  assert (He : (0 <= (x' - x) * (y' + y) / 2)%Q).
  { unfold Qdiv. apply Qmult_le_0_compat; [exact Hp | discriminate]. }
  split; [exact He |].
  pose proof (within_round _ Hd) as W1.
  pose proof (within_round _ Hs) as W2.
  pose proof (within_mult 1 1 _ _ _ _ Hd Hs W1 W2) as W3.
  fold (fsub x' x) in W3. fold (fadd y' y) in W3.
  pose proof (within_nonneg _ _ _ Hp W3) as Hm.
  pose proof (within_trans _ _ _ _ _ W3 (within_round _ Hm)) as W4.
  fold (fmul (fsub x' x) (fadd y' y)) in W4.
  pose proof (within_half _ _ _ W4) as W5.
  pose proof (within_nonneg _ _ _ He W5) as Hh.
  exact (within_trans _ _ _ _ _ W5 (within_round _ Hh)).
Qed.

Lemma terms_within F :
  Sorted x_le F -> Forall unit_y F ->
  nonneg (exact_terms F)
  /\ Forall2 (within 4) (exact_terms F) (np.trapz_terms F).
Proof.
  induction F as [| p F IH]; intros Hs Hy; [split; constructor |].
  apply Sorted_inv in Hs. destruct Hs as [Hs Hhd].
  inversion Hy as [| ? ? [Hp _] Hy']; subst.
  destruct F as [| q F]; [split; constructor |].
  apply HdRel_inv in Hhd. unfold x_le in Hhd.
  inversion Hy' as [| ? ? [Hq _] _]; subst.
  rewrite exact_terms_cons2, trapz_terms_cons2.
  destruct (IH Hs Hy') as [I1 I2].
  destruct (term_within (fst p) (fst q) (snd p) (snd q) Hhd Hp Hq)
    as [T1 T2].
  split; constructor; assumption.
Qed.

Lemma Qsum_within k es ts :
  Forall2 (within k) es ts -> within k (Qsum es) (Qsum ts).
Proof.
  induction 1 as [| e t es ts H _ IH]; cbn [Qsum].
  - unfold within. rewrite !Qmult_0_r. split; apply Qle_refl.
  - apply within_plus; assumption.
Qed.

Lemma Forall2_within_nonneg k es ts :
  Forall2 (within k) es ts -> nonneg es -> nonneg ts.
Proof.
  induction 1 as [| e t es ts H _ IH]; intros Hes; [constructor |].
  inversion Hes as [| ? ? He Hes']; subst.
  constructor; [exact (within_nonneg _ _ _ He H) | exact (IH Hes')].
Qed.

(** The sum that [np.trapz] returns against the exact area under the
    same points. *)
Lemma trapz_within F :
  Sorted x_le F -> Forall unit_y F ->
  (0 <= Qsum (exact_terms F))%Q
  /\ within (length (np.trapz_terms F) + 5)
            (Qsum (exact_terms F)) (np.trapz F).
Proof.
  intros Hs Hy. destruct (terms_within F Hs Hy) as [Hes H4].
  pose proof (Forall2_within_nonneg _ _ _ H4 Hes) as Hts.
  pose proof (Qsum_nonneg _ Hes) as HE.
  split; [exact HE |].
  pose proof (Qsum_within _ _ _ H4) as W1.
  pose proof (pairwise_sum_within _ Hts) as W2.
  pose proof (within_trans _ _ _ _ _ W1 W2) as W3.
  pose proof (within_nonneg _ _ _ HE W3) as Hpw.
  assert (W4 : within 1 (np.pairwise_sum (np.trapz_terms F))
                      (np.trapz F)).
  { unfold np.trapz, np.sum, fadd.
    apply (within_proper _ (0 + np.pairwise_sum (np.trapz_terms F))%Q);
      [ring |].
    apply within_round. lra. }
  pose proof (within_trans _ _ _ _ _ W3 W4) as W5.
  replace (length (np.trapz_terms F) + 5)%nat
    with (4 + length (np.trapz_terms F) + 1)%nat by lia.
  exact W5.
Qed.

(** The exact area is at most the width of the curve: no rate exceeds 1. *)
Lemma exact_terms_le F :
  Sorted x_le F -> Forall unit_y F ->
  forall d, (Qsum (exact_terms F) <= fst (last F d) - fst (hd d F))%Q.
Proof.
  induction F as [| p F IH]; intros Hs Hy d.
  - simpl. lra.
  - apply Sorted_inv in Hs. destruct Hs as [Hs Hhd].
    inversion Hy as [| ? ? [Hp0 Hp1] Hy']; subst.
    destruct F as [| q F]; [simpl; lra |].
    apply HdRel_inv in Hhd. unfold x_le in Hhd.
    inversion Hy' as [| ? ? [Hq0 Hq1] _]; subst.
    rewrite exact_terms_cons2. cbn [Qsum].
    change (last (p :: q :: F) d) with (last (q :: F) d).
    specialize (IH Hs Hy' d). cbn [hd] in *.
    assert (H : ((fst q - fst p) * (snd q + snd p) / 2 <= fst q - fst p)%Q).
    { assert (H2 : ((fst q - fst p) * (snd q + snd p)
                    <= (fst q - fst p) * 2)%Q).
      { rewrite !(Qmult_comm (fst q - fst p)).
        apply Qmult_le_compat_r; lra. }
      apply Qle_shift_div_r; [reflexivity | exact H2]. }
    lra.
Qed.

(** ** The points of the ROC curve *)

Lemma combine_fst_snd (l : list example) :
  combine (map fst l) (map snd l) = l.
Proof.
  induction l as [| [b s] l IH]; simpl; [reflexivity | rewrite IH; reflexivity].
Qed.

Lemma map_fst_combine (y_true : list bool) : forall (y_score : list Q),
  length y_true = length y_score ->
  map fst (combine y_true y_score) = y_true /\
  map snd (combine y_true y_score) = y_score.
Proof.
  induction y_true as [| y yt IH]; intros [| s ys] Hlen;
    simpl in Hlen; try discriminate; [split; reflexivity |].
  destruct (IH ys (eq_add_S _ _ Hlen)) as [H1 H2].
  simpl. rewrite H1, H2. split; reflexivity.
Qed.

Lemma binary_clf_curve_examples (l : list example) :
  metrics._binary_clf_curve (map fst l) (map snd l) = curve_of l.
Proof.
  unfold metrics._binary_clf_curve, metrics.sort_desc, curve_of.
  rewrite combine_fst_snd. reflexivity.
Qed.

Section BothClasses.

Variable l : list example.
Hypothesis Hp : 0 < positives l.
Hypothesis Hn : 0 < negatives l.

Lemma curve_of_last :
  curve_of l <> []
  /\ last (curve_of l) (0, 0) = (negatives l, positives l).
Proof.
  pose proof (sorted_perm l) as Hperm.
  assert (Hne : rev (stable_sort score_leb l) <> []).
  { intros Hnil. rewrite Hnil in Hperm.
    apply Permutation_sym, Permutation_nil in Hperm.
    rewrite Hperm in Hp. unfold positives in Hp. simpl in Hp. lia. }
  split.
  - apply clf_curve_from_nonempty. exact Hne.
  - unfold curve_of. rewrite (clf_curve_from_last _ 0 0 (0, 0) Hne).
    rewrite !Z.add_0_l, <- (negatives_perm _ _ Hperm),
      <- (positives_perm _ _ Hperm).
    reflexivity.
Qed.

Lemma curve_of_range :
  Forall (fun q => (0 <= fst q <= negatives l)
                   /\ (0 <= snd q <= positives l)) (curve_of l).
Proof.
  apply Forall_forall. intros q Hq.
  apply curve_of_members in Hq. destruct Hq as [x [_ Hq]]. subst q.
  unfold point_at. cbn [fst snd].
  pose proof (count_ge_nonneg false (snd x) l).
  pose proof (count_ge_nonneg true (snd x) l).
  pose proof (count_ge_le_false (snd x) l).
  pose proof (count_ge_le_true (snd x) l).
  lia.
Qed.

Lemma roc_points_last :
  last (roc_points l) (0, 0) = (negatives l, positives l).
Proof.
  unfold roc_points. destruct curve_of_last as [Hne Hlast].
  destruct (drop_intermediate_last (curve_of l) (0, 0) Hne) as [Hdne Hdlast].
  destruct (metrics.drop_intermediate (curve_of l)) as [| q d] eqn:Ed;
    [congruence |].
  change (last ((0, 0) :: q :: d) (0, 0)) with (last (q :: d) (0, 0)).
  rewrite Hdlast. exact Hlast.
Qed.

Lemma roc_points_range :
  Forall (fun q => (0 <= fst q <= negatives l)
                   /\ (0 <= snd q <= positives l)) (roc_points l).
Proof.
  unfold roc_points. constructor; [cbn [fst snd]; lia |].
  apply Forall_forall. intros q Hq. apply drop_intermediate_In in Hq.
  pose proof curve_of_range as H. rewrite Forall_forall in H. exact (H q Hq).
Qed.

Lemma roc_points_sorted : Sorted fp_le (roc_points l).
Proof.
  unfold roc_points. apply drop_intermediate_sorted; [exact fp_le_trans |].
  apply clf_curve_from_sorted.
Qed.

Lemma roc_points_length :
  (2 <= length (roc_points l))%nat
  /\ (length (roc_points l) <= length l + 1)%nat.
Proof.
  unfold roc_points. destruct curve_of_last as [Hne _].
  destruct (drop_intermediate_last (curve_of l) (0, 0) Hne) as [Hdne _].
  pose proof (drop_intermediate_length (curve_of l)) as H1.
  pose proof (clf_curve_from_length (rev (stable_sort score_leb l)) 0 0) as H2.
  fold (curve_of l) in H2.
  rewrite length_rev in H2.
  rewrite <- (Permutation_length (stable_sort_perm score_leb l)) in H2.
  cbn [length].
  destruct (metrics.drop_intermediate (curve_of l)); [congruence |].
  cbn [length] in *. lia.
Qed.

Lemma roc_curve_points :
  metrics.roc_curve (map fst l) (map snd l) =
  map (normalize (negatives l) (positives l)) (roc_points l).
Proof.
  unfold metrics.roc_curve. rewrite binary_clf_curve_examples.
  fold (roc_points l). rewrite roc_points_last.
  apply map_ext. intros [fp tp]. reflexivity.
Qed.

Lemma roc_curve_x_sorted :
  Sorted x_le (metrics.roc_curve (map fst l) (map snd l)).
Proof.
  rewrite roc_curve_points. apply normalize_x_sorted.
  - exact Hn.
  - eapply Forall_impl; [| exact roc_points_range]. intros q [[H _] _]. exact H.
  - exact roc_points_sorted.
Qed.

Lemma roc_curve_unit_y :
  Forall unit_y (metrics.roc_curve (map fst l) (map snd l)).
Proof.
  rewrite roc_curve_points. apply normalize_unit_y; [exact Hp |].
  eapply Forall_impl; [| exact roc_points_range]. intros q [_ H]. exact H.
Qed.

(** The area check of [auc] passes: the rounded rates are in ascending
    order, because rounding keeps the order. *)
Lemma auc_roc_curve :
  metrics.auc (metrics.roc_curve (map fst l) (map snd l)) = Ok (auc_value l).
Proof.
  apply auc_increasing.
  - rewrite roc_curve_points, length_map. apply roc_points_length.
  - apply diff_nonneg. exact roc_curve_x_sorted.
Qed.

(** The returned area against the exact area under the rounded curve. *)
Lemma auc_value_within :
  (0 <= exact_area l)%Q /\ within (length l + 5) (exact_area l) (auc_value l).
Proof.
  destruct (trapz_within _ roc_curve_x_sorted roc_curve_unit_y) as [HE W].
  split; [exact HE |].
  eapply within_weaken; [exact HE | | exact W].
  rewrite trapz_terms_length, roc_curve_points, length_map.
  pose proof roc_points_length. lia.
Qed.

Lemma roc_curve_ends :
  fst (hd (0%Q, 0%Q) (metrics.roc_curve (map fst l) (map snd l))) = 0%Q
  /\ fst (last (metrics.roc_curve (map fst l) (map snd l)) (0%Q, 0%Q)) = 1%Q.
Proof.
  rewrite roc_curve_points. split.
  - unfold roc_points. cbn [map hd normalize fst]. apply fdiv_zero.
  - pose proof roc_points_last as Hl.
    assert (H : forall pts d,
               pts <> [] ->
               last (map (normalize (negatives l) (positives l)) pts) d =
               normalize (negatives l) (positives l) (last pts (0, 0))).
    { induction pts as [| a pts IH]; intros d Hne; [congruence |].
      destruct pts as [| b pts]; [reflexivity |].
      change (last (a :: b :: pts) (0, 0)) with (last (b :: pts) (0, 0)).
      rewrite <- (IH d) by discriminate. reflexivity. }
    rewrite H by (unfold roc_points; discriminate).
    rewrite Hl. unfold normalize. cbn [fst]. apply fdiv_self. exact Hn.
Qed.

Lemma exact_area_le_1 : (exact_area l <= 1)%Q.
Proof.
  pose proof (exact_terms_le _ roc_curve_x_sorted roc_curve_unit_y
                (0%Q, 0%Q)) as H.
  destruct roc_curve_ends as [H0 H1]. rewrite H0, H1 in H.
  unfold exact_area. lra.
Qed.

(** The area is not negative, and exceeds 1 by the roundings at most. *)
Lemma auc_value_range :
  (0 <= auc_value l)%Q /\ (auc_value l <= rounded_up (length l))%Q.
Proof.
  destruct auc_value_within as [HE [W1 W2]].
  pose proof exact_area_le_1 as H1.
  split.
  - exact (within_nonneg _ _ _ HE (conj W1 W2)).
  - eapply Qle_trans; [exact W2 |]. unfold rounded_up.
    rewrite <- (Qmult_1_r (qpow (1 + u64) (length l + 5))) at 2.
    rewrite !(Qmult_comm (qpow (1 + u64) (length l + 5))).
    apply Qmult_le_compat_r; [exact H1 |].
    apply Qlt_le_weak, qpow_pos.
    eapply Qlt_le_trans; [| apply hi_bounds]. reflexivity.
Qed.

End BothClasses.

(** ** Separated, inverted and constant scores *)

(** Where every step of the curve is vertical or lies at the rate 1 the
    exact area is the width of the curve; where every step is vertical or
    lies at the rate 0 it is 0. *)
Lemma exact_terms_axis_top n p pts :
  0 < p -> Sorted (axis_step p) pts ->
  forall d,
    (Qsum (exact_terms (map (normalize n p) pts)) ==
     fst (last (map (normalize n p) pts) d)
     - fst (hd d (map (normalize n p) pts)))%Q.
Proof.
  intros Hp. induction pts as [| a pts IH]; intros Hs d.
  - simpl. ring.
  - apply Sorted_inv in Hs. destruct Hs as [Hs Hhd].
    destruct pts as [| b pts]; [simpl; ring |].
    apply HdRel_inv in Hhd.
    cbn [map]. rewrite exact_terms_cons2. cbn [Qsum].
    change (normalize n p b :: map (normalize n p) pts)
      with (map (normalize n p) (b :: pts)).
    match goal with
    | |- context [last (?x :: map ?f (b :: pts)) d] =>
        change (last (x :: map f (b :: pts)) d)
          with (last (map f (b :: pts)) d)
    end.
    rewrite (IH Hs d). cbn [hd map].
    destruct Hhd as [E | [E1 E2]].
    + unfold normalize. cbn [fst snd]. rewrite E. field.
    + unfold normalize. cbn [fst snd]. rewrite E1, E2, (fdiv_self p Hp).
      field.
Qed.

Lemma exact_terms_axis_bottom n p pts :
  Sorted (axis_step 0) pts ->
  (Qsum (exact_terms (map (normalize n p) pts)) == 0)%Q.
Proof.
  induction pts as [| a pts IH]; intros Hs; [reflexivity |].
  apply Sorted_inv in Hs. destruct Hs as [Hs Hhd].
  destruct pts as [| b pts]; [reflexivity |].
  apply HdRel_inv in Hhd.
  cbn [map]. rewrite exact_terms_cons2. cbn [Qsum].
  change (normalize n p b :: map (normalize n p) pts)
    with (map (normalize n p) (b :: pts)).
  rewrite (IH Hs).
  destruct Hhd as [E | [E1 E2]].
  - unfold normalize. cbn [fst snd]. rewrite E. field.
  - unfold normalize. cbn [fst snd]. rewrite E1, E2, (fdiv_zero p). field.
Qed.

Lemma separated_no_cross_tie l : separated l -> no_cross_tie l.
Proof.
  intros H u v Hu Hv Eu Ev E.
  pose proof (H u v Hu Hv Eu Ev) as Hlt. rewrite E in Hlt.
  exact (Qlt_irrefl _ Hlt).
Qed.

Lemma inverted_no_cross_tie l : inverted l -> no_cross_tie l.
Proof.
  intros H u v Hu Hv Eu Ev E.
  pose proof (H u v Hu Hv Eu Ev) as Hlt. rewrite E in Hlt.
  exact (Qlt_irrefl _ Hlt).
Qed.

Lemma round64_canonical (z : Q) : Qred (round64 z) = round64 z.
Proof.
  unfold round64. destruct (z ?= 0)%Q; [reflexivity | |];
    apply Qred_complete, Qred_correct.
Qed.

Lemma round64_eq (z q : Q) : (round64 z == q)%Q -> round64 z = Qred q.
Proof.
  intros H. rewrite <- round64_canonical. apply Qred_complete. exact H.
Qed.

Section Separators.

Variable l : list example.
Hypothesis Hp : 0 < positives l.
Hypothesis Hn : 0 < negatives l.

Lemma roc_points_axis (c : Z) (Good : Z * Z -> Prop) :
  no_cross_tie l ->
  Good (0, 0) ->
  (forall x, In x l -> Good (point_at l (snd x))) ->
  (forall p q, Good p -> Good q -> axis_parallel p q -> fst p <= fst q ->
               axis_step c p q) ->
  Sorted (axis_step c) (roc_points l).
Proof.
  intros Hnt H0 Hgood Hstep. unfold roc_points.
  apply drop_intermediate_axis.
  apply (axis_step_sorted Good c); [exact Hstep | | |].
  - constructor; [exact H0 |].
    apply Forall_forall. intros q Hq.
    apply curve_of_members in Hq. destruct Hq as [x [Hx Hq]]. subst q.
    apply Hgood. exact Hx.
  - apply curve_of_axis_parallel. exact Hnt.
  - apply clf_curve_from_sorted.
Qed.

Lemma roc_points_separated :
  separated l -> Sorted (axis_step (positives l)) (roc_points l).
Proof.
  intros Hsep.
  apply (roc_points_axis (positives l)
           (fun z => 0 <= fst z /\ (fst z = 0 \/ snd z = positives l))).
  - apply separated_no_cross_tie. exact Hsep.
  - cbn [fst snd]. lia.
  - intros x Hx. unfold point_at. cbn [fst snd].
    split; [apply count_ge_nonneg |].
    destruct (fst x) eqn:Ex.
    + left. apply count_ge_above. intros y Hy Ey.
      apply (Hsep x y); assumption.
    + right. apply count_ge_below_true. intros y Hy Ey.
      apply Qlt_le_weak. apply (Hsep y x); assumption.
  - intros p q [Hp0 Hgp] [_ Hgq] [E | E] Hle; [left; exact E |].
    unfold axis_step.
    destruct (Z.eq_dec (fst p) (fst q)) as [E' | E']; [left; exact E' |].
    right. destruct Hgq as [Hq | Hq]; [lia |].
    split; [rewrite E; exact Hq | exact Hq].
Qed.

Lemma roc_points_inverted :
  inverted l -> Sorted (axis_step 0) (roc_points l).
Proof.
  intros Hinv.
  apply (roc_points_axis 0
           (fun z => fst z <= negatives l
                     /\ (snd z = 0 \/ fst z = negatives l))).
  - apply inverted_no_cross_tie. exact Hinv.
  - cbn [fst snd]. lia.
  - intros x Hx. unfold point_at. cbn [fst snd].
    split; [apply count_ge_le_false |].
    destruct (fst x) eqn:Ex.
    + right. apply count_ge_below_false. intros y Hy Ey.
      apply Qlt_le_weak. apply (Hinv x y); assumption.
    + left. apply count_ge_above. intros y Hy Ey.
      apply (Hinv y x); assumption.
  - intros p q [Hp0 Hgp] [Hq0 Hgq] [E | E] Hle; [left; exact E |].
    unfold axis_step.
    destruct (Z.eq_dec (fst p) (fst q)) as [E' | E']; [left; exact E' |].
    right. destruct Hgp as [Hp1 | Hp1]; [| lia].
    split; [exact Hp1 | rewrite <- E; exact Hp1].
Qed.

Lemma exact_area_separated : separated l -> (exact_area l == 1)%Q.
Proof.
  intros Hsep. unfold exact_area.
  destruct (roc_curve_ends l Hp Hn) as [H0 H1].
  rewrite (roc_curve_points l Hp) in *.
  rewrite (exact_terms_axis_top _ _ _ Hp (roc_points_separated Hsep)
             (0%Q, 0%Q)).
  rewrite H0, H1. reflexivity.
Qed.

Lemma exact_area_inverted : inverted l -> (exact_area l == 0)%Q.
Proof.
  intros Hinv. unfold exact_area.
  rewrite (roc_curve_points l Hp).
  apply exact_terms_axis_bottom. apply roc_points_inverted. exact Hinv.
Qed.

(** On separated scores the area is 1 up to the roundings. *)
Lemma auc_value_separated :
  separated l ->
  (rounded_down (length l) <= auc_value l)%Q
  /\ (auc_value l <= rounded_up (length l))%Q.
Proof.
  intros Hsep. destruct (auc_value_within l Hp Hn) as [_ W].
  apply (within_proper _ _ 1%Q) in W; [| apply exact_area_separated, Hsep].
  destruct W as [W1 W2]. rewrite Qmult_1_r in W1, W2.
  split; assumption.
Qed.

(** On inverted scores every term of the sum is 0, and so is the sum. *)
Lemma auc_value_inverted : inverted l -> auc_value l = 0%Q.
Proof.
  intros Hinv. destruct (auc_value_within l Hp Hn) as [_ W].
  apply (within_proper _ _ 0%Q) in W; [| apply exact_area_inverted, Hinv].
  apply within_zero in W.
  unfold auc_value, np.trapz, np.sum, fadd in *.
  rewrite (round64_eq _ _ W). reflexivity.
Qed.

Lemma curve_of_constant :
  constant_score l -> curve_of l = [(negatives l, positives l)].
Proof.
  intros Hc.
  apply (strongly_sorted_unique count_lt count_lt_irrefl count_lt_trans);
    [apply curve_of_sorted | repeat constructor |].
  assert (Hpt : forall x, In x l ->
              point_at l (snd x) = (negatives l, positives l)).
  { intros x Hx. unfold point_at. f_equal.
    - apply count_ge_below_false. intros y Hy _.
      rewrite (Hc x y Hx Hy). apply Qle_refl.
    - apply count_ge_below_true. intros y Hy _.
      rewrite (Hc x y Hx Hy). apply Qle_refl. }
  intros q. rewrite curve_of_members. split.
  - intros [x [Hx Hq]]. left. rewrite Hq. symmetry. apply Hpt. exact Hx.
  - intros [Hq | []].
    destruct l as [| x l'] eqn:El.
    + unfold positives in Hp. simpl in Hp. lia.
    + exists x. split; [left; reflexivity |].
      rewrite <- Hq. symmetry. apply Hpt. left. reflexivity.
Qed.

(** On a constant score the curve is the diagonal, and the sum has the
    one term 1/2. *)
Lemma auc_value_constant : constant_score l -> auc_value l = (1 # 2)%Q.
Proof.
  intros Hc. unfold auc_value.
  rewrite (roc_curve_points l Hp). unfold roc_points.
  rewrite (curve_of_constant Hc).
  cbn [metrics.drop_intermediate metrics.drop_from map].
  unfold normalize. cbn [fst snd].
  rewrite !fdiv_zero, (fdiv_self _ Hp), (fdiv_self _ Hn).
  vm_compute. reflexivity.
Qed.

End Separators.

(** ** What [roc_auc_score] returns *)

Lemma positives_combine y_true : forall y_score,
  length y_true = length y_score ->
  existsb (fun y => y) y_true = true ->
  0 < positives (combine y_true y_score).
Proof.
  induction y_true as [| y yt IH]; intros [| s ys] Hlen Hex;
    simpl in Hlen, Hex; try discriminate.
  cbn [combine]. unfold positives. rewrite sumZ_cons. cbn [fst].
  pose proof (positives_nonneg (combine yt ys)) as Hnn. unfold positives in Hnn.
  destruct y; [lia |].
  simpl in Hex. specialize (IH ys (eq_add_S _ _ Hlen) Hex).
  unfold positives in IH. lia.
Qed.

Lemma negatives_combine y_true : forall y_score,
  length y_true = length y_score ->
  existsb negb y_true = true ->
  0 < negatives (combine y_true y_score).
Proof.
  induction y_true as [| y yt IH]; intros [| s ys] Hlen Hex;
    simpl in Hlen, Hex; try discriminate.
  cbn [combine]. unfold negatives. rewrite sumZ_cons. cbn [fst].
  pose proof (negatives_nonneg (combine yt ys)) as Hnn. unfold negatives in Hnn.
  destruct y; [| lia].
  simpl in Hex. specialize (IH ys (eq_add_S _ _ Hlen) Hex).
  unfold negatives in IH. lia.
Qed.

Lemma roc_auc_score_value y_true y_score :
  length y_true = length y_score ->
  existsb (fun y => y) y_true = true ->
  existsb negb y_true = true ->
  metrics.roc_auc_score y_true y_score =
  Ok (auc_value (combine y_true y_score)).
Proof.
  intros Hlen Hpos Hneg.
  pose proof (positives_combine y_true y_score Hlen Hpos) as Hp.
  pose proof (negatives_combine y_true y_score Hlen Hneg) as Hn.
  destruct (map_fst_combine y_true y_score Hlen) as [Hfst Hsnd].
  set (l := combine y_true y_score) in *.
  unfold metrics.roc_auc_score.
  rewrite Hlen, Nat.eqb_refl, orb_diag. cbn [negb].
  destruct (length y_score =? 0)%nat eqn:E0.
  { apply Nat.eqb_eq in E0. rewrite E0 in Hlen.
    destruct y_true; [discriminate Hpos | discriminate Hlen]. }
  rewrite Hpos, Hneg. cbn [andb negb].
  rewrite <- Hfst, <- Hsnd. apply auc_roc_curve; assumption.
Qed.

Lemma roc_auc_score_undefined y_true y_score :
  existsb (fun y => y) y_true && existsb negb y_true = false ->
  metrics.roc_auc_score y_true y_score = Raise ValueError.
Proof.
  intros H. unfold metrics.roc_auc_score.
  destruct ((length y_true =? 0)%nat || (length y_score =? 0)%nat);
    [reflexivity |].
  rewrite H. reflexivity.
Qed.

Lemma roc_auc_score_mismatch y_true y_score :
  length y_true <> length y_score ->
  metrics.roc_auc_score y_true y_score = Raise ValueError.
Proof.
  intros H. unfold metrics.roc_auc_score.
  apply Nat.eqb_neq in H. rewrite H.
  destruct ((length y_true =? 0)%nat || (length y_score =? 0)%nat);
    [reflexivity |].
  destruct (negb (existsb (fun y => y) y_true && existsb negb y_true));
    reflexivity.
Qed.

(** ** [compute_auc] *)

Lemma existsb_positives l :
  existsb (fun y => y) (map fst l) = (0 <? positives l).
Proof.
  induction l as [| [b s] l IH]; [reflexivity |].
  cbn [map existsb fst]. rewrite IH. unfold positives. rewrite sumZ_cons.
  cbn [fst]. pose proof (positives_nonneg l) as H. unfold positives in H.
  destruct b; cbn [orb].
  - symmetry. apply Z.ltb_lt. lia.
  - reflexivity.
Qed.

Lemma existsb_negatives l :
  existsb negb (map fst l) = (0 <? negatives l).
Proof.
  induction l as [| [b s] l IH]; [reflexivity |].
  cbn [map existsb fst]. rewrite IH. unfold negatives. rewrite sumZ_cons.
  cbn [fst]. pose proof (negatives_nonneg l) as H. unfold negatives in H.
  destruct b; cbn [orb negb].
  - reflexivity.
  - symmetry. apply Z.ltb_lt. lia.
Qed.

Lemma compute_auc_examples (l : list example) :
  compute_auc (map fst l) (map snd l) = Ok (auc_of l).
Proof.
  unfold compute_auc, auc_of.
  rewrite <- existsb_positives, <- existsb_negatives.
  destruct (existsb (fun y => y) (map fst l) && existsb negb (map fst l))
    eqn:E.
  - apply andb_true_iff in E. destruct E as [Ep En].
    rewrite roc_auc_score_value, combine_fst_snd;
      [reflexivity | rewrite !length_map; reflexivity | exact Ep | exact En].
  - rewrite roc_auc_score_undefined by exact E. reflexivity.
Qed.

Lemma compute_auc_same_length y_true y_pred :
  length y_true = length y_pred ->
  compute_auc y_true y_pred = Ok (auc_of (combine y_true y_pred)).
Proof.
  intros Hlen. destruct (map_fst_combine y_true y_pred Hlen) as [H1 H2].
  pose proof (compute_auc_examples (combine y_true y_pred)) as H.
  rewrite H1, H2 in H. exact H.
Qed.

(** [compute_auc] returns on every input: the only exception of
    [roc_auc_score] is the one it catches. *)
Lemma compute_auc_returns y_true y_pred :
  exists v, compute_auc y_true y_pred = Ok v.
Proof.
  destruct (Nat.eq_dec (length y_true) (length y_pred)) as [Hlen | Hlen].
  - eexists. apply compute_auc_same_length. exact Hlen.
  - exists NaN. unfold compute_auc.
    rewrite roc_auc_score_mismatch by exact Hlen. reflexivity.
Qed.

(** The area depends on the curve only, and so on the multiset of the
    examples only. *)
Lemma auc_value_curve (l l' : list example) :
  curve_of l = curve_of l' -> auc_value l = auc_value l'.
Proof.
  intros H. unfold auc_value, metrics.roc_curve.
  rewrite !binary_clf_curve_examples, H. reflexivity.
Qed.

Lemma auc_value_perm l l' : Permutation l l' -> auc_value l = auc_value l'.
Proof. intros H. apply auc_value_curve, curve_of_perm, H. Qed.

Lemma auc_of_perm l l' : Permutation l l' -> auc_of l = auc_of l'.
Proof.
  intros H. unfold auc_of.
  rewrite (auc_value_perm l l' H), (negatives_perm l l' H),
    (positives_perm l l' H).
  reflexivity.
Qed.

Lemma existsb_id_In (l : list bool) :
  existsb (fun y => y) l = true <-> In true l.
Proof.
  rewrite existsb_exists. split.
  - intros [y [Hy Ht]]. subst y. exact Hy.
  - intros H. exists true. split; [exact H | reflexivity].
Qed.

Lemma existsb_negb_In (l : list bool) :
  existsb negb l = true <-> In false l.
Proof.
  rewrite existsb_exists. split.
  - intros [y [Hy Ht]]. destruct y; [discriminate | exact Hy].
  - intros H. exists false. split; [exact H | reflexivity].
Qed.

Lemma positives_In l : In true (map fst l) <-> 0 < positives l.
Proof.
  rewrite <- existsb_id_In, existsb_positives. apply Z.ltb_lt.
Qed.

Lemma negatives_In l : In false (map fst l) <-> 0 < negatives l.
Proof.
  rewrite <- existsb_negb_In, existsb_negatives. apply Z.ltb_lt.
Qed.

Lemma auc_of_both l :
  0 < positives l -> 0 < negatives l -> auc_of l = Num (auc_value l).
Proof.
  intros Hp Hn. unfold auc_of.
  apply Z.ltb_lt in Hp, Hn. rewrite Hp, Hn. reflexivity.
Qed.

Lemma auc_of_one_class l :
  positives l = 0 \/ negatives l = 0 -> auc_of l = NaN.
Proof.
  intros [H | H]; unfold auc_of; rewrite H.
  - reflexivity.
  - rewrite andb_false_r. reflexivity.
Qed.

(** ** The frame functions of the cell *)

Lemma compute_auc_frame (df : DataFrame) (label model_name : string) :
  compute_auc (bools df label) (floats df model_name) =
  Ok (auc_of (examples_of df label model_name)).
Proof.
  unfold bools, floats.
  rewrite <- (compute_auc_examples (examples_of df label model_name)).
  unfold examples_of. rewrite !map_map. reflexivity.
Qed.

Lemma compute_subgroup_auc_value df sg label model_name :
  compute_subgroup_auc df sg label model_name =
  Ok (auc_of (examples_of (select df (fun r => bcol r sg)) label model_name)).
Proof. unfold compute_subgroup_auc. apply compute_auc_frame. Qed.

Lemma filter_disjoint_app_perm {A : Type} (p q : A -> bool) (l : list A) :
  (forall x, p x = true -> q x = false) ->
  Permutation (filter p l ++ filter q l) (filter (fun x => p x || q x) l).
Proof.
  intros Hpq. induction l as [| a l IH]; [constructor |].
  cbn [filter]. destruct (p a) eqn:Ep.
  - rewrite (Hpq a Ep). cbn [orb app]. constructor. exact IH.
  - cbn [orb]. destruct (q a).
    + apply Permutation_sym, Permutation_cons_app, Permutation_sym. exact IH.
    + exact IH.
Qed.

Lemma examples_of_perm df df' label model_name :
  Permutation df df' ->
  Permutation (examples_of df label model_name)
              (examples_of df' label model_name).
Proof. apply Permutation_map. Qed.

Lemma bpsn_examples_perm (df : DataFrame) (sg label : string) :
  Permutation
    (select df (fun r => bcol r sg && negb (bcol r label))
     ++ select df (fun r => negb (bcol r sg) && bcol r label))
    (select df (bpsn_member sg label)).
Proof.
  unfold select, bpsn_member. apply filter_disjoint_app_perm.
  intros r H. apply andb_true_iff in H. destruct H as [H _].
  rewrite H. reflexivity.
Qed.

Lemma bnsp_examples_perm (df : DataFrame) (sg label : string) :
  Permutation
    (select df (fun r => bcol r sg && bcol r label)
     ++ select df (fun r => negb (bcol r sg) && negb (bcol r label)))
    (select df (bnsp_member sg label)).
Proof.
  unfold select, bnsp_member. apply filter_disjoint_app_perm.
  intros r H. apply andb_true_iff in H. destruct H as [H _].
  rewrite H. reflexivity.
Qed.

Lemma compute_bpsn_auc_value df sg label model_name :
  compute_background_positive_subgroup_negative_auc df sg label model_name =
  Ok (auc_of (examples_of (select df (bpsn_member sg label))
                          label model_name)).
Proof.
  unfold compute_background_positive_subgroup_negative_auc.
  rewrite compute_auc_frame. f_equal.
  apply auc_of_perm, examples_of_perm, bpsn_examples_perm.
Qed.

Lemma compute_bnsp_auc_value df sg label model_name :
  compute_background_negative_subgroup_positive_auc df sg label model_name =
  Ok (auc_of (examples_of (select df (bnsp_member sg label))
                          label model_name)).
Proof.
  unfold compute_background_negative_subgroup_positive_auc.
  rewrite compute_auc_frame. f_equal.
  apply auc_of_perm, examples_of_perm, bnsp_examples_perm.
Qed.

Lemma subgroup_record_value dataset sg model label_col :
  subgroup_record dataset sg model label_col =
  Ok (record_of dataset model label_col sg).
Proof.
  unfold subgroup_record.
  rewrite compute_subgroup_auc_value, compute_bpsn_auc_value,
    compute_bnsp_auc_value.
  reflexivity.
Qed.

Lemma for_subgroup_value dataset model label_col subgroups :
  forall records,
    for_subgroup dataset subgroups model label_col records =
    Ok (records ++ map (record_of dataset model label_col) subgroups).
Proof.
  induction subgroups as [| sg rest IH]; intros records.
  - simpl. rewrite app_nil_r. reflexivity.
  - cbn [for_subgroup map]. rewrite subgroup_record_value. cbn [bind].
    rewrite IH, <- app_assoc. reflexivity.
Qed.

Lemma compute_bias_metrics_value dataset subgroups model label_col asegs :
  compute_bias_metrics_for_model dataset subgroups model label_col asegs =
  sort_values_subgroup_auc (map (record_of dataset model label_col) subgroups).
Proof.
  unfold compute_bias_metrics_for_model.
  rewrite for_subgroup_value. reflexivity.
Qed.

(** ** The sort of the returned frame *)

Lemma filter_partition_perm {A : Type} (f : A -> bool) (l : list A) :
  Permutation l (filter (fun x => negb (f x)) l ++ filter f l).
Proof.
  induction l as [| a l IH]; [constructor |].
  cbn [filter]. destruct (f a); cbn [negb app].
  - apply Permutation_cons_app. exact IH.
  - constructor. exact IH.
Qed.

Lemma sort_values_returns records :
  records <> [] -> exists out, sort_values_subgroup_auc records = Ok out.
Proof.
  destruct records as [| r rs]; intros H; [congruence |].
  eexists. reflexivity.
Qed.

Lemma sort_values_perm records out :
  sort_values_subgroup_auc records = Ok out -> Permutation records out.
Proof.
  destruct records as [| r rs]; intros H; [discriminate |].
  injection H as H. subst out.
  eapply Permutation_trans; [apply (filter_partition_perm
                                      (fun r => isna (subgroup_auc r))) |].
  apply Permutation_app_tail. apply stable_sort_perm.
Qed.

Lemma record_leb_total (x y : record) :
  record_leb x y = true \/ record_leb y x = true.
Proof.
  unfold record_leb.
  destruct (subgroup_auc x) as [a |], (subgroup_auc y) as [b |];
    simpl; auto.
  rewrite !Qle_bool_iff.
  destruct (Qlt_le_dec b a) as [H | H].
  - right. apply Qlt_le_weak. exact H.
  - left. exact H.
Qed.

Lemma record_leb_trans (x y z : record) :
  record_leb x y = true -> record_leb y z = true -> record_leb x z = true.
Proof.
  unfold record_leb.
  destruct (subgroup_auc x) as [a |], (subgroup_auc y) as [b |],
    (subgroup_auc z) as [c |]; simpl; try congruence.
  rewrite !Qle_bool_iff. apply Qle_trans.
Qed.

Lemma StronglySorted_app {A : Type} (R : A -> A -> Prop) l1 l2 :
  StronglySorted R l1 -> StronglySorted R l2 ->
  (forall x y, In x l1 -> In y l2 -> R x y) ->
  StronglySorted R (l1 ++ l2).
Proof.
  intros H1 H2 H12. induction H1 as [| a l1 Hs IH Hall]; [exact H2 |].
  simpl. constructor.
  - apply IH. intros x y Hx Hy. apply H12; [right; exact Hx | exact Hy].
  - apply Forall_app. split; [exact Hall |].
    apply Forall_forall. intros y Hy. apply H12; [left; reflexivity | exact Hy].
Qed.

Lemma StronglySorted_all {A : Type} (R : A -> A -> Prop) l :
  (forall x y, In x l -> In y l -> R x y) -> StronglySorted R l.
Proof.
  induction l as [| a l IH]; intros H; constructor.
  - apply IH. intros x y Hx Hy. apply H; right; assumption.
  - apply Forall_forall. intros y Hy.
    apply H; [left; reflexivity | right; exact Hy].
Qed.

Lemma sort_values_sorted records out :
  sort_values_subgroup_auc records = Ok out -> StronglySorted auc_le out.
Proof.
  destruct records as [| r rs]; intros H; [discriminate |].
  injection H as H. subst out.
  set (l := r :: rs).
  assert (Hnan : forall y,
             In y (filter (fun r => isna (subgroup_auc r)) l) ->
             subgroup_auc y = NaN).
  { intros y Hy. apply filter_In in Hy. destruct Hy as [_ Hy].
    destruct (subgroup_auc y); [discriminate | reflexivity]. }
  apply StronglySorted_app.
  - apply (stable_sort_sorted record record_leb record_leb_total
             record_leb_trans).
  - apply StronglySorted_all. intros x y _ Hy. unfold auc_le.
    rewrite (Hnan y Hy). destruct (subgroup_auc x); reflexivity.
  - intros x y _ Hy. unfold auc_le.
    rewrite (Hnan y Hy). destruct (subgroup_auc x); reflexivity.
Qed.

Lemma StronglySorted_nth {A : Type} (R : A -> A -> Prop) l :
  StronglySorted R l ->
  forall i j a b,
    (i < j)%nat -> nth_error l i = Some a -> nth_error l j = Some b -> R a b.
Proof.
  induction 1 as [| x l Hs IH Hall]; intros i j a b Hij Hi Hj.
  - destruct i; discriminate.
  - destruct j as [| j]; [lia |]. cbn [nth_error] in Hj.
    destruct i as [| i].
    + cbn [nth_error] in Hi. injection Hi as Hi. subst x.
      rewrite Forall_forall in Hall. apply Hall.
      eapply nth_error_In. exact Hj.
    + cbn [nth_error] in Hi. apply (IH i j); [lia | assumption | assumption].
Qed.

(** ** The returned frame *)

Section ReturnedFrame.

Variables (dataset : DataFrame) (model label_col : string).
Variable include_asegs : bool.

Lemma select_flag_length sg :
  length (select dataset (fun r => bcol r sg)) = count_flagged dataset sg.
Proof.
  unfold select, count_flagged, bools.
  induction dataset as [| r rs IH]; [reflexivity |].
  cbn [filter map count_occ]. destruct (bcol r sg).
  - destruct (bool_dec true true) as [_ | E]; [| congruence].
    cbn [length]. rewrite IH. reflexivity.
  - destruct (bool_dec false true) as [E | _]; [discriminate | exact IH].
Qed.

(** For a list of subgroups that is not empty the call returns, and the
    rows of the returned frame are the records of the subgroups, one for
    each entry of the list. *)
Lemma compute_bias_metrics_rows subgroups :
  subgroups <> [] ->
  exists out,
    compute_bias_metrics_for_model dataset subgroups model label_col
                                 include_asegs =
    Ok out
    /\ Permutation (map (record_of dataset model label_col) subgroups) out.
Proof.
  intros Hne. rewrite compute_bias_metrics_value.
  destruct (sort_values_returns
              (map (record_of dataset model label_col) subgroups))
    as [out Hout].
  - destruct subgroups; [congruence | discriminate].
  - exists out. split; [exact Hout |]. apply sort_values_perm. exact Hout.
Qed.

Lemma compute_bias_metrics_subgroups subgroups out :
  compute_bias_metrics_for_model dataset subgroups model label_col
                                 include_asegs =
  Ok out ->
  Permutation (map subgroup out) subgroups.
Proof.
  rewrite compute_bias_metrics_value. intros H.
  apply sort_values_perm in H. apply Permutation_sym.
  apply (Permutation_map subgroup) in H.
  rewrite map_map in H. cbn [record_of subgroup] in H.
  rewrite map_id in H. exact H.
Qed.

Lemma compute_bias_metrics_row_inv subgroups out r :
  compute_bias_metrics_for_model dataset subgroups model label_col
                                 include_asegs =
  Ok out ->
  In r out ->
  In (subgroup r) subgroups
  /\ r = record_of dataset model label_col (subgroup r).
Proof.
  rewrite compute_bias_metrics_value. intros H Hr.
  apply sort_values_perm in H.
  apply (Permutation_in r (Permutation_sym H)) in Hr.
  apply in_map_iff in Hr. destruct Hr as [sg [Hsg Hin]].
  subst r. split; [exact Hin | reflexivity].
Qed.

Lemma compute_bias_metrics_row_of subgroups out sg :
  compute_bias_metrics_for_model dataset subgroups model label_col
                                 include_asegs =
  Ok out ->
  In sg subgroups ->
  In (record_of dataset model label_col sg) out.
Proof.
  rewrite compute_bias_metrics_value. intros H Hsg.
  apply sort_values_perm in H.
  apply (Permutation_in _ H). apply in_map. exact Hsg.
Qed.

End ReturnedFrame.

Lemma single_label_auc_of (df : DataFrame) (label model_name : string) :
  (forall r1 r2, In r1 df -> In r2 df -> bcol r1 label = bcol r2 label) ->
  auc_of (examples_of df label model_name) = NaN.
Proof.
  intros Hsame. apply auc_of_one_class.
  set (l := examples_of df label model_name).
  pose proof (positives_nonneg l) as Hp.
  pose proof (negatives_nonneg l) as Hn.
  destruct (Z.eq_dec (positives l) 0) as [Ep | Ep]; [left; exact Ep |].
  destruct (Z.eq_dec (negatives l) 0) as [En | En]; [right; exact En |].
  exfalso.
  assert (Ht : In true (map fst l)) by (apply positives_In; lia).
  assert (Hf : In false (map fst l)) by (apply negatives_In; lia).
  subst l. unfold examples_of in Ht, Hf. rewrite map_map in Ht, Hf.
  cbn [fst] in Ht, Hf.
  apply in_map_iff in Ht. destruct Ht as [r1 [E1 H1]].
  apply in_map_iff in Hf. destruct Hf as [r2 [E2 H2]].
  specialize (Hsame r1 r2 H1 H2). congruence.
Qed.

(** ** The rank statistic *)

Lemma sumZ_scale {A : Type} (c : Z) (f : A -> Z) l :
  sumZ (fun a => c * f a) l = c * sumZ f l.
Proof.
  induction l as [| a l IH]; simpl; [ring | rewrite IH; ring].
Qed.

Lemma sumZ_filter {A : Type} (f : A -> Z) (p : A -> bool) l :
  (forall a, In a l -> p a = false -> f a = 0) ->
  sumZ f (filter p l) = sumZ f l.
Proof.
  induction l as [| a l IH]; intros H; [reflexivity |].
  cbn [filter]. rewrite sumZ_cons.
  assert (IH' : sumZ f (filter p l) = sumZ f l)
    by (apply IH; intros b Hb; apply H; right; exact Hb).
  destruct (p a) eqn:E.
  - rewrite sumZ_cons, IH'. reflexivity.
  - rewrite IH', (H a (or_introl eq_refl) E). ring.
Qed.

Lemma sumZ_swap {A B : Type} (f : A -> B -> Z) l1 l2 :
  sumZ (fun x => sumZ (fun y => f x y) l2) l1 =
  sumZ (fun y => sumZ (fun x => f x y) l1) l2.
Proof.
  induction l1 as [| a l1 IH].
  - cbn [sumZ fold_right]. symmetry. apply sumZ_zero.
  - rewrite sumZ_cons, IH.
    rewrite (sumZ_ext (fun y => sumZ (fun x => f x y) (a :: l1))
                      (fun y => f a y + sumZ (fun x => f x y) l1))
      by reflexivity.
    rewrite sumZ_plus. reflexivity.
Qed.

Lemma pair_weight_refl s : pair_weight s s = 1.
Proof.
  unfold pair_weight.
  assert (H : (s ?= s)%Q = Eq) by (apply Qeq_alt; reflexivity).
  rewrite H. reflexivity.
Qed.

Lemma pair_weight_range sp sn : 0 <= pair_weight sp sn <= 2.
Proof. unfold pair_weight. destruct (sp ?= sn)%Q; lia. Qed.

Lemma pair_weight_gt sp sn : (sn < sp)%Q -> pair_weight sp sn = 2.
Proof.
  intros H. unfold pair_weight.
  assert (E : (sp ?= sn)%Q = Gt) by (apply Qgt_alt; exact H).
  rewrite E. reflexivity.
Qed.

Lemma pair_weight_lt sp sn : (sp < sn)%Q -> pair_weight sp sn = 0.
Proof.
  intros H. unfold pair_weight.
  assert (E : (sp ?= sn)%Q = Lt) by (apply Qlt_alt; exact H).
  rewrite E. reflexivity.
Qed.

Lemma pair_weight_eq sp sn : (sp == sn)%Q -> pair_weight sp sn = 1.
Proof.
  intros H. unfold pair_weight.
  assert (E : (sp ?= sn)%Q = Eq) by (apply Qeq_alt; exact H).
  rewrite E. reflexivity.
Qed.

#[local] Instance pair_weight_proper :
  Proper (Qeq ==> Qeq ==> eq) pair_weight.
Proof.
  intros a a' Ha b b' Hb. unfold pair_weight.
  rewrite (Qcompare_comp a a' Ha b b' Hb). reflexivity.
Qed.

Lemma pair_weight_antisym a b : pair_weight a b + pair_weight b a = 2.
Proof.
  unfold pair_weight. rewrite <- (Qcompare_antisym a b).
  destruct (a ?= b)%Q; reflexivity.
Qed.

Lemma pair_weight_opp a b : pair_weight (- a) (- b) = pair_weight b a.
Proof.
  destruct (Qcompare_spec b a) as [H | H | H].
  - rewrite (pair_weight_eq b a H). apply pair_weight_eq.
    rewrite H. reflexivity.
  - rewrite (pair_weight_lt b a H). apply pair_weight_lt.
    apply Qopp_lt_compat. exact H.
  - rewrite (pair_weight_gt b a H). apply pair_weight_gt.
    apply Qopp_lt_compat. exact H.
Qed.

Lemma cross_range x y : 0 <= cross x y <= 2.
Proof.
  unfold cross. pose proof (pair_weight_range (snd x) (snd y)).
  destruct (fst x && negb (fst y)); lia.
Qed.

Lemma cross_self x : cross x x = 0.
Proof. unfold cross. destruct (fst x); reflexivity. Qed.

Lemma concordance2_cons x l :
  concordance2 (x :: l) =
  sumZ (cross x) l + sumZ (fun y => cross y x) l + concordance2 l.
Proof.
  unfold concordance2. rewrite !sumZ_cons, cross_self.
  rewrite (sumZ_ext (fun x0 => sumZ (cross x0) (x :: l))
                    (fun x0 => cross x0 x + sumZ (cross x0) l)) by reflexivity.
  rewrite sumZ_plus. ring.
Qed.

Lemma concordance2_perm l l' :
  Permutation l l' -> concordance2 l = concordance2 l'.
Proof.
  intros H. unfold concordance2.
  rewrite (sumZ_perm _ l l' H).
  apply sumZ_ext. intros x _. apply sumZ_perm. exact H.
Qed.

Lemma concordance2_bounds l :
  0 <= concordance2 l <= 2 * positives l * negatives l.
Proof.
  unfold concordance2. split.
  - rewrite <- (sumZ_zero l) at 1. apply sumZ_le. intros x _.
    rewrite <- (sumZ_zero l) at 1. apply sumZ_le. intros y _.
    apply cross_range.
  - unfold positives.
    replace (2 * sumZ (fun x : example => if fst x then 1 else 0) l * negatives l)
      with (sumZ (fun x : example => (2 * negatives l) * (if fst x then 1 else 0)) l)
      by (rewrite sumZ_scale; ring).
    apply sumZ_le. intros x _.
    replace (2 * negatives l * (if fst x then 1 else 0))
      with (sumZ (fun y : example =>
                    (2 * (if fst x then 1 else 0)) * (if fst y then 0 else 1)) l)
      by (rewrite sumZ_scale; unfold negatives; ring).
    apply sumZ_le. intros y _.
    pose proof (cross_range x y) as Hc. unfold cross in *.
    destruct (fst x), (fst y); simpl in *; lia.
Qed.

Lemma cross_snd_proper b s s' y :
  (s == s')%Q -> cross (b, s) y = cross (b, s') y.
Proof.
  intros H. unfold cross. simpl. rewrite H. reflexivity.
Qed.

Lemma cross_fst_proper b s s' y :
  (s == s')%Q -> cross y (b, s) = cross y (b, s').
Proof.
  intros H. unfold cross. simpl. rewrite H. reflexivity.
Qed.

Lemma sum_cross_into_positive s l :
  sumZ (fun y => cross y (true, s)) l = 0.
Proof.
  rewrite <- (sumZ_zero l). apply sumZ_ext. intros y _.
  unfold cross. simpl. rewrite andb_false_r. reflexivity.
Qed.

Lemma sum_cross_from_negative s l :
  sumZ (cross (false, s)) l = 0.
Proof.
  rewrite <- (sumZ_zero l). apply sumZ_ext. intros y _. reflexivity.
Qed.

(** Against examples that all score strictly lower than [s]. *)
Lemma sum_cross_below_from s l :
  (forall y, In y l -> (snd y < s)%Q) ->
  sumZ (cross (true, s)) l = 2 * negatives l.
Proof.
  intros H. unfold negatives. rewrite <- sumZ_scale.
  apply sumZ_ext. intros y Hy. unfold cross. simpl.
  destruct (fst y); simpl; [reflexivity |].
  rewrite pair_weight_gt by (apply H; exact Hy). reflexivity.
Qed.

Lemma sum_cross_below_into s l :
  (forall y, In y l -> (snd y < s)%Q) ->
  sumZ (fun y => cross y (false, s)) l = 0.
Proof.
  intros H. rewrite <- (sumZ_zero l). apply sumZ_ext. intros y Hy.
  unfold cross. simpl. rewrite andb_true_r.
  destruct (fst y); [| reflexivity].
  apply pair_weight_lt. apply H. exact Hy.
Qed.

Lemma concordance2_cons_positive s l :
  concordance2 ((true, s) :: l) = sumZ (cross (true, s)) l + concordance2 l.
Proof.
  rewrite concordance2_cons, sum_cross_into_positive. ring.
Qed.

Lemma concordance2_cons_negative s l :
  concordance2 ((false, s) :: l) =
  sumZ (fun y => cross y (false, s)) l + concordance2 l.
Proof.
  rewrite concordance2_cons, sum_cross_from_negative. ring.
Qed.

(** The doubled trapezoid sum of the curve, when [a] negative and [b]
    positive examples tied with the head of the list have been counted
    since the last point [(fp0, tp0)]. *)
Lemma curve_area rest : forall x fp0 tp0 a b,
  descending (x :: rest) ->
  trapz2 (fp0, tp0)
         (metrics.clf_curve_from (fp0 + a) (tp0 + b) (x :: rest)) =
  2 * tp0 * (a + negatives (x :: rest)) + a * b
  + a * sumZ (fun y => cross y (false, snd x)) (x :: rest)
  + b * sumZ (cross (true, snd x)) (x :: rest)
  + concordance2 (x :: rest).
Proof.
  induction rest as [| y rest IH]; intros [bx sx] fp0 tp0 a b Hd.
  - unfold concordance2, negatives.
    destruct bx;
      cbn [metrics.clf_curve_from trapz2 sumZ fold_right fst snd cross
           andb negb];
      rewrite ?pair_weight_refl; ring.
  - rewrite clf_curve_from_cons2. cbv zeta. simpl fst. simpl snd.
    apply descending_inv in Hd. destruct Hd as [Hd Hle].
    set (l' := y :: rest) in *.
    assert (Hneg : negatives (@cons example (bx, sx) l') =
                   (if bx then 0 else 1) + negatives l') by reflexivity.
    assert (HA : sumZ (fun z => cross z (false, sx)) (@cons example (bx, sx) l') =
                 (if bx then 1 else 0)
                 + sumZ (fun z => cross z (false, sx)) l').
    { rewrite sumZ_cons. unfold cross at 1. simpl.
      rewrite pair_weight_refl. destruct bx; reflexivity. }
    assert (HB : sumZ (cross (true, sx)) (@cons example (bx, sx) l') =
                 (if bx then 0 else 1) + sumZ (cross (true, sx)) l').
    { rewrite sumZ_cons. unfold cross at 1. simpl.
      rewrite pair_weight_refl. destruct bx; reflexivity. }
    rewrite Hneg, HA, HB. clear Hneg HA HB.
    destruct (Qeq_bool sx (snd y)) eqn:E.
    + apply Qeq_bool_iff in E.
      assert (HA' : sumZ (fun z => cross z (false, snd y)) l' =
                    sumZ (fun z => cross z (false, sx)) l').
      { apply sumZ_ext. intros z _. apply cross_fst_proper.
        symmetry. exact E. }
      assert (HB' : sumZ (cross (true, snd y)) l' =
                    sumZ (cross (true, sx)) l').
      { apply sumZ_ext. intros z _. apply cross_snd_proper.
        symmetry. exact E. }
      destruct bx.
      * replace (tp0 + b + 1) with (tp0 + (b + 1)) by ring.
        subst l'. rewrite (IH y fp0 tp0 a (b + 1) Hd).
        rewrite HA', HB', concordance2_cons_positive. ring.
      * replace (fp0 + a + 1) with (fp0 + (a + 1)) by ring.
        subst l'. rewrite (IH y fp0 tp0 (a + 1) b Hd).
        rewrite HA', HB', concordance2_cons_negative. ring.
    + apply Qeq_bool_neq in E.
      assert (Hlt : forall z, In z l' -> (snd z < sx)%Q).
      { intros z Hz.
        assert (Hy : (snd y < sx)%Q).
        { pose proof (Hle y (or_introl eq_refl)) as Hy. simpl in Hy.
          apply Qle_lteq in Hy.
          destruct Hy as [Hy | Hy]; [exact Hy |].
          exfalso. apply E. symmetry. exact Hy. }
        destruct Hz as [Hz | Hz]; [subst z; exact Hy |].
        apply descending_inv in Hd. destruct Hd as [_ Hd].
        eapply Qle_lt_trans; [apply Hd; exact Hz | exact Hy]. }
      rewrite (sum_cross_below_into sx l' Hlt).
      rewrite (sum_cross_below_from sx l' Hlt).
      destruct bx; cbn [trapz2 fst snd].
      * rewrite concordance2_cons_positive.
        rewrite (sum_cross_below_from sx l' Hlt).
        pose proof (IH y (fp0 + a) (tp0 + b + 1) 0 0 Hd) as H0.
        rewrite !Z.add_0_r in H0. subst l'. rewrite H0. ring.
      * rewrite concordance2_cons_negative.
        rewrite (sum_cross_below_into sx l' Hlt).
        pose proof (IH y (fp0 + a + 1) (tp0 + b) 0 0 Hd) as H0.
        rewrite !Z.add_0_r in H0. subst l'. rewrite H0. ring.
Qed.

Lemma curve_area_total l :
  descending l ->
  trapz2 (0, 0) (metrics.clf_curve_from 0 0 l) = concordance2 l.
Proof.
  destruct l as [| x rest]; intros Hd; [reflexivity |].
  pose proof (curve_area rest x 0 0 0 0 Hd) as H.
  rewrite !Z.add_0_r in H. rewrite H. ring.
Qed.

(** [k] is the last point kept, [p] the point before [q]; the points
    between [k] and [p] were dropped, so [k], [p] and [q] lie on one line. *)
Lemma drop_from_area t : forall q k p m,
  fst p - fst k = m * (fst q - fst p) ->
  snd p - snd k = m * (snd q - snd p) ->
  trapz2 k (metrics.drop_from p (q :: t)) =
  (fst p - fst k) * (snd p + snd k) + trapz2 p (q :: t).
Proof.
  induction t as [| r t IH]; intros [q1 q2] [k1 k2] [p1 p2] m;
    cbn [fst snd]; intros H1 H2.
  - cbn [metrics.drop_from trapz2 fst snd].
    assert (E1 : k1 = p1 - m * (q1 - p1)) by lia.
    assert (E2 : k2 = p2 - m * (q2 - p2)) by lia.
    subst k1 k2. ring.
  - rewrite drop_from_cons2. destruct r as [r1 r2]. cbn [fst snd].
    assert (E1 : k1 = p1 - m * (q1 - p1)) by lia.
    assert (E2 : k2 = p2 - m * (q2 - p2)) by lia.
    destruct ((r1 - 2 * q1 + p1 =? 0) && (r2 - 2 * q2 + p2 =? 0)) eqn:E.
    + apply andb_true_iff in E. destruct E as [D1 D2].
      apply Z.eqb_eq in D1, D2.
      assert (R1 : r1 = 2 * q1 - p1) by lia.
      assert (R2 : r2 = 2 * q2 - p2) by lia.
      rewrite (IH (r1, r2) (k1, k2) (q1, q2) (m + 1));
        cbn [fst snd trapz2]; subst k1 k2 r1 r2; ring.
    + cbn [trapz2 fst snd].
      rewrite (IH (r1, r2) (q1, q2) (q1, q2) 0);
        cbn [fst snd trapz2]; subst k1 k2; ring.
Qed.

Lemma concordance2_pair_total (l : list example) :
  concordance2 l = pair_total (positive_scores l) (negative_scores l).
Proof.
  unfold concordance2, pair_total, positive_scores, negative_scores.
  rewrite sumZ_map.
  rewrite <- (sumZ_filter (fun x => sumZ (cross x) l)
                          (fun x : example => fst x) l).
  - apply sumZ_ext. intros x Hx. apply filter_In in Hx.
    destruct Hx as [_ Ex]. rewrite sumZ_map.
    rewrite <- (sumZ_filter (cross x) (fun y : example => negb (fst y)) l).
    + apply sumZ_ext. intros y Hy. apply filter_In in Hy.
      destruct Hy as [_ Ey]. unfold cross. rewrite Ex, Ey. reflexivity.
    + intros y _ Ey. unfold cross. rewrite Ey, andb_false_r. reflexivity.
  - intros x _ Ex. rewrite <- (sumZ_zero l). apply sumZ_ext. intros y _.
    unfold cross. rewrite Ex. reflexivity.
Qed.

Lemma positives_length (l : list example) :
  positives l = Z.of_nat (length (positive_scores l)).
Proof.
  unfold positives, positive_scores. rewrite length_map.
  induction l as [| [[|] s] l IH]; rewrite ?sumZ_cons; cbn [filter fst length];
    [reflexivity | rewrite IH; lia | rewrite IH; lia].
Qed.

Lemma negatives_length (l : list example) :
  negatives l = Z.of_nat (length (negative_scores l)).
Proof.
  unfold negatives, negative_scores. rewrite length_map.
  induction l as [| [[|] s] l IH]; rewrite ?sumZ_cons;
    cbn [filter fst negb length];
    [reflexivity | rewrite IH; lia | rewrite IH; lia].
Qed.

Lemma positives_negatives_product (l : list example) :
  sumZ (fun x : example =>
          sumZ (fun y : example =>
                  2 * ((if fst x then 1 else 0) * (if fst y then 0 else 1)))
               l) l =
  2 * negatives l * positives l.
Proof.
  rewrite (sumZ_ext _ (fun x : example =>
                         (2 * negatives l) * (if fst x then 1 else 0))).
  - rewrite sumZ_scale. reflexivity.
  - intros x _.
    rewrite (sumZ_ext _ (fun y : example =>
                           (2 * (if fst x then 1 else 0))
                           * (if fst y then 0 else 1)))
      by (intros; ring).
    rewrite sumZ_scale. unfold negatives. ring.
Qed.

Lemma concordance2_map (g : example -> example) (l : list example) :
  concordance2 (map g l) =
  sumZ (fun x => sumZ (fun y => cross (g x) (g y)) l) l.
Proof.
  unfold concordance2. rewrite sumZ_map.
  apply sumZ_ext. intros x _. apply sumZ_map.
Qed.

Lemma concordance2_swapped (l : list example) :
  sumZ (fun x => sumZ (fun y => cross y x) l) l = concordance2 l.
Proof. unfold concordance2. apply sumZ_swap. Qed.

Lemma flip_labels_counts (l : list example) :
  positives (map (fun x => (negb (fst x), snd x)) l) = negatives l
  /\ negatives (map (fun x => (negb (fst x), snd x)) l) = positives l.
Proof.
  unfold positives, negatives. rewrite !sumZ_map. split;
    apply sumZ_ext; intros [[|] s] _; reflexivity.
Qed.

Lemma flip_labels_concordance2 (l : list example) :
  concordance2 (map (fun x => (negb (fst x), snd x)) l) + concordance2 l =
  2 * negatives l * positives l.
Proof.
  rewrite concordance2_map.
  rewrite <- (concordance2_swapped l) at 1.
  rewrite <- sumZ_plus.
  rewrite <- (positives_negatives_product l).
  rewrite (sumZ_swap
             (fun x y : example =>
                2 * ((if fst x then 1 else 0) * (if fst y then 0 else 1)))).
  apply sumZ_ext. intros x _. rewrite <- sumZ_plus.
  apply sumZ_ext. intros y _. unfold cross. cbn [fst snd].
  pose proof (pair_weight_antisym (snd x) (snd y)) as Hw.
  destruct (fst x), (fst y); cbn [andb negb]; lia.
Qed.

Lemma negate_scores_counts (l : list example) :
  positives (map (fun x => (fst x, (- snd x)%Q)) l) = positives l
  /\ negatives (map (fun x => (fst x, (- snd x)%Q)) l) = negatives l.
Proof.
  unfold positives, negatives. rewrite !sumZ_map. split;
    apply sumZ_ext; intros [[|] s] _; reflexivity.
Qed.

Lemma negate_scores_concordance2 (l : list example) :
  concordance2 (map (fun x => (fst x, (- snd x)%Q)) l) + concordance2 l =
  2 * negatives l * positives l.
Proof.
  rewrite concordance2_map. unfold concordance2 at 1.
  rewrite <- sumZ_plus.
  rewrite <- (positives_negatives_product l).
  apply sumZ_ext. intros x _. rewrite <- sumZ_plus.
  apply sumZ_ext. intros y _. unfold cross. cbn [fst snd].
  rewrite pair_weight_opp.
  pose proof (pair_weight_antisym (snd x) (snd y)) as Hw.
  destruct (fst x), (fst y); cbn [andb negb]; lia.
Qed.

(** ** The area under the curve and the share of ordered pairs *)

Lemma drop_intermediate_area (c : list (Z * Z)) (k : Z * Z) :
  trapz2 k (metrics.drop_intermediate c) = trapz2 k c.
Proof.
  destruct c as [| q t]; [reflexivity |].
  cbn [metrics.drop_intermediate trapz2]. f_equal.
  destruct t as [| r t]; [reflexivity |].
  rewrite (drop_from_area t r q q 0); [ring | ring | ring].
Qed.

(** On the integer counts the doubled trapezoid sum counts the pairs. *)
Lemma roc_points_area (l : list example) :
  trapz2 (0, 0) (metrics.drop_intermediate (curve_of l)) = concordance2 l.
Proof.
  rewrite drop_intermediate_area. unfold curve_of.
  rewrite (curve_area_total _ (sorted_descending l)).
  symmetry. apply concordance2_perm, sorted_perm.
Qed.

Lemma trapezoids_cons2 f g p q t :
  trapezoids f g (p :: q :: t) =
  ((f q - f p) * (g q + g p) / 2 + trapezoids f g (q :: t))%Q.
Proof. reflexivity. Qed.

Lemma exact_terms_trapezoids n p pts :
  (Qsum (exact_terms (map (normalize n p) pts)) ==
   trapezoids (fun q => float_rate n (fst q))
              (fun q => float_rate p (snd q)) pts)%Q.
Proof.
  induction pts as [| a pts IH]; [reflexivity |].
  destruct pts as [| b pts]; [reflexivity |].
  cbn [map]. rewrite exact_terms_cons2, trapezoids_cons2. cbn [Qsum].
  change (normalize n p b :: map (normalize n p) pts)
    with (map (normalize n p) (b :: pts)).
  rewrite IH. reflexivity.
Qed.

Lemma trapezoids_exact_rates n p pts : forall k,
  0 < n -> 0 < p ->
  (trapezoids (fun q => exact_rate n (fst q))
              (fun q => exact_rate p (snd q)) (k :: pts) ==
   inject_Z (trapz2 k pts) / inject_Z (2 * (p * n)))%Q.
Proof.
  induction pts as [| q pts IH]; intros k Hn Hp.
  - cbn [trapezoids trapz2]. unfold Qdiv. change (inject_Z 0) with 0%Q. ring.
  - rewrite trapezoids_cons2, (IH q Hn Hp). cbn [trapz2].
    unfold exact_rate, Z.sub.
    rewrite !inject_Z_plus, !inject_Z_mult, !inject_Z_plus, !inject_Z_opp.
    change (inject_Z 2) with 2%Q.
    pose proof (inject_Z_nonzero n Hn). pose proof (inject_Z_nonzero p Hp).
    field. split; assumption.
Qed.

(** Summation by parts: the area under the curve and the area to its
    left make up the rectangle between its end points. *)
Lemma trapezoids_parts f g pts d :
  (trapezoids f g pts + trapezoids g f pts ==
   f (last pts d) * g (last pts d) - f (hd d pts) * g (hd d pts))%Q.
Proof.
  induction pts as [| a pts IH]; [cbn; ring |].
  destruct pts as [| b pts]; [cbn; ring |].
  rewrite !trapezoids_cons2.
  change (last (a :: b :: pts) d) with (last (b :: pts) d).
  cbn [hd] in *.
  setoid_replace
    ((f b - f a) * (g b + g a) / 2 + trapezoids f g (b :: pts)
     + ((g b - g a) * (f b + f a) / 2 + trapezoids g f (b :: pts)))%Q
    with ((trapezoids f g (b :: pts) + trapezoids g f (b :: pts))
          + (f b * g b - f a * g a))%Q by field.
  rewrite IH. ring.
Qed.

(** Ordinates moved by [e] at most move the area by [e] times the width
    at most. *)
Lemma trapezoids_close f g g' e pts d :
  Sorted (fun p q => (f p <= f q)%Q) pts ->
  Forall (fun p => (g' p - e <= g p)%Q /\ (g p <= g' p + e)%Q) pts ->
  (trapezoids f g' pts - e * (f (last pts d) - f (hd d pts))
   <= trapezoids f g pts)%Q
  /\ (trapezoids f g pts
      <= trapezoids f g' pts + e * (f (last pts d) - f (hd d pts)))%Q.
Proof.
  induction pts as [| a pts IH]; intros Hs Hall.
  - cbn. split; lra.
  - apply Sorted_inv in Hs. destruct Hs as [Hs Hhd].
    inversion Hall as [| ? ? [Ha1 Ha2] Hall']; subst.
    destruct pts as [| b pts]; [cbn; split; lra |].
    apply HdRel_inv in Hhd.
    inversion Hall' as [| ? ? [Hb1 Hb2] _]; subst.
    destruct (IH Hs Hall') as [IH1 IH2].
    rewrite !trapezoids_cons2.
    change (last (a :: b :: pts) d) with (last (b :: pts) d).
    cbn [hd] in *.
    set (L := f (last (b :: pts) d)) in *.
    set (T := trapezoids f g (b :: pts)) in *.
    set (T' := trapezoids f g' (b :: pts)) in *.
    set (w := (f b - f a)%Q).
    assert (Hw : (0 <= w)%Q) by (unfold w; lra).
    assert (H1 : (w * (g' b + g' a - 2 * e) <= w * (g b + g a))%Q).
    { rewrite !(Qmult_comm w). apply Qmult_le_compat_r; [lra | exact Hw]. }
    assert (H2 : (w * (g b + g a) <= w * (g' b + g' a + 2 * e))%Q).
    { rewrite !(Qmult_comm w). apply Qmult_le_compat_r; [lra | exact Hw]. }
    assert (E1 : (w * (g' b + g' a) / 2 + T' - e * (L - f a) ==
                  w * (g' b + g' a - 2 * e) / 2 + (T' - e * (L - f b)))%Q)
      by (unfold w; field).
    assert (E2 : (w * (g' b + g' a) / 2 + T' + e * (L - f a) ==
                  w * (g' b + g' a + 2 * e) / 2 + (T' + e * (L - f b)))%Q)
      by (unfold w; field).
    rewrite E1, E2. clear E1 E2.
    set (lo := (w * (g' b + g' a - 2 * e))%Q) in *.
    set (hi := (w * (g' b + g' a + 2 * e))%Q) in *.
    set (mid := (w * (g b + g a))%Q) in *.
    set (r := (e * (L - f b))%Q) in *.
    assert (H1' : (lo / 2 <= mid / 2)%Q)
      by (unfold Qdiv; apply Qmult_le_compat_r;
          [exact H1 | vm_compute; discriminate]).
    assert (H2' : (mid / 2 <= hi / 2)%Q)
      by (unfold Qdiv; apply Qmult_le_compat_r;
          [exact H2 | vm_compute; discriminate]).
    set (lo2 := (lo / 2)%Q) in *. set (hi2 := (hi / 2)%Q) in *.
    set (mid2 := (mid / 2)%Q) in *.
    clearbody lo2 hi2 mid2 r T T'.
    split; lra.
Qed.

Lemma exact_rate_unit n a :
  0 < n -> 0 <= a <= n ->
  (0 <= exact_rate n a)%Q /\ (exact_rate n a <= 1)%Q.
Proof.
  intros Hn [Ha1 Ha2]. unfold exact_rate. split.
  - apply Qdiv_inject_nonneg; assumption.
  - apply Qle_shift_div_r.
    + change 0%Q with (inject_Z 0). rewrite <- Zlt_Qlt. exact Hn.
    + rewrite Qmult_1_l, <- Zle_Qle. exact Ha2.
Qed.

Lemma exact_rate_mono n a b :
  0 < n -> a <= b -> (exact_rate n a <= exact_rate n b)%Q.
Proof.
  intros Hn Hab. unfold exact_rate, Qdiv. apply Qmult_le_compat_r.
  - rewrite <- Zle_Qle. exact Hab.
  - apply Qinv_le_0_compat. change 0%Q with (inject_Z 0).
    rewrite <- Zle_Qle. lia.
Qed.

Lemma exact_rate_zero n : (exact_rate n 0 == 0)%Q.
Proof. unfold exact_rate, Qdiv. change (inject_Z 0) with 0%Q. ring. Qed.

Lemma exact_rate_self n : 0 < n -> (exact_rate n n == 1)%Q.
Proof.
  intros Hn. unfold exact_rate. field. apply inject_Z_nonzero. exact Hn.
Qed.

(** The rounding of a rate moves it by [u64] at most. *)
Lemma float_rate_error n a :
  0 < n -> 0 <= a <= n ->
  (exact_rate n a - u64 <= float_rate n a)%Q
  /\ (float_rate n a <= exact_rate n a + u64)%Q.
Proof.
  intros Hn Ha. destruct (exact_rate_unit n a Hn Ha) as [H0 H1].
  destruct (round64_error (exact_rate n a) H0) as [E1 E2].
  change (round64 (exact_rate n a)) with (float_rate n a) in E1, E2.
  assert (Hu : (0 <= u64)%Q) by (vm_compute; discriminate).
  assert (Hx : (u64 * exact_rate n a <= u64)%Q).
  { rewrite <- (Qmult_1_r u64) at 2. rewrite !(Qmult_comm u64).
    apply Qmult_le_compat_r; assumption. }
  set (x := exact_rate n a) in *. set (u := u64) in *.
  split; lra.
Qed.

Lemma Sorted_on {A : Type} (R R' : A -> A -> Prop) (Good : A -> Prop) pts :
  (forall x y, Good x -> Good y -> R x y -> R' x y) ->
  Forall Good pts -> Sorted R pts -> Sorted R' pts.
Proof.
  intros Himp Hgood Hs.
  induction pts as [| p pts IH]; [constructor |].
  apply Sorted_inv in Hs. destruct Hs as [Hs Hhd].
  inversion Hgood as [| ? ? Hp Hgood']; subst.
  constructor; [apply IH; assumption |].
  destruct pts as [| q pts]; constructor.
  apply HdRel_inv in Hhd. inversion Hgood' as [| ? ? Hq _]; subst.
  apply Himp; assumption.
Qed.

Section PairShare.

Variable l : list example.
Hypothesis Hp : 0 < positives l.
Hypothesis Hn : 0 < negatives l.

Let fx (q : Z * Z) : Q := float_rate (negatives l) (fst q).
Let fy (q : Z * Z) : Q := float_rate (positives l) (snd q).
Let ex (q : Z * Z) : Q := exact_rate (negatives l) (fst q).
Let ey (q : Z * Z) : Q := exact_rate (positives l) (snd q).

Lemma roc_points_tp_sorted : Sorted tp_le (roc_points l).
Proof.
  unfold roc_points. apply drop_intermediate_sorted; [exact tp_le_trans |].
  apply clf_curve_from_tp_sorted.
Qed.

Lemma roc_points_hd : hd (0, 0) (roc_points l) = (0, 0).
Proof. reflexivity. Qed.

(** The exact area under the rounded curve against the area under the
    curve of the exact rates. *)
Lemma rounded_curve_area :
  (trapezoids ex ey (roc_points l) - 2 * u64
   <= trapezoids fx fy (roc_points l))%Q
  /\ (trapezoids fx fy (roc_points l)
      <= trapezoids ex ey (roc_points l) + 2 * u64)%Q.
Proof.
  pose proof (roc_points_range l Hp Hn) as Hrange.
  pose proof (roc_points_last l Hp) as Hlast.
  assert (Hfx : Sorted (fun p q => (fx p <= fx q)%Q) (roc_points l)).
  { apply (Sorted_on fp_le _ _ _
             (fun x y Hx Hy H =>
                fdiv_mono (fst x) (fst y) (negatives l)
                          (proj1 (proj1 Hx)) H Hn)
             Hrange (roc_points_sorted l)). }
  assert (Hey : Sorted (fun p q => (ey p <= ey q)%Q) (roc_points l)).
  { apply (Sorted_on tp_le _ (fun _ => True) _
             (fun x y _ _ H =>
                exact_rate_mono (positives l) (snd x) (snd y) Hp H)).
    - apply Forall_forall. intros; exact I.
    - exact roc_points_tp_sorted. }
  assert (Hy : Forall (fun p => (ey p - u64 <= fy p)%Q
                                /\ (fy p <= ey p + u64)%Q) (roc_points l)).
  { eapply Forall_impl; [| exact Hrange]. intros q [_ Hq].
    apply float_rate_error; assumption. }
  assert (Hx : Forall (fun p => (ex p - u64 <= fx p)%Q
                                /\ (fx p <= ex p + u64)%Q) (roc_points l)).
  { eapply Forall_impl; [| exact Hrange]. intros q [Hq _].
    apply float_rate_error; assumption. }
  destruct (trapezoids_close fx fy ey u64 (roc_points l) (0, 0) Hfx Hy)
    as [A1 A2].
  destruct (trapezoids_close ey fx ex u64 (roc_points l) (0, 0) Hey Hx)
    as [B1 B2].
  pose proof (trapezoids_parts fx ey (roc_points l) (0, 0)) as P1.
  pose proof (trapezoids_parts ex ey (roc_points l) (0, 0)) as P2.
  rewrite Hlast, roc_points_hd in A1, A2, B1, B2, P1, P2.
  assert (Fx1 : fx (negatives l, positives l) = 1%Q)
    by (apply fdiv_self; exact Hn).
  assert (Fx0 : fx (0, 0) = 0%Q) by apply fdiv_zero.
  assert (Ex1 : (ex (negatives l, positives l) == 1)%Q)
    by (apply exact_rate_self; exact Hn).
  assert (Ex0 : (ex (0%Z, 0%Z) == 0)%Q) by apply exact_rate_zero.
  assert (Ey1 : (ey (negatives l, positives l) == 1)%Q)
    by (apply exact_rate_self; exact Hp).
  assert (Ey0 : (ey (0%Z, 0%Z) == 0)%Q) by apply exact_rate_zero.
  rewrite Fx1, Fx0 in A1, A2, P1.
  rewrite Ey1, Ey0 in B1, B2, P1, P2.
  rewrite Ex1, Ex0 in P2.
  set (a := trapezoids fx fy (roc_points l)) in *.
  set (b := trapezoids fx ey (roc_points l)) in *.
  set (c := trapezoids ey fx (roc_points l)) in *.
  set (c' := trapezoids ey ex (roc_points l)) in *.
  set (t := trapezoids ex ey (roc_points l)) in *.
  set (u := u64) in *.
  clearbody a b c c' t u.
  split; lra.
Qed.

(** The exact area under the rounded curve is the share of the ordered
    pairs up to the rounding of the rates. *)
Lemma exact_area_near_share :
  let s := (inject_Z (concordance2 l)
            / inject_Z (2 * (positives l * negatives l)))%Q in
  (s - 2 * u64 <= exact_area l)%Q /\ (exact_area l <= s + 2 * u64)%Q.
Proof.
  cbv zeta. unfold exact_area.
  rewrite (roc_curve_points l Hp), exact_terms_trapezoids.
  rewrite <- (roc_points_area l).
  rewrite <- (trapezoids_exact_rates (negatives l) (positives l) _ (0, 0) Hn Hp).
  exact rounded_curve_area.
Qed.

Lemma pair_share_unit :
  let s := (inject_Z (concordance2 l)
            / inject_Z (2 * (positives l * negatives l)))%Q in
  (0 <= s)%Q /\ (s <= 1)%Q.
Proof.
  cbv zeta. pose proof (concordance2_bounds l) as [Hlo Hhi].
  assert (Hd : 0 < 2 * (positives l * negatives l)) by nia.
  split.
  - apply Qdiv_inject_nonneg; assumption.
  - apply Qle_shift_div_r.
    + change 0%Q with (inject_Z 0). rewrite <- Zlt_Qlt. exact Hd.
    + rewrite Qmult_1_l, <- Zle_Qle. lia.
Qed.

(** The returned area against the share of the ordered pairs. *)
Lemma auc_value_near_share :
  near_share (length l)
    (inject_Z (concordance2 l) / inject_Z (2 * (positives l * negatives l)))
    (auc_value l).
Proof.
  destruct (auc_value_within l Hp Hn) as [HE [W1 W2]].
  destruct exact_area_near_share as [S1 S2].
  unfold near_share, rounded_down, rounded_up. split.
  - eapply Qle_trans; [| exact W1].
    rewrite !(Qmult_comm (qpow (1 - u64) (length l + 5))).
    apply Qmult_le_compat_r; [exact S1 |].
    apply Qlt_le_weak, qpow_pos, lo_bounds.
  - eapply Qle_trans; [exact W2 |].
    rewrite !(Qmult_comm (qpow (1 + u64) (length l + 5))).
    apply Qmult_le_compat_r; [exact S2 |].
    apply Qlt_le_weak, qpow_pos.
    eapply Qlt_le_trans; [| apply hi_bounds]. reflexivity.
Qed.

End PairShare.
(** ** The extreme values *)

Lemma sumZ_eq_bound {A : Type} (f g : A -> Z) l :
  (forall a, In a l -> f a <= g a) ->
  sumZ f l = sumZ g l ->
  forall a, In a l -> f a = g a.
Proof.
  induction l as [| x l IH]; intros Hle Heq a Ha; [destruct Ha |].
  rewrite !sumZ_cons in Heq.
  pose proof (Hle x (or_introl eq_refl)) as Hx.
  assert (Hl : sumZ f l <= sumZ g l)
    by (apply sumZ_le; intros b Hb; apply Hle; right; exact Hb).
  destruct Ha as [Ha | Ha].
  - subst a. lia.
  - apply IH; [intros b Hb; apply Hle; right; exact Hb | lia | exact Ha].
Qed.

Lemma pair_weight_two_inv a b : pair_weight a b = 2 -> (b < a)%Q.
Proof.
  unfold pair_weight. destruct (Qcompare_spec a b) as [H | H | H];
    intros E; [discriminate | discriminate | exact H].
Qed.

Lemma pair_weight_zero_inv a b : pair_weight a b = 0 -> (a < b)%Q.
Proof.
  unfold pair_weight. destruct (Qcompare_spec a b) as [H | H | H];
    intros E; [discriminate | exact H | discriminate].
Qed.

Lemma concordance2_full_inv (l : list example) :
  concordance2 l = 2 * negatives l * positives l ->
  forall x y, In x l -> In y l -> fst x = true -> fst y = false ->
              (snd y < snd x)%Q.
Proof.
  intros H x y Hx Hy Ex Ey. apply pair_weight_two_inv.
  assert (Hout : sumZ (cross x) l =
                 (2 * negatives l) * (if fst x then 1 else 0)).
  { apply (sumZ_eq_bound (fun x => sumZ (cross x) l)
                         (fun x : example =>
                            (2 * negatives l) * (if fst x then 1 else 0)) l);
      [| | exact Hx].
    - intros a _. unfold negatives. rewrite <- sumZ_scale.
      rewrite Z.mul_comm, <- sumZ_scale.
      apply sumZ_le. intros b _. pose proof (cross_range a b) as Hc.
      unfold cross in *. destruct (fst a), (fst b); cbn [andb negb] in *; lia.
    - rewrite sumZ_scale. exact H. }
  rewrite Ex in Hout. unfold negatives in Hout.
  rewrite Z.mul_1_r, <- sumZ_scale in Hout.
  pose proof (sumZ_eq_bound (cross x)
                (fun y : example => 2 * (if fst y then 0 else 1)) l) as Hin.
  specialize (Hin ltac:(intros b _; pose proof (cross_range x b) as Hc;
                        unfold cross in *; rewrite Ex in *;
                        destruct (fst b); cbn [andb negb] in *; lia)
                  Hout y Hy).
  unfold cross in Hin. rewrite Ex, Ey in Hin. cbn [andb negb] in Hin.
  exact Hin.
Qed.

Lemma concordance2_zero_inv (l : list example) :
  concordance2 l = 0 ->
  forall x y, In x l -> In y l -> fst x = true -> fst y = false ->
              (snd x < snd y)%Q.
Proof.
  intros H x y Hx Hy Ex Ey. apply pair_weight_zero_inv.
  assert (Hout : 0 = sumZ (cross x) l).
  { apply (sumZ_eq_bound (fun _ => 0) (fun x => sumZ (cross x) l) l);
      [| | exact Hx].
    - intros a _. rewrite <- (sumZ_zero l). apply sumZ_le.
      intros b _. apply cross_range.
    - rewrite sumZ_zero. symmetry. exact H. }
  rewrite <- (sumZ_zero l) in Hout.
  pose proof (sumZ_eq_bound (fun _ => 0) (cross x) l
                (fun b _ => proj1 (cross_range x b)) Hout y Hy) as Hin.
  unfold cross in Hin. rewrite Ex, Ey in Hin. cbn [andb negb] in Hin.
  symmetry. exact Hin.
Qed.

Lemma concordance2_uniform (w : Z) (l : list example) :
  (forall x y, In x l -> In y l -> fst x = true -> fst y = false ->
               pair_weight (snd x) (snd y) = w) ->
  concordance2 l = w * positives l * negatives l.
Proof.
  intros H. unfold concordance2.
  rewrite (sumZ_ext _ (fun x : example =>
                         (w * negatives l) * (if fst x then 1 else 0))).
  - rewrite sumZ_scale. unfold positives. ring.
  - intros x Hx.
    rewrite (sumZ_ext _ (fun y : example =>
                           (w * (if fst x then 1 else 0))
                           * (if fst y then 0 else 1))).
    + rewrite sumZ_scale. unfold negatives. ring.
    + intros y Hy. unfold cross.
      destruct (fst x) eqn:Ex, (fst y) eqn:Ey; cbn [andb negb]; try ring.
      rewrite (H x y Hx Hy Ex Ey). ring.
Qed.

Lemma qpow_mul a b k : (qpow a k * qpow b k == qpow (a * b) k)%Q.
Proof.
  induction k as [| k IH]; cbn [qpow]; [ring |].
  rewrite <- IH. ring.
Qed.

Lemma lo_hi_product k : (qpow (1 + u64) k * qpow (1 - u64) k <= 1)%Q.
Proof.
  rewrite qpow_mul. apply qpow_le_1; vm_compute; discriminate.
Qed.

(** [k] roundings downwards lower a number by the share [k * u64] at
    most. *)
Lemma qpow_lo_bernoulli k :
  (1 - inject_Z (Z.of_nat k) * u64 <= qpow (1 - u64) k)%Q.
Proof.
  induction k as [| k IH].
  - vm_compute. discriminate.
  - rewrite Nat2Z.inj_succ. unfold Z.succ. rewrite inject_Z_plus.
    cbn [qpow]. change (inject_Z 1) with 1%Q.
    assert (Hk : (0 <= inject_Z (Z.of_nat k))%Q)
      by (change 0%Q with (inject_Z 0); rewrite <- Zle_Qle; lia).
    set (x := inject_Z (Z.of_nat k)) in *.
    set (p := qpow (1 - u64) k) in *. clearbody x p.
    change u64 with (1 # 9007199254740992)%Q in *. lra.
Qed.

Lemma positives_plus_negatives (l : list example) :
  positives l + negatives l = Z.of_nat (length l).
Proof.
  unfold positives, negatives.
  induction l as [| [[|] s] l IH]; rewrite ?sumZ_cons; cbn [fst length];
    [reflexivity | lia | lia].
Qed.

Lemma pairs_bound (l : list example) :
  4 * (positives l * negatives l) <=
  Z.of_nat (length l) * Z.of_nat (length l).
Proof.
  rewrite <- positives_plus_negatives.
  pose proof (Z.square_nonneg (positives l - negatives l)). nia.
Qed.

Section Extremes.

Variable l : list example.
Variable n : nat.
Hypothesis Hlen : (length l <= n)%nat.
Hypothesis Hsize : Z.of_nat n <= 200000.
Hypothesis Hp : 0 < positives l.
Hypothesis Hn : 0 < negatives l.

(** An area of exactly 0 leaves no pair in the right order and no tie:
    one such pair is a share of the pairs larger than the rounding of the
    rates. *)
Lemma auc_value_zero_inv : auc_value l = 0%Q -> concordance2 l = 0.
Proof.
  intros Hv.
  destruct (auc_value_near_share l Hp Hn) as [N1 _]. rewrite Hv in N1.
  pose proof (concordance2_bounds l) as [Hlo _].
  destruct (Z.eq_dec (concordance2 l) 0) as [E | E]; [exact E | exfalso].
  assert (Hw : 1 <= concordance2 l) by lia.
  pose proof (pairs_bound l) as Hb.
  assert (Hl : Z.of_nat (length l) <= 200000) by lia.
  set (D := 2 * (positives l * negatives l)) in *.
  assert (HD : 0 < D) by (unfold D; nia).
  assert (HD2 : D <= 20000000000) by (unfold D; nia).
  assert (Hs : (2 * u64 < inject_Z (concordance2 l) / inject_Z D)%Q).
  { apply Qlt_shift_div_l.
    - change 0%Q with (inject_Z 0). rewrite <- Zlt_Qlt. exact HD.
    - assert (H1 : (inject_Z D <= inject_Z 20000000000)%Q)
        by (rewrite <- Zle_Qle; exact HD2).
      assert (H2 : (inject_Z 1 <= inject_Z (concordance2 l))%Q)
        by (rewrite <- Zle_Qle; exact Hw).
      change (inject_Z 20000000000) with 20000000000%Q in H1.
      change (inject_Z 1) with 1%Q in H2.
      change u64 with (1 # 9007199254740992)%Q. lra. }
  pose proof (qpow_pos (1 - u64) (length l + 5) (proj1 lo_bounds)) as Hpos.
  unfold rounded_down in N1.
  assert (H0 : (0 < qpow (1 - u64) (length l + 5)
                    * (inject_Z (concordance2 l) / inject_Z D - 2 * u64))%Q).
  { apply Qmult_lt_0_compat; [exact Hpos | lra]. }
  apply (Qlt_irrefl 0). eapply Qlt_le_trans; [exact H0 | exact N1].
Qed.

(** An area in the band around 1 leaves no pair in the wrong order and
    no tie: one such pair lowers the share by more than all the roundings
    raise the result. *)
Lemma auc_value_about_one_inv :
  (rounded_down n <= auc_value l)%Q ->
  concordance2 l = 2 * negatives l * positives l.
Proof.
  intros Hv.
  destruct (auc_value_near_share l Hp Hn) as [_ N2].
  pose proof (concordance2_bounds l) as [Hlo Hhi].
  destruct (Z.eq_dec (concordance2 l) (2 * negatives l * positives l))
    as [E | E]; [exact E | exfalso].
  pose proof (pairs_bound l) as Hb.
  assert (Hl : Z.of_nat (length l) <= 200000) by lia.
  replace (2 * positives l * negatives l)
    with (2 * (positives l * negatives l)) in Hhi by ring.
  set (D := 2 * (positives l * negatives l)) in *.
  assert (Hw : concordance2 l <= D - 1) by (unfold D in *; lia).
  assert (HD : 0 < D) by (unfold D; nia).
  assert (HD2 : D <= 20000000000) by (unfold D; nia).
  set (k := (n + 5)%nat) in *.
  assert (Hk : Z.of_nat (k + k) <= 400010) by (unfold k; lia).
  assert (HkD : D * (Z.of_nat (k + k) + 2) < 9007199254740992) by nia.
  unfold rounded_down, rounded_up in *. fold k in Hv.
  assert (N2' : (auc_value l
                 <= qpow (1 + u64) k
                    * (inject_Z (concordance2 l) / inject_Z D + 2 * u64))%Q).
  { eapply Qle_trans; [exact N2 |]. apply Qmult_le_compat_r.
    - apply qpow_hi_mono; [apply hi_bounds | unfold k; lia].
    - assert (H0 : (0 <= inject_Z (concordance2 l) / inject_Z D)%Q)
        by (apply Qdiv_inject_nonneg; assumption).
      change u64 with (1 # 9007199254740992)%Q. lra. }
  clear N2. rename N2' into N2.
  pose proof (qpow_lo_bernoulli (k + k)) as Hbern.
  rewrite qpow_add in Hbern.
  pose proof (lo_hi_product k) as Hprod.
  pose proof (qpow_pos (1 - u64) k (proj1 lo_bounds)) as Hbpos.
  set (a := qpow (1 + u64) k) in *. set (b := qpow (1 - u64) k) in *.
  set (K := inject_Z (Z.of_nat (k + k))) in *.
  set (s := (inject_Z (concordance2 l) / inject_Z D)%Q) in *.
  assert (HK0 : (0 <= K)%Q)
    by (unfold K; change 0%Q with (inject_Z 0); rewrite <- Zle_Qle; lia).
  assert (Hdpos : (0 < inject_Z D)%Q)
    by (change 0%Q with (inject_Z 0); rewrite <- Zlt_Qlt; exact HD).
  assert (Hs0 : (0 <= s)%Q) by (apply Qdiv_inject_nonneg; assumption).
  (* one pair out of order lowers the share below the band *)
  assert (Hs : (s + 2 * u64 < 1 - K * u64)%Q).
  { assert (Hs' : (s < 1 - (K + 2) * u64)%Q).
    { unfold s. apply Qlt_shift_div_r; [exact Hdpos |].
      assert (H1 : (inject_Z (concordance2 l) <= inject_Z (D + -1))%Q)
        by (rewrite <- Zle_Qle; lia).
      rewrite inject_Z_plus in H1. change (inject_Z (-1)) with (-1 # 1)%Q in H1.
      assert (H2 : (inject_Z D * (K + 2) < 9007199254740992)%Q).
      { unfold K. change 2%Q with (inject_Z 2).
        rewrite <- inject_Z_plus, <- inject_Z_mult.
        change 9007199254740992%Q with (inject_Z 9007199254740992).
        rewrite <- Zlt_Qlt. exact HkD. }
      setoid_replace ((1 - (K + 2) * u64) * inject_Z D)%Q
        with (inject_Z D - (inject_Z D * (K + 2)) * u64)%Q by ring.
      set (m := (inject_Z D * (K + 2))%Q) in *.
      set (d := inject_Z D) in *. set (w := inject_Z (concordance2 l)) in *.
      clearbody m d w. change u64 with (1 # 9007199254740992)%Q. lra. }
    lra. }
  (* the band is wider than the roundings *)
  assert (H1 : (b * b <= b * (a * (s + 2 * u64)))%Q).
  { apply Qmult_le_l; [exact Hbpos |]. eapply Qle_trans; [exact Hv | exact N2]. }
  assert (H2 : ((a * b) * (s + 2 * u64) <= 1 * (s + 2 * u64))%Q).
  { apply Qmult_le_compat_r; [exact Hprod |].
    change u64 with (1 # 9007199254740992)%Q. lra. }
  assert (E3 : (b * (a * (s + 2 * u64)) == (a * b) * (s + 2 * u64))%Q) by ring.
  rewrite E3 in H1.
  set (bb := (b * b)%Q) in *. set (ab := ((a * b) * (s + 2 * u64))%Q) in *.
  clearbody bb ab. lra.
Qed.

Lemma auc_value_zero_iff : auc_value l = 0%Q <-> inverted l.
Proof.
  split.
  - intros H. exact (concordance2_zero_inv l (auc_value_zero_inv H)).
  - apply auc_value_inverted; assumption.
Qed.

Lemma auc_value_about_one_iff :
  (rounded_down n <= auc_value l)%Q <-> separated l.
Proof.
  split.
  - intros H. exact (concordance2_full_inv l (auc_value_about_one_inv H)).
  - intros H. destruct (auc_value_separated l Hp Hn H) as [H1 _].
    eapply Qle_trans; [| exact H1]. unfold rounded_down.
    destruct lo_bounds as [L0 L1].
    apply qpow_lo_anti; [apply Qlt_le_weak, L0 | exact L1 | lia].
Qed.

End Extremes.

(** * The claims of the specification *)

(** C1: on two sequences of the same length, [compute_auc] returns NaN
    (it returns, it does not raise) when the labels are empty, all true or
    all false.  When the labels hold at least one [true] and at least one
    [false] it returns a number that is not negative and that exceeds 1 by
    the roundings of the trapezoid sum at most: on [n] examples it is at
    most [(1 + 2^-53)^(n + 5)]. *)
Theorem compute_auc_nan_or_rounded_unit_interval
  (y_true : list bool) (y_pred : list Q) :
  length y_true = length y_pred ->
  ((y_true = [] \/ Forall (fun y => y = true) y_true
    \/ Forall (fun y => y = false) y_true) ->
   compute_auc y_true y_pred = Ok NaN)
  /\
  (In true y_true -> In false y_true ->
   exists q, compute_auc y_true y_pred = Ok (Num q)
             /\ (0 <= q)%Q /\ (q <= rounded_up (length y_true))%Q).
Proof.
  intros Hlen. rewrite (compute_auc_same_length _ _ Hlen).
  destruct (map_fst_combine y_true y_pred Hlen) as [Hfst _].
  assert (Hl : length (combine y_true y_pred) = length y_true)
    by (rewrite length_combine; lia).
  set (l := combine y_true y_pred) in *.
  split.
  - intros Hdeg. f_equal. apply auc_of_one_class.
    destruct Hdeg as [Hnil | [Hall | Hall]].
    + left. subst l. rewrite Hnil. reflexivity.
    + right. pose proof (negatives_nonneg l) as Hnn.
      destruct (Z.eq_dec (negatives l) 0) as [E | E]; [exact E |].
      assert (Hin : In false (map fst l)) by (apply negatives_In; lia).
      rewrite Hfst in Hin. rewrite Forall_forall in Hall.
      specialize (Hall false Hin). discriminate.
    + left. pose proof (positives_nonneg l) as Hnn.
      destruct (Z.eq_dec (positives l) 0) as [E | E]; [exact E |].
      assert (Hin : In true (map fst l)) by (apply positives_In; lia).
      rewrite Hfst in Hin. rewrite Forall_forall in Hall.
      specialize (Hall true Hin). discriminate.
  - intros Ht Hf. rewrite <- Hfst in Ht, Hf.
    apply positives_In in Ht. apply negatives_In in Hf.
    exists (auc_value l). rewrite (auc_of_both l Ht Hf).
    split; [reflexivity |]. rewrite <- Hl.
    apply auc_value_range; assumption.
Qed.

Lemma compute_auc_nan_or_rounded_unit_interval_witness :
  compute_auc [true; true; true] [(9 # 10); (1 # 2); (1 # 10)]%Q = Ok NaN
  /\ exists q, compute_auc [true; false] [(9 # 10); (1 # 10)]%Q = Ok (Num q)
               /\ (0 <= q)%Q /\ (q <= rounded_up 2)%Q.
Proof.
  split.
  - apply (compute_auc_nan_or_rounded_unit_interval
             [true; true; true] [(9 # 10); (1 # 2); (1 # 10)]%Q eq_refl).
    right. left. repeat constructor.
  - apply (compute_auc_nan_or_rounded_unit_interval
             [true; false] [(9 # 10); (1 # 10)]%Q eq_refl).
    + simpl. left. reflexivity.
    + simpl. right. left. reflexivity.
Defined.

(** C1, as the specification states it, fails: on one positive example
    above 26 negative ones in tie groups of 1, 2, 3, 1, 2, 1 and 16, the
    eight terms of the trapezoid sum add up, in the order of the pairwise
    summation, to [1 + 2^-52], which is not in the closed interval from 0
    to 1. *)
Lemma compute_auc_above_one :
  length (map fst eight_steps) = length (map snd eight_steps)
  /\ In true (map fst eight_steps) /\ In false (map fst eight_steps)
  /\ compute_auc (map fst eight_steps) (map snd eight_steps) =
     Ok (Num (4503599627370497 # 4503599627370496))
  /\ ~ (exists q, compute_auc (map fst eight_steps) (map snd eight_steps) =
                  Ok (Num q) /\ (0 <= q)%Q /\ (q <= 1)%Q).
Proof.
  assert (E : compute_auc (map fst eight_steps) (map snd eight_steps) =
              Ok (Num (4503599627370497 # 4503599627370496)))
    by (vm_compute; reflexivity).
  split; [reflexivity |].
  split; [simpl; left; reflexivity |].
  split; [simpl; right; left; reflexivity |].
  split; [exact E |].
  intros [q [Hq [_ Hle]]]. rewrite E in Hq.
  injection Hq as Hq. subst q. revert Hle. vm_compute. intros H. apply H.
  reflexivity.
Qed.

(** C2: at the empty list of subgroups [compute_bias_metrics_for_model]
    returns no sequence: the frame built from no record has no column, and
    sorting it by ['subgroup_auc'] raises [KeyError].  For every list that
    is not empty the call returns, and the subgroups of the returned rows
    are the entries of the list, one row per entry: as many rows as
    entries, none missing, and no subgroup twice unless the list has it
    twice. *)
Theorem compute_bias_metrics_one_row_per_subgroup_unless_empty
  (dataset : DataFrame) (model label_col : string) (include_asegs : bool) :
  compute_bias_metrics_for_model dataset [] model label_col include_asegs =
  Raise KeyError
  /\ forall subgroups,
      subgroups <> [] ->
      exists out,
        compute_bias_metrics_for_model dataset subgroups model label_col
                                       include_asegs = Ok out
        /\ Permutation (map subgroup out) subgroups
        /\ length out = length subgroups
        /\ (NoDup subgroups -> NoDup (map subgroup out)).
Proof.
  split; [reflexivity |]. intros subgroups Hne.
  destruct (compute_bias_metrics_rows dataset model label_col include_asegs
              subgroups Hne) as [out [Hout _]].
  pose proof (compute_bias_metrics_subgroups _ _ _ _ _ _ Hout) as Hperm.
  exists out. split; [exact Hout |]. split; [exact Hperm |]. split.
  - rewrite <- (length_map subgroup out). apply Permutation_length. exact Hperm.
  - intros Hnd. apply (Permutation_NoDup (Permutation_sym Hperm) Hnd).
Qed.

(** C3: for every subgroup of the input list, the [subgroup_size] of its
    row in the returned frame is the number of rows of the dataset whose
    flag for that subgroup is true. *)
Theorem subgroup_size_counts_flagged_rows
  (dataset : DataFrame) (subgroups : list string) (model label_col : string)
  (include_asegs : bool) (sg : string) :
  In sg subgroups ->
  exists out,
    compute_bias_metrics_for_model dataset subgroups model label_col
                                   include_asegs = Ok out
    /\ (exists r, In r out /\ subgroup r = sg)
    /\ (forall r, In r out ->
                  subgroup_size r = count_flagged dataset (subgroup r)).
Proof.
  intros Hsg.
  destruct (compute_bias_metrics_rows dataset model label_col include_asegs
              subgroups) as [out [Hout _]].
  { intros Hnil. rewrite Hnil in Hsg. exact Hsg. }
  exists out. split; [exact Hout |]. split.
  - exists (record_of dataset model label_col sg). split; [| reflexivity].
    eapply compute_bias_metrics_row_of; eassumption.
  - intros r Hr.
    destruct (compute_bias_metrics_row_inv _ _ _ _ _ _ r Hout Hr) as [_ Er].
    rewrite Er at 1. cbn [record_of subgroup_size].
    apply select_flag_length.
Qed.

Lemma subgroup_size_counts_flagged_rows_witness :
  exists out,
    compute_bias_metrics_for_model scenario ["A"%string]
                                   "model"%string "toxicity"%string false
    = Ok out
    /\ (exists r, In r out /\ subgroup r = "A"%string)
    /\ (forall r, In r out ->
                  subgroup_size r = count_flagged scenario (subgroup r)).
Proof.
  apply (subgroup_size_counts_flagged_rows
           scenario ["A"%string] "model"%string "toxicity"%string false
           "A"%string).
  simpl. left. reflexivity.
Defined.

(** C4: the returned sequence is sorted by [subgroup_auc] ascending with
    NaN last: of two rows, the earlier one has the smaller or equal
    number, no row with NaN comes before a row with a number, and a row
    with a strictly smaller number comes strictly earlier.  The only
    input without a returned sequence is the empty list of subgroups. *)
Theorem compute_bias_metrics_sorted_nan_last
  (dataset : DataFrame) (subgroups : list string) (model label_col : string)
  (include_asegs : bool) :
  match compute_bias_metrics_for_model dataset subgroups model label_col
                                       include_asegs with
  | Ok out =>
      subgroups <> []
      /\ (forall i j r1 r2,
             (i < j)%nat ->
             nth_error out i = Some r1 -> nth_error out j = Some r2 ->
             match subgroup_auc r1, subgroup_auc r2 with
             | Num a, Num b => (a <= b)%Q
             | Num _, NaN => True
             | NaN, NaN => True
             | NaN, Num _ => False
             end)
      /\ (forall i j r1 r2 a b,
             nth_error out i = Some r1 -> nth_error out j = Some r2 ->
             subgroup_auc r1 = Num a -> subgroup_auc r2 = Num b ->
             (a < b)%Q -> (i < j)%nat)
  | Raise _ => subgroups = []
  end.
Proof.
  destruct (compute_bias_metrics_for_model dataset subgroups model label_col
              include_asegs) as [out | e] eqn:E.
  - assert (Hsorted : forall i j r1 r2,
               (i < j)%nat ->
               nth_error out i = Some r1 -> nth_error out j = Some r2 ->
               auc_le r1 r2).
    { rewrite compute_bias_metrics_value in E.
      apply sort_values_sorted in E.
      intros i j r1 r2. apply (StronglySorted_nth auc_le out E). }
    split; [| split].
    + intros Hnil. rewrite Hnil in E. discriminate.
    + intros i j r1 r2 Hij H1 H2.
      specialize (Hsorted i j r1 r2 Hij H1 H2). unfold auc_le in Hsorted.
      destruct (subgroup_auc r1) as [a |], (subgroup_auc r2) as [b |];
        simpl in Hsorted; try exact I; try discriminate.
      apply Qle_bool_iff. exact Hsorted.
    + intros i j r1 r2 a b H1 H2 Ea Eb Hab.
      destruct (Nat.lt_trichotomy i j) as [Hlt | [Heq | Hgt]];
        [exact Hlt | exfalso | exfalso].
      * subst j. rewrite H1 in H2. injection H2 as H2. subst r2.
        rewrite Ea in Eb. injection Eb as Eb. subst b.
        exact (Qlt_irrefl a Hab).
      * specialize (Hsorted j i r2 r1 Hgt H2 H1). unfold auc_le in Hsorted.
        rewrite Ea, Eb in Hsorted. simpl in Hsorted.
        apply Qle_bool_iff in Hsorted.
        exact (Qlt_not_le _ _ Hab Hsorted).
  - destruct subgroups as [| sg rest]; [reflexivity |].
    destruct (compute_bias_metrics_rows dataset model label_col
                include_asegs (sg :: rest)) as [out [Hout _]];
      [discriminate |].
    rewrite Hout in E. discriminate.
Qed.

(** C5: the background-positive / subgroup-negative AUC is [compute_auc]
    on exactly the rows that are in the subgroup with a false label or
    outside the subgroup with a true label, and the background-negative /
    subgroup-positive AUC is [compute_auc] on exactly the rows that are in
    the subgroup with a true label or outside it with a false label; each
    selected row contributes its own label and its own score.  The list
    of examples each function builds holds those rows, each once. *)
Theorem cross_auc_comparison_sets
  (df : DataFrame) (sg label model_name : string) :
  let bpsn_set := select df (bpsn_member sg label) in
  let bnsp_set := select df (bnsp_member sg label) in
  (forall r, In r bpsn_set <->
             In r df /\ ((bcol r sg = true /\ bcol r label = false)
                         \/ (bcol r sg = false /\ bcol r label = true)))
  /\ (forall r, In r bnsp_set <->
                In r df /\ ((bcol r sg = true /\ bcol r label = true)
                            \/ (bcol r sg = false /\ bcol r label = false)))
  /\ Permutation
       (select df (fun r => bcol r sg && negb (bcol r label))
        ++ select df (fun r => negb (bcol r sg) && bcol r label))
       bpsn_set
  /\ Permutation
       (select df (fun r => bcol r sg && bcol r label)
        ++ select df (fun r => negb (bcol r sg) && negb (bcol r label)))
       bnsp_set
  /\ compute_background_positive_subgroup_negative_auc df sg label model_name
     = compute_auc (bools bpsn_set label) (floats bpsn_set model_name)
  /\ compute_background_negative_subgroup_positive_auc df sg label model_name
     = compute_auc (bools bnsp_set label) (floats bnsp_set model_name).
Proof.
  cbv zeta. split; [| split; [| split; [| split; [| split]]]];
    [| | apply bpsn_examples_perm | apply bnsp_examples_perm | |].
  - intros r. unfold select. rewrite filter_In. unfold bpsn_member.
    destruct (bcol r sg), (bcol r label); simpl; intuition congruence.
  - intros r. unfold select. rewrite filter_In. unfold bnsp_member.
    destruct (bcol r sg), (bcol r label); simpl; intuition congruence.
  - rewrite compute_bpsn_auc_value, compute_auc_frame. reflexivity.
  - rewrite compute_bnsp_auc_value, compute_auc_frame. reflexivity.
Qed.

(** C6: on the four-record scenario, with the subgroup list [A], the
    returned row has subgroup_size 2 and the three AUC values are all 1. *)
Theorem scenario_metrics :
  compute_bias_metrics_for_model scenario ["A"%string]
                                 "model"%string "toxicity"%string false =
  Ok [{| subgroup := "A"%string;
         subgroup_size := 2;
         subgroup_auc := Num 1;
         background_positive_subgroup_negative_auc := Num 1;
         background_negative_subgroup_positive_auc := Num 1 |}].
Proof. vm_compute. reflexivity. Qed.

(** C7: when all rows of a subgroup of the input list carry the same
    label, [compute_auc] and [compute_subgroup_auc] return NaN for it, the
    two other AUC functions return as well, the call returns a frame, the
    row of that subgroup is in it with [subgroup_auc] NaN, and every row
    of the frame is the record that its own subgroup yields on its own,
    one row per entry of the list. *)
Theorem single_label_subgroup_yields_nan
  (dataset : DataFrame) (subgroups : list string) (model label_col : string)
  (include_asegs : bool) (sg : string) :
  In sg subgroups ->
  (forall r1 r2, In r1 dataset -> In r2 dataset ->
                 bcol r1 sg = true -> bcol r2 sg = true ->
                 bcol r1 label_col = bcol r2 label_col) ->
  let subgroup_examples := select dataset (fun r => bcol r sg) in
  compute_auc (bools subgroup_examples label_col)
              (floats subgroup_examples model) = Ok NaN
  /\ compute_subgroup_auc dataset sg label_col model = Ok NaN
  /\ (exists b c,
         compute_background_positive_subgroup_negative_auc
           dataset sg label_col model = Ok b
         /\ compute_background_negative_subgroup_positive_auc
              dataset sg label_col model = Ok c)
  /\ exists out,
      compute_bias_metrics_for_model dataset subgroups model label_col
                                     include_asegs = Ok out
      /\ (exists r, In r out /\ subgroup r = sg)
      /\ (forall r, In r out -> subgroup r = sg -> subgroup_auc r = NaN)
      /\ (forall r, In r out ->
                    subgroup_record dataset (subgroup r) model label_col
                    = Ok r)
      /\ Permutation (map subgroup out) subgroups.
Proof.
  intros Hsg Hsame. cbv zeta.
  assert (Hnan : auc_of (examples_of (select dataset (fun r => bcol r sg))
                                     label_col model) = NaN).
  { apply single_label_auc_of. intros r1 r2 H1 H2.
    unfold select in H1, H2. apply filter_In in H1, H2.
    destruct H1 as [H1 F1], H2 as [H2 F2]. apply Hsame; assumption. }
  split; [| split; [| split]].
  - rewrite compute_auc_frame, Hnan. reflexivity.
  - rewrite compute_subgroup_auc_value, Hnan. reflexivity.
  - eexists. eexists. split.
    + apply compute_bpsn_auc_value.
    + apply compute_bnsp_auc_value.
  - destruct (compute_bias_metrics_rows dataset model label_col
                include_asegs subgroups) as [out [Hout _]].
    { intros Hnil. rewrite Hnil in Hsg. exact Hsg. }
    exists out. split; [exact Hout |]. split; [| split; [| split]].
    + exists (record_of dataset model label_col sg). split; [| reflexivity].
      eapply compute_bias_metrics_row_of; eassumption.
    + intros r Hr Er.
      destruct (compute_bias_metrics_row_inv _ _ _ _ _ _ r Hout Hr) as [_ E].
      rewrite E, Er. cbn [record_of subgroup_auc]. exact Hnan.
    + intros r Hr.
      destruct (compute_bias_metrics_row_inv _ _ _ _ _ _ r Hout Hr) as [_ E].
      rewrite subgroup_record_value, <- E. reflexivity.
    + eapply compute_bias_metrics_subgroups. exact Hout.
Qed.

Lemma single_label_subgroup_yields_nan_witness :
  compute_subgroup_auc five_true_scenario "A"%string "toxicity"%string
                       "model"%string = Ok NaN
  /\ exists out,
      compute_bias_metrics_for_model five_true_scenario
        ["A"%string; "B"%string] "model"%string "toxicity"%string false
      = Ok out
      /\ (exists r, In r out /\ subgroup r = "A"%string)
      /\ (forall r, In r out -> subgroup r = "A"%string ->
                    subgroup_auc r = NaN).
Proof.
  assert (Hsame : forall r1 r2,
             In r1 five_true_scenario -> In r2 five_true_scenario ->
             bcol r1 "A"%string = true -> bcol r2 "A"%string = true ->
             bcol r1 "toxicity"%string = bcol r2 "toxicity"%string).
  { intros r1 r2 H1 H2 F1 F2.
    unfold five_true_scenario in H1, H2. cbn [In] in H1, H2.
    repeat (destruct H1 as [H1 | H1]); try contradiction; subst r1;
      repeat (destruct H2 as [H2 | H2]); try contradiction; subst r2;
      try reflexivity;
      try (vm_compute in F1; discriminate);
      try (vm_compute in F2; discriminate). }
  pose proof (single_label_subgroup_yields_nan
                five_true_scenario ["A"%string; "B"%string]
                "model"%string "toxicity"%string false "A"%string
                (or_introl eq_refl) Hsame) as H.
  cbv zeta in H.
  destruct H as [_ [Hsub [_ [out [Hout [Hex [Hnan _]]]]]]].
  split; [exact Hsub |].
  exists out. split; [exact Hout |]. split; [exact Hex | exact Hnan].
Defined.

(** C8: [compute_auc] gives the same result on a sequence of
    (label, score) pairs and on any permutation of it, the labels and the
    scores being permuted together. *)
Theorem compute_auc_permutation_invariant (l l' : list example) :
  Permutation l l' ->
  compute_auc (map fst l) (map snd l) = compute_auc (map fst l') (map snd l').
Proof.
  intros H. rewrite !compute_auc_examples. f_equal. apply auc_of_perm. exact H.
Qed.

Lemma compute_auc_permutation_invariant_witness :
  compute_auc [true; false; true] [(9 # 10); (1 # 2); (1 # 10)]%Q =
  compute_auc [false; true; true] [(1 # 2); (9 # 10); (1 # 10)]%Q.
Proof.
  apply (compute_auc_permutation_invariant
           [(true, (9 # 10)%Q); (false, (1 # 2)%Q); (true, (1 # 10)%Q)]
           [(false, (1 # 2)%Q); (true, (9 # 10)%Q); (true, (1 # 10)%Q)]).
  apply perm_swap.
Defined.

(** C9: with at least one positive and one negative label, [compute_auc]
    returns 0 when every positive example scores strictly lower than every
    negative one, and 1/2 when all examples have the same score.  When
    every positive example scores strictly higher than every negative one
    it returns 1 up to the roundings of the trapezoid sum: on [n] examples
    a number between [(1 - 2^-53)^(n + 5)] and [(1 + 2^-53)^(n + 5)]. *)
Theorem compute_auc_separators_rounded (l : list example) :
  In true (map fst l) -> In false (map fst l) ->
  ((forall x y, In x l -> In y l -> fst x = true -> fst y = false ->
                (snd y < snd x)%Q) ->
   exists q, compute_auc (map fst l) (map snd l) = Ok (Num q)
             /\ (rounded_down (length l) <= q)%Q
             /\ (q <= rounded_up (length l))%Q)
  /\
  ((forall x y, In x l -> In y l -> fst x = true -> fst y = false ->
                (snd x < snd y)%Q) ->
   compute_auc (map fst l) (map snd l) = Ok (Num 0))
  /\
  ((forall x y, In x l -> In y l -> (snd x == snd y)%Q) ->
   compute_auc (map fst l) (map snd l) = Ok (Num (1 # 2))).
Proof.
  intros Ht Hf. apply positives_In in Ht. apply negatives_In in Hf.
  rewrite compute_auc_examples, (auc_of_both l Ht Hf).
  split; [| split]; intros H.
  - exists (auc_value l). split; [reflexivity |].
    apply auc_value_separated; assumption.
  - do 2 f_equal. apply auc_value_inverted; assumption.
  - do 2 f_equal. apply auc_value_constant; assumption.
Qed.

Lemma compute_auc_separators_rounded_witness :
  (exists q, compute_auc [true; false] [(9 # 10); (1 # 10)]%Q = Ok (Num q)
             /\ (rounded_down 2 <= q)%Q /\ (q <= rounded_up 2)%Q)
  /\ compute_auc [true; false] [(1 # 10); (9 # 10)]%Q = Ok (Num 0)
  /\ compute_auc [true; false] [(1 # 2); (1 # 2)]%Q = Ok (Num (1 # 2)).
Proof.
  split; [| split].
  - apply (compute_auc_separators_rounded
             [(true, (9 # 10)%Q); (false, (1 # 10)%Q)]);
      [simpl; left; reflexivity | simpl; right; left; reflexivity |].
    intros x y Hx Hy Ex Ey. simpl in Hx, Hy.
    destruct Hx as [Hx | [Hx | []]]; destruct Hy as [Hy | [Hy | []]];
      subst x y; simpl in Ex, Ey; try discriminate.
    reflexivity.
  - apply (compute_auc_separators_rounded
             [(true, (1 # 10)%Q); (false, (9 # 10)%Q)]);
      [simpl; left; reflexivity | simpl; right; left; reflexivity |].
    intros x y Hx Hy Ex Ey. simpl in Hx, Hy.
    destruct Hx as [Hx | [Hx | []]]; destruct Hy as [Hy | [Hy | []]];
      subst x y; simpl in Ex, Ey; try discriminate.
    reflexivity.
  - apply (compute_auc_separators_rounded
             [(true, (1 # 2)%Q); (false, (1 # 2)%Q)]);
      [simpl; left; reflexivity | simpl; right; left; reflexivity |].
    intros x y Hx Hy. simpl in Hx, Hy.
    destruct Hx as [Hx | [Hx | []]]; destruct Hy as [Hy | [Hy | []]];
      subst x y; reflexivity.
Defined.

(** C9, as the specification states it, fails: every positive example of
    [uneven_ties] scores strictly higher than every negative one, and the
    result is [1 - 2^-53], the float below 1: the negative examples are in
    tie groups of one, four and two, and the three rounded steps of the
    false-positive rate do not add up to 1. *)
Lemma compute_auc_separated_below_one :
  In true (map fst uneven_ties) /\ In false (map fst uneven_ties)
  /\ separated uneven_ties
  /\ compute_auc (map fst uneven_ties) (map snd uneven_ties) =
     Ok (Num (9007199254740991 # 9007199254740992))
  /\ compute_auc (map fst uneven_ties) (map snd uneven_ties) <> Ok (Num 1).
Proof.
  assert (E : compute_auc (map fst uneven_ties) (map snd uneven_ties) =
              Ok (Num (9007199254740991 # 9007199254740992)))
    by (vm_compute; reflexivity).
  split; [simpl; left; reflexivity |].
  split; [simpl; right; left; reflexivity |].
  split.
  - intros x y Hx Hy Ex Ey. unfold uneven_ties in Hx, Hy.
    cbn [In] in Hx, Hy.
    repeat (destruct Hx as [Hx | Hx]; [subst x; cbn [fst] in Ex;
                                       try discriminate Ex |]);
      try contradiction;
      repeat (destruct Hy as [Hy | Hy]; [subst y; cbn [fst] in Ey;
                                         try discriminate Ey;
                                         reflexivity |]);
      contradiction.
  - split; [exact E |]. rewrite E. discriminate.
Qed.

(** C10: [compute_subgroup_auc] depends only on the multiset of
    (label, score) pairs of the rows flagged for the subgroup: two
    datasets whose flagged rows give the same pairs, in any order, get the
    same result, whatever their other rows are. *)
Theorem compute_subgroup_auc_depends_on_flagged_rows
  (df1 df2 : DataFrame) (sg label model_name : string) :
  Permutation
    (examples_of (select df1 (fun r => bcol r sg)) label model_name)
    (examples_of (select df2 (fun r => bcol r sg)) label model_name) ->
  compute_subgroup_auc df1 sg label model_name =
  compute_subgroup_auc df2 sg label model_name.
Proof.
  intros H. rewrite !compute_subgroup_auc_value. f_equal.
  apply auc_of_perm. exact H.
Qed.

Lemma compute_subgroup_auc_depends_on_flagged_rows_witness :
  compute_subgroup_auc scenario "A"%string "toxicity"%string "model"%string =
  compute_subgroup_auc scenario_other_background
                       "A"%string "toxicity"%string "model"%string.
Proof.
  apply (compute_subgroup_auc_depends_on_flagged_rows
           scenario scenario_other_background
           "A"%string "toxicity"%string "model"%string).
  apply perm_swap.
Defined.


(** * Further properties of the notebook *)

(** ** More on [compute_auc] *)

Lemma auc_of_nan_iff (l : list example) :
  auc_of l = NaN <-> ~ In true (map fst l) \/ ~ In false (map fst l).
Proof.
  rewrite positives_In, negatives_In.
  pose proof (positives_nonneg l) as Hp.
  pose proof (negatives_nonneg l) as Hn.
  split.
  - intros H.
    destruct (Z.eq_dec (positives l) 0) as [Ep | Ep]; [left; lia |].
    destruct (Z.eq_dec (negatives l) 0) as [En | En]; [right; lia |].
    rewrite auc_of_both in H by lia. discriminate.
  - intros [H | H]; apply auc_of_one_class; [left | right]; lia.
Qed.

(** X1: [compute_auc] returns on every input, and it returns NaN exactly
    when the two sequences differ in length or the labels lack a [true] or
    lack a [false]: a length mismatch is reported as NaN as well. *)
Theorem compute_auc_nan_iff (y_true : list bool) (y_pred : list Q) :
  (exists v, compute_auc y_true y_pred = Ok v)
  /\ (compute_auc y_true y_pred = Ok NaN <->
      length y_true <> length y_pred
      \/ ~ In true y_true \/ ~ In false y_true).
Proof.
  destruct (Nat.eq_dec (length y_true) (length y_pred)) as [Hlen | Hlen].
  - rewrite (compute_auc_same_length _ _ Hlen).
    destruct (map_fst_combine y_true y_pred Hlen) as [Hfst _].
    split; [eexists; reflexivity |].
    pose proof (auc_of_nan_iff (combine y_true y_pred)) as Hiff.
    rewrite Hfst in Hiff. split.
    + intros H. right. apply Hiff. congruence.
    + intros [H | H]; [contradiction |]. f_equal. apply Hiff. exact H.
  - unfold compute_auc. rewrite (roc_auc_score_mismatch _ _ Hlen).
    split; [eexists; reflexivity |].
    split; [intros _; left; exact Hlen | reflexivity].
Qed.

Lemma combine_map_l {A B C : Type} (f : A -> C) (l1 : list A) :
  forall (l2 : list B),
    combine (map f l1) l2 = map (fun x => (f (fst x), snd x)) (combine l1 l2).
Proof.
  induction l1 as [| a l1 IH]; intros [| b l2]; try reflexivity.
  cbn [map combine fst snd]. rewrite IH. reflexivity.
Qed.

Lemma combine_map_r {A B C : Type} (f : B -> C) (l1 : list A) :
  forall (l2 : list B),
    combine l1 (map f l2) = map (fun x => (fst x, f (snd x))) (combine l1 l2).
Proof.
  induction l1 as [| a l1 IH]; intros [| b l2]; try reflexivity.
  cbn [map combine fst snd]. rewrite IH. reflexivity.
Qed.

Lemma Qle_bool_compare a b :
  Qle_bool a b = match (a ?= b)%Q with Gt => false | _ => true end.
Proof.
  pose proof (Qcompare_cases a b) as H.
  destruct (a ?= b)%Q.
  - apply Qle_bool_iff. rewrite H. apply Qle_refl.
  - apply Qle_bool_iff. apply Qlt_le_weak, H.
  - destruct (Qle_bool a b) eqn:E; [| reflexivity].
    apply Qle_bool_iff in E. exfalso. exact (Qlt_not_le _ _ H E).
Qed.

(** A transformation of the scores that keeps the comparisons keeps the
    curve. *)
Lemma curve_of_map_scores (f : Q -> Q) (l : list example) :
  (forall a b, In a (map snd l) -> In b (map snd l) ->
               (f a ?= f b)%Q = (a ?= b)%Q) ->
  curve_of (map (fun x => (fst x, f (snd x))) l) = curve_of l.
Proof.
  intros Hf. set (g := fun x : example => (fst x, f (snd x))).
  assert (Hpt : forall x, In x l ->
              point_at (map g l) (f (snd x)) = point_at l (snd x)).
  { intros x Hx. unfold point_at, count_ge. rewrite !sumZ_map.
    f_equal; apply sumZ_ext; intros y Hy; unfold g; cbn [fst snd];
      rewrite !Qle_bool_compare, Hf; try reflexivity;
      apply in_map; assumption. }
  apply curve_of_ext. intros p. split.
  - intros [x' [Hx' Hp]]. apply in_map_iff in Hx'.
    destruct Hx' as [x [E Hx]]. subst x'. exists x. split; [exact Hx |].
    rewrite Hp. change (snd (g x)) with (f (snd x)). apply Hpt. exact Hx.
  - intros [x [Hx Hp]]. exists (g x). split; [apply in_map; exact Hx |].
    rewrite Hp. change (snd (g x)) with (f (snd x)).
    symmetry. apply Hpt. exact Hx.
Qed.

(** X5: [compute_auc] depends on the scores through their order only: a
    transformation of the scores that keeps every comparison between two
    of them (a strictly increasing one) leaves the result unchanged. *)
Theorem compute_auc_order_preserving_scores
  (f : Q -> Q) (y_true : list bool) (y_pred : list Q) :
  (forall a b, In a y_pred -> In b y_pred -> (f a ?= f b)%Q = (a ?= b)%Q) ->
  compute_auc y_true (map f y_pred) = compute_auc y_true y_pred.
Proof.
  intros Hf.
  destruct (Nat.eq_dec (length y_true) (length y_pred)) as [Hlen | Hlen].
  - rewrite (compute_auc_same_length _ _ Hlen).
    rewrite compute_auc_same_length by (rewrite length_map; exact Hlen).
    f_equal. rewrite combine_map_r.
    set (l := combine y_true y_pred).
    assert (Hp : positives (map (fun x => (fst x, f (snd x))) l) = positives l).
    { unfold positives. rewrite sumZ_map. reflexivity. }
    assert (Hn : negatives (map (fun x => (fst x, f (snd x))) l) = negatives l).
    { unfold negatives. rewrite sumZ_map. reflexivity. }
    assert (Hv : auc_value (map (fun x => (fst x, f (snd x))) l) =
                 auc_value l).
    { apply auc_value_curve, curve_of_map_scores.
      intros a b Ha Hb. apply in_map_iff in Ha, Hb.
      destruct Ha as [[bx sx] [Ea Hx]], Hb as [[b_y sy] [Eb Hy]].
      cbn [snd] in Ea, Eb. subst a b.
      apply Hf; [apply (in_combine_r _ _ _ _ Hx)
                | apply (in_combine_r _ _ _ _ Hy)]. }
    unfold auc_of. rewrite Hp, Hn, Hv. reflexivity.
  - unfold compute_auc.
    rewrite (roc_auc_score_mismatch y_true y_pred Hlen).
    rewrite roc_auc_score_mismatch by (rewrite length_map; exact Hlen).
    reflexivity.
Qed.

Lemma compute_auc_order_preserving_scores_witness :
  compute_auc [true; false; true]
              (map (fun q => 2 * q + 1)%Q [(9 # 10); (1 # 2); (1 # 10)]%Q) =
  compute_auc [true; false; true] [(9 # 10); (1 # 2); (1 # 10)]%Q.
Proof.
  apply (compute_auc_order_preserving_scores
           (fun q => 2 * q + 1)%Q [true; false; true]
           [(9 # 10); (1 # 2); (1 # 10)]%Q).
  intros a b Ha Hb. simpl in Ha, Hb.
  destruct Ha as [Ha | [Ha | [Ha | []]]];
    destruct Hb as [Hb | [Hb | [Hb | []]]];
    subst a b; reflexivity.
Defined.

(** ** When the three metrics are defined *)

Lemma examples_positive_iff (d : DataFrame) (label model_name : string) :
  0 < positives (examples_of d label model_name) <->
  exists r, In r d /\ bcol r label = true.
Proof.
  rewrite <- positives_In. unfold examples_of. rewrite map_map. cbn [fst].
  rewrite in_map_iff. split; intros [r [H1 H2]]; exists r; auto.
Qed.

Lemma examples_negative_iff (d : DataFrame) (label model_name : string) :
  0 < negatives (examples_of d label model_name) <->
  exists r, In r d /\ bcol r label = false.
Proof.
  rewrite <- negatives_In. unfold examples_of. rewrite map_map. cbn [fst].
  rewrite in_map_iff. split; intros [r [H1 H2]]; exists r; auto.
Qed.

Lemma auc_of_defined_iff (l : list example) :
  isna (auc_of l) = false <-> 0 < positives l /\ 0 < negatives l.
Proof.
  unfold auc_of. split.
  - intros H. destruct ((0 <? positives l) && (0 <? negatives l)) eqn:E;
      [| discriminate].
    apply andb_true_iff in E. destruct E as [Ep En].
    apply Z.ltb_lt in Ep, En. auto.
  - intros [Hp Hn].
    rewrite (proj2 (Z.ltb_lt _ _) Hp), (proj2 (Z.ltb_lt _ _) Hn).
    reflexivity.
Qed.

Lemma frame_auc_defined_iff (d : DataFrame) (label model_name : string) :
  isna (auc_of (examples_of d label model_name)) = false <->
  (exists r, In r d /\ bcol r label = true)
  /\ (exists r, In r d /\ bcol r label = false).
Proof.
  rewrite auc_of_defined_iff, examples_positive_iff, examples_negative_iff.
  reflexivity.
Qed.

(** X7: each of the three AUC functions returns on every frame, and its
    result is a number (not NaN) exactly when both groups it compares are
    inhabited: a positive and a negative row of the subgroup for the
    subgroup AUC; a background positive and a subgroup negative row for
    the first cross AUC; a subgroup positive and a background negative row
    for the second. *)
Theorem metrics_defined_iff (df : DataFrame) (sg label model_name : string) :
  (exists v,
      compute_subgroup_auc df sg label model_name = Ok v
      /\ (isna v = false <->
          (exists r, In r df /\ bcol r sg = true /\ bcol r label = true)
          /\ (exists r, In r df /\ bcol r sg = true /\ bcol r label = false)))
  /\ (exists v,
         compute_background_positive_subgroup_negative_auc
           df sg label model_name = Ok v
         /\ (isna v = false <->
             (exists r, In r df /\ bcol r sg = false /\ bcol r label = true)
             /\ (exists r, In r df /\ bcol r sg = true
                           /\ bcol r label = false)))
  /\ (exists v,
         compute_background_negative_subgroup_positive_auc
           df sg label model_name = Ok v
         /\ (isna v = false <->
             (exists r, In r df /\ bcol r sg = true /\ bcol r label = true)
             /\ (exists r, In r df /\ bcol r sg = false
                           /\ bcol r label = false))).
Proof.
  split; [| split]; eexists;
    (split;
     [first [apply compute_subgroup_auc_value | apply compute_bpsn_auc_value
            | apply compute_bnsp_auc_value] |]);
    rewrite frame_auc_defined_iff; unfold select;
    split; intros [[r1 [H1 L1]] [r2 [H2 L2]]].
  - apply filter_In in H1, H2. split; [exists r1 | exists r2]; tauto.
  - split; [exists r1 | exists r2];
      (split; [apply filter_In |]); tauto.
  - apply filter_In in H1, H2. unfold bpsn_member in H1, H2.
    destruct H1 as [H1 M1], H2 as [H2 M2]. rewrite L1 in M1. rewrite L2 in M2.
    split; [exists r1 | exists r2];
      destruct (bcol r1 sg), (bcol r2 sg); simpl in *; try discriminate; auto.
  - destruct L1 as [S1 L1], L2 as [S2 L2].
    split; [exists r1 | exists r2];
      (split; [apply filter_In; split; [assumption |] | assumption]);
      unfold bpsn_member;
      [rewrite S1, L1 | rewrite S2, L2]; reflexivity.
  - apply filter_In in H1, H2. unfold bnsp_member in H1, H2.
    destruct H1 as [H1 M1], H2 as [H2 M2]. rewrite L1 in M1. rewrite L2 in M2.
    split; [exists r1 | exists r2];
      destruct (bcol r1 sg), (bcol r2 sg); simpl in *; try discriminate; auto.
  - destruct L1 as [S1 L1], L2 as [S2 L2].
    split; [exists r1 | exists r2];
      (split; [apply filter_In; split; [assumption |] | assumption]);
      unfold bnsp_member;
      [rewrite S1, L1 | rewrite S2, L2]; reflexivity.
Qed.

Lemma bpsn_member_positive sg label r :
  bcol r label = true -> bpsn_member sg label r = negb (bcol r sg).
Proof.
  intros L. unfold bpsn_member. rewrite L. destruct (bcol r sg); reflexivity.
Qed.

Lemma bpsn_member_negative sg label r :
  bcol r label = false -> bpsn_member sg label r = bcol r sg.
Proof.
  intros L. unfold bpsn_member. rewrite L. destruct (bcol r sg); reflexivity.
Qed.

Lemma bnsp_member_positive sg label r :
  bcol r label = true -> bnsp_member sg label r = bcol r sg.
Proof.
  intros L. unfold bnsp_member. rewrite L. destruct (bcol r sg); reflexivity.
Qed.

Lemma bnsp_member_negative sg label r :
  bcol r label = false -> bnsp_member sg label r = negb (bcol r sg).
Proof.
  intros L. unfold bnsp_member. rewrite L. destruct (bcol r sg); reflexivity.
Qed.

Lemma bpsn_set_classes (df : DataFrame) (sg label : string) :
  (exists r, In r (select df (bpsn_member sg label)) /\ bcol r label = true)
  /\ (exists r, In r (select df (bpsn_member sg label)) /\ bcol r label = false)
  <->
  (exists r, In r df /\ bcol r sg = false /\ bcol r label = true)
  /\ (exists r, In r df /\ bcol r sg = true /\ bcol r label = false).
Proof.
  assert (Hin : forall r, In r (select df (bpsn_member sg label)) <->
                          In r df /\ bpsn_member sg label r = true)
    by (intros r; apply filter_In).
  split; intros [[r1 H1] [r2 H2]]; split.
  - exists r1. destruct H1 as [H1 L1]. apply Hin in H1.
    rewrite (bpsn_member_positive sg label r1 L1) in H1.
    destruct (bcol r1 sg); simpl in H1; intuition congruence.
  - exists r2. destruct H2 as [H2 L2]. apply Hin in H2.
    rewrite (bpsn_member_negative sg label r2 L2) in H2. tauto.
  - exists r1. destruct H1 as [H1 [S1 L1]]. split; [| exact L1].
    apply Hin. rewrite (bpsn_member_positive sg label r1 L1), S1. auto.
  - exists r2. destruct H2 as [H2 [S2 L2]]. split; [| exact L2].
    apply Hin. rewrite (bpsn_member_negative sg label r2 L2), S2. auto.
Qed.

Lemma bnsp_set_classes (df : DataFrame) (sg label : string) :
  (exists r, In r (select df (bnsp_member sg label)) /\ bcol r label = true)
  /\ (exists r, In r (select df (bnsp_member sg label)) /\ bcol r label = false)
  <->
  (exists r, In r df /\ bcol r sg = true /\ bcol r label = true)
  /\ (exists r, In r df /\ bcol r sg = false /\ bcol r label = false).
Proof.
  assert (Hin : forall r, In r (select df (bnsp_member sg label)) <->
                          In r df /\ bnsp_member sg label r = true)
    by (intros r; apply filter_In).
  split; intros [[r1 H1] [r2 H2]]; split.
  - exists r1. destruct H1 as [H1 L1]. apply Hin in H1.
    rewrite (bnsp_member_positive sg label r1 L1) in H1. tauto.
  - exists r2. destruct H2 as [H2 L2]. apply Hin in H2.
    rewrite (bnsp_member_negative sg label r2 L2) in H2.
    destruct (bcol r2 sg); simpl in H2; intuition congruence.
  - exists r1. destruct H1 as [H1 [S1 L1]]. split; [| exact L1].
    apply Hin. rewrite (bnsp_member_positive sg label r1 L1), S1. auto.
  - exists r2. destruct H2 as [H2 [S2 L2]]. split; [| exact L2].
    apply Hin. rewrite (bnsp_member_negative sg label r2 L2), S2. auto.
Qed.


(** ** The rows of the returned frame *)

Lemma rounded_up_mono (n m : nat) :
  (n <= m)%nat -> (rounded_up n <= rounded_up m)%Q.
Proof.
  intros H. unfold rounded_up. apply qpow_hi_mono; [apply hi_bounds | lia].
Qed.

Lemma rounded_down_anti (n m : nat) :
  (n <= m)%nat -> (rounded_down m <= rounded_down n)%Q.
Proof.
  intros H. unfold rounded_down. destruct lo_bounds as [H0 H1].
  apply qpow_lo_anti; [apply Qlt_le_weak, H0 | exact H1 | lia].
Qed.

Lemma auc_of_nan_or_bounded (n : nat) (l : list example) :
  (length l <= n)%nat -> nan_or_bounded n (auc_of l).
Proof.
  intros Hlen. unfold auc_of.
  destruct ((0 <? positives l) && (0 <? negatives l)) eqn:E; [| exact I].
  apply andb_true_iff in E. destruct E as [Ep En].
  apply Z.ltb_lt in Ep, En.
  destruct (auc_value_range l Ep En) as [H0 H1].
  split; [exact H0 |].
  eapply Qle_trans; [exact H1 | apply rounded_up_mono, Hlen].
Qed.

Lemma frame_auc_nan_or_bounded (dataset : DataFrame) (f : row -> bool)
  (label model_name : string) :
  nan_or_bounded (length dataset)
    (auc_of (examples_of (select dataset f) label model_name)).
Proof.
  apply auc_of_nan_or_bounded. unfold examples_of, select.
  rewrite length_map. apply filter_length_le.
Qed.

Lemma filter_length_lt {A : Type} (f : A -> bool) (l : list A) x :
  In x l -> f x = false -> (length (filter f l) < length l)%nat.
Proof.
  induction l as [| a l IH]; intros Hx Hf; [destruct Hx |].
  cbn [filter length]. pose proof (filter_length_le f l) as Hle.
  destruct Hx as [Hx | Hx].
  - subst a. rewrite Hf. lia.
  - specialize (IH Hx Hf). destruct (f a); cbn [length]; lia.
Qed.

Lemma filter_length_pos {A : Type} (f : A -> bool) (l : list A) x :
  In x l -> f x = true -> (1 <= length (filter f l))%nat.
Proof.
  intros Hx Hf.
  assert (Hin : In x (filter f l)) by (apply filter_In; auto).
  destruct (filter f l); [destruct Hin | cbn [length]; lia].
Qed.

(** X11: every row of the returned frame belongs to a subgroup of the
    input list; its size is at most the number of rows of the dataset;
    each of its three AUC values is NaN or a number that is not negative
    and exceeds 1 by the roundings of the trapezoid sum at most (at most
    [(1 + 2^-53)^(n + 5)] on a dataset of [n] rows); a subgroup AUC that
    is a number needs at least two rows in the subgroup, and a cross AUC
    that is a number needs at least one row in the subgroup and at least
    one outside it. *)
Theorem returned_row_invariants
  (dataset : DataFrame) (subgroups : list string) (model label_col : string)
  (include_asegs : bool) (out : list record) (r : record) :
  compute_bias_metrics_for_model dataset subgroups model label_col
                                 include_asegs = Ok out ->
  In r out ->
  In (subgroup r) subgroups
  /\ (subgroup_size r <= length dataset)%nat
  /\ nan_or_bounded (length dataset) (subgroup_auc r)
  /\ nan_or_bounded (length dataset)
                    (background_positive_subgroup_negative_auc r)
  /\ nan_or_bounded (length dataset)
                    (background_negative_subgroup_positive_auc r)
  /\ (isna (subgroup_auc r) = false -> (2 <= subgroup_size r)%nat)
  /\ (isna (background_positive_subgroup_negative_auc r) = false ->
      (1 <= subgroup_size r < length dataset)%nat)
  /\ (isna (background_negative_subgroup_positive_auc r) = false ->
      (1 <= subgroup_size r < length dataset)%nat).
Proof.
  intros Hout Hr.
  destruct (compute_bias_metrics_row_inv _ _ _ _ _ _ r Hout Hr) as [Hin E].
  set (sg := subgroup r) in *. rewrite E.
  cbn [record_of subgroup_size subgroup_auc
       background_positive_subgroup_negative_auc
       background_negative_subgroup_positive_auc].
  split; [exact Hin |]. split; [apply filter_length_le |].
  split; [apply frame_auc_nan_or_bounded |].
  split; [apply frame_auc_nan_or_bounded |].
  split; [apply frame_auc_nan_or_bounded |].
  split; [| split].
  - intros Hd. apply auc_of_defined_iff in Hd. destruct Hd as [Hp Hn].
    pose proof (positives_plus_negatives
                  (examples_of (select dataset (fun r0 => bcol r0 sg))
                               label_col model)) as Hlen.
    unfold examples_of in Hlen at 3. rewrite length_map in Hlen. lia.
  - intros Hd. apply frame_auc_defined_iff in Hd.
    apply bpsn_set_classes in Hd.
    destruct Hd as [[r1 [H1 [S1 _]]] [r2 [H2 [S2 _]]]]. unfold select. split.
    + apply (filter_length_pos _ _ r2 H2 S2).
    + apply (filter_length_lt _ _ r1 H1 S1).
  - intros Hd. apply frame_auc_defined_iff in Hd.
    apply bnsp_set_classes in Hd.
    destruct Hd as [[r1 [H1 [S1 _]]] [r2 [H2 [S2 _]]]]. unfold select. split.
    + apply (filter_length_pos _ _ r1 H1 S1).
    + apply (filter_length_lt _ _ r2 H2 S2).
Qed.

Lemma returned_row_invariants_witness :
  In "A"%string ["A"%string]
  /\ (2 <= length scenario)%nat
  /\ nan_or_bounded (length scenario) (Num 1)
  /\ (isna (Num 1) = false -> (2 <= 2)%nat).
Proof.
  pose proof (returned_row_invariants
                scenario ["A"%string] "model"%string "toxicity"%string false
                _ {| subgroup := "A"%string;
                     subgroup_size := 2;
                     subgroup_auc := Num 1;
                     background_positive_subgroup_negative_auc := Num 1;
                     background_negative_subgroup_positive_auc := Num 1 |}
                eq_refl (or_introl eq_refl)) as H.
  cbn [subgroup subgroup_size subgroup_auc] in H.
  destruct H as [H1 [H2 [H3 [_ [_ [H6 _]]]]]].
  split; [exact H1 |]. split; [exact H2 |]. split; [exact H3 | exact H6].
Defined.

(** ** Order of the inputs *)

Lemma Permutation_filter_compat {A : Type} (f : A -> bool) (l l' : list A) :
  Permutation l l' -> Permutation (filter f l) (filter f l').
Proof.
  induction 1 as [| x l l' H IH | x y l | l l' l'' H1 IH1 H2 IH2].
  - constructor.
  - cbn [filter]. destruct (f x); [constructor |]; exact IH.
  - cbn [filter]. destruct (f x), (f y);
      try apply Permutation_refl. apply perm_swap.
  - eapply Permutation_trans; eassumption.
Qed.

Lemma record_of_perm (dataset dataset' : DataFrame)
  (model label_col sg : string) :
  Permutation dataset dataset' ->
  record_of dataset model label_col sg = record_of dataset' model label_col sg.
Proof.
  intros H. unfold record_of, select.
  rewrite (Permutation_length (Permutation_filter_compat
                                 (fun r => bcol r sg) _ _ H)).
  rewrite (auc_of_perm _ _ (examples_of_perm _ _ label_col model
             (Permutation_filter_compat (fun r => bcol r sg) _ _ H))).
  rewrite (auc_of_perm _ _ (examples_of_perm _ _ label_col model
             (Permutation_filter_compat (bpsn_member sg label_col) _ _ H))).
  rewrite (auc_of_perm _ _ (examples_of_perm _ _ label_col model
             (Permutation_filter_compat (bnsp_member sg label_col) _ _ H))).
  reflexivity.
Qed.

(** X12: the order of the rows of the dataset does not matter:
    [compute_bias_metrics_for_model] gives the same outcome on a dataset
    and on any permutation of its rows. *)
Theorem compute_bias_metrics_dataset_order
  (dataset dataset' : DataFrame) (subgroups : list string)
  (model label_col : string) (include_asegs : bool) :
  Permutation dataset dataset' ->
  compute_bias_metrics_for_model dataset subgroups model label_col
                                 include_asegs =
  compute_bias_metrics_for_model dataset' subgroups model label_col
                                 include_asegs.
Proof.
  intros H. rewrite !compute_bias_metrics_value. f_equal.
  apply map_ext. intros sg. apply record_of_perm. exact H.
Qed.

Lemma compute_bias_metrics_dataset_order_witness :
  compute_bias_metrics_for_model
    scenario ["A"%string] "model"%string "toxicity"%string false =
  compute_bias_metrics_for_model
    (rev scenario) ["A"%string] "model"%string "toxicity"%string false.
Proof.
  apply (compute_bias_metrics_dataset_order
           scenario (rev scenario) ["A"%string]
           "model"%string "toxicity"%string false).
  apply Permutation_rev.
Defined.

(** X13: the order of the subgroup list matters for the order of tied
    rows at most: on a permutation of the list the call raises if it
    raised, and otherwise returns the same rows, possibly in another
    order. *)
Theorem compute_bias_metrics_subgroup_order
  (dataset : DataFrame) (subgroups subgroups' : list string)
  (model label_col : string) (include_asegs : bool) :
  Permutation subgroups subgroups' ->
  match compute_bias_metrics_for_model dataset subgroups model label_col
                                       include_asegs,
        compute_bias_metrics_for_model dataset subgroups' model label_col
                                       include_asegs with
  | Ok out, Ok out' => Permutation out out'
  | Raise e, Raise e' => e = e'
  | _, _ => False
  end.
Proof.
  intros H. rewrite !compute_bias_metrics_value.
  pose proof (Permutation_map (record_of dataset model label_col) H) as Hm.
  destruct (map (record_of dataset model label_col) subgroups)
    as [| r rs] eqn:E.
  - apply Permutation_nil in Hm. rewrite Hm. reflexivity.
  - destruct (map (record_of dataset model label_col) subgroups')
      as [| r' rs'] eqn:E'.
    + apply Permutation_sym, Permutation_nil in Hm. discriminate.
    + destruct (sort_values_subgroup_auc (r :: rs)) as [out | e] eqn:Eo;
        [| discriminate].
      destruct (sort_values_subgroup_auc (r' :: rs')) as [out' | e'] eqn:Eo';
        [| discriminate].
      apply sort_values_perm in Eo, Eo'.
      eapply Permutation_trans; [apply Permutation_sym; exact Eo |].
      eapply Permutation_trans; [exact Hm | exact Eo'].
Qed.

Lemma compute_bias_metrics_subgroup_order_witness :
  match compute_bias_metrics_for_model
          five_true_scenario ["A"%string; "B"%string]
          "model"%string "toxicity"%string false,
        compute_bias_metrics_for_model
          five_true_scenario ["B"%string; "A"%string]
          "model"%string "toxicity"%string false with
  | Ok out, Ok out' => Permutation out out'
  | Raise e, Raise e' => e = e'
  | _, _ => False
  end.
Proof.
  apply (compute_bias_metrics_subgroup_order
           five_true_scenario ["A"%string; "B"%string]
           ["B"%string; "A"%string] "model"%string "toxicity"%string false).
  apply perm_swap.
Defined.

(** ** The overall AUC and the edge cases of a subgroup *)

(** X14: [calculate_overall_auc] has no handler: it raises [ValueError]
    exactly when the toxicity labels of the frame lack a [true] or lack a
    [false] (an empty frame included), where [compute_auc] returns NaN;
    otherwise it returns the number [compute_auc] returns, which is not
    negative and exceeds 1 by the roundings of the trapezoid sum at
    most. *)
Theorem calculate_overall_auc_raises_iff
  (df : DataFrame) (model_name : string) :
  match calculate_overall_auc df model_name with
  | Ok a =>
      In true (bools df TOXICITY_COLUMN)
      /\ In false (bools df TOXICITY_COLUMN)
      /\ (0 <= a)%Q /\ (a <= rounded_up (length df))%Q
      /\ compute_auc (bools df TOXICITY_COLUMN) (floats df model_name)
         = Ok (Num a)
  | Raise e =>
      e = ValueError
      /\ (~ In true (bools df TOXICITY_COLUMN)
          \/ ~ In false (bools df TOXICITY_COLUMN))
      /\ compute_auc (bools df TOXICITY_COLUMN) (floats df model_name)
         = Ok NaN
  end.
Proof.
  unfold calculate_overall_auc, compute_auc. cbv zeta.
  set (y := bools df TOXICITY_COLUMN). set (s := floats df model_name).
  assert (Hy : length y = length df)
    by (unfold y, bools; rewrite length_map; reflexivity).
  assert (Hlen : length y = length s)
    by (unfold y, s, bools, floats; rewrite !length_map; reflexivity).
  destruct (existsb (fun b => b) y && existsb negb y) eqn:E.
  - apply andb_true_iff in E. destruct E as [Et Ef].
    rewrite (roc_auc_score_value y s Hlen Et Ef).
    destruct (map_fst_combine y s Hlen) as [Hfst _].
    apply existsb_id_In in Et. apply existsb_negb_In in Ef.
    split; [exact Et |]. split; [exact Ef |].
    assert (Hl : length (combine y s) = length df)
      by (rewrite length_combine; lia).
    assert (Hr : (0 <= auc_value (combine y s)
                  /\ auc_value (combine y s)
                     <= rounded_up (length (combine y s)))%Q).
    { apply auc_value_range;
        [apply positives_In | apply negatives_In]; rewrite Hfst; assumption. }
    rewrite Hl in Hr.
    destruct Hr as [H0 H1]. split; [exact H0 |]. split; [exact H1 |].
    reflexivity.
  - rewrite (roc_auc_score_undefined y s E).
    split; [reflexivity |]. split; [| reflexivity].
    apply andb_false_iff in E. destruct E as [E | E]; [left | right];
      intros H; [apply existsb_id_In in H | apply existsb_negb_In in H];
      congruence.
Qed.

Lemma filter_all {A : Type} (f : A -> bool) (l : list A) :
  (forall x, In x l -> f x = true) -> filter f l = l.
Proof.
  induction l as [| a l IH]; intros H; [reflexivity |].
  cbn [filter]. rewrite (H a (or_introl eq_refl)). f_equal.
  apply IH. intros x Hx. apply H. right. exact Hx.
Qed.

Lemma filter_none {A : Type} (f : A -> bool) (l : list A) :
  (forall x, In x l -> f x = false) -> filter f l = [].
Proof.
  induction l as [| a l IH]; intros H; [reflexivity |].
  cbn [filter]. rewrite (H a (or_introl eq_refl)).
  apply IH. intros x Hx. apply H. right. exact Hx.
Qed.

Lemma frame_auc_nan (d : DataFrame) (label model_name : string) :
  ~ (exists r, In r d /\ bcol r label = true)
  \/ ~ (exists r, In r d /\ bcol r label = false) ->
  auc_of (examples_of d label model_name) = NaN.
Proof.
  intros H. apply auc_of_one_class.
  pose proof (positives_nonneg (examples_of d label model_name)) as Hp.
  pose proof (negatives_nonneg (examples_of d label model_name)) as Hn.
  destruct H as [H | H]; [left | right].
  - destruct (Z.eq_dec (positives (examples_of d label model_name)) 0)
      as [E | E]; [exact E |].
    exfalso. apply H. apply (examples_positive_iff d label model_name). lia.
  - destruct (Z.eq_dec (negatives (examples_of d label model_name)) 0)
      as [E | E]; [exact E |].
    exfalso. apply H. apply (examples_negative_iff d label model_name). lia.
Qed.

(** X15: for a subgroup that holds every row of the dataset, the
    subgroup AUC is the AUC of the whole dataset and the two cross AUCs
    are NaN, there being no background. *)
Theorem subgroup_of_all_rows (df : DataFrame) (sg label model_name : string) :
  (forall r, In r df -> bcol r sg = true) ->
  compute_subgroup_auc df sg label model_name =
  compute_auc (bools df label) (floats df model_name)
  /\ compute_background_positive_subgroup_negative_auc df sg label model_name
     = Ok NaN
  /\ compute_background_negative_subgroup_positive_auc df sg label model_name
     = Ok NaN.
Proof.
  intros Hall. split; [| split].
  - unfold compute_subgroup_auc, select. cbv zeta.
    rewrite (filter_all _ df Hall). reflexivity.
  - rewrite compute_bpsn_auc_value. f_equal. apply frame_auc_nan.
    left. intros [r [Hr L]]. apply filter_In in Hr. destruct Hr as [Hr M].
    rewrite (bpsn_member_positive sg label r L), (Hall r Hr) in M.
    discriminate.
  - rewrite compute_bnsp_auc_value. f_equal. apply frame_auc_nan.
    right. intros [r [Hr L]]. apply filter_In in Hr. destruct Hr as [Hr M].
    rewrite (bnsp_member_negative sg label r L), (Hall r Hr) in M.
    discriminate.
Qed.

Lemma subgroup_of_all_rows_witness :
  compute_subgroup_auc [scenario_row true (9 # 10) true false;
                        scenario_row false (1 # 10) true false]
                       "A"%string "toxicity"%string "model"%string =
  compute_auc [true; false] [(9 # 10); (1 # 10)]%Q.
Proof.
  apply (subgroup_of_all_rows
           [scenario_row true (9 # 10) true false;
            scenario_row false (1 # 10) true false]
           "A"%string "toxicity"%string "model"%string).
  intros r Hr. simpl in Hr. destruct Hr as [Hr | [Hr | []]];
    subst r; reflexivity.
Defined.

(** X16: for a subgroup of the input list that no row of the dataset
    belongs to (every subgroup, on an empty dataset), the call still
    returns, and the row of that subgroup has size 0 and NaN for its three
    AUC values. *)
Theorem subgroup_without_rows
  (dataset : DataFrame) (subgroups : list string) (model label_col : string)
  (include_asegs : bool) (sg : string) :
  In sg subgroups ->
  (forall r, In r dataset -> bcol r sg = false) ->
  let empty_row :=
    {| subgroup := sg;
       subgroup_size := 0;
       subgroup_auc := NaN;
       background_positive_subgroup_negative_auc := NaN;
       background_negative_subgroup_positive_auc := NaN |} in
  exists out,
    compute_bias_metrics_for_model dataset subgroups model label_col
                                   include_asegs = Ok out
    /\ In empty_row out
    /\ forall r, In r out -> subgroup r = sg -> r = empty_row.
Proof.
  intros Hsg Hnone. cbv zeta.
  assert (Hrec : record_of dataset model label_col sg =
                 {| subgroup := sg;
                    subgroup_size := 0;
                    subgroup_auc := NaN;
                    background_positive_subgroup_negative_auc := NaN;
                    background_negative_subgroup_positive_auc := NaN |}).
  { unfold record_of. unfold select at 1 2.
    rewrite (filter_none _ dataset Hnone). cbn [length examples_of map].
    f_equal.
    - apply frame_auc_nan. right. intros [r [Hr L]].
      apply filter_In in Hr. destruct Hr as [Hr M].
      rewrite (bpsn_member_negative sg label_col r L), (Hnone r Hr) in M.
      discriminate.
    - apply frame_auc_nan. left. intros [r [Hr L]].
      apply filter_In in Hr. destruct Hr as [Hr M].
      rewrite (bnsp_member_positive sg label_col r L), (Hnone r Hr) in M.
      discriminate. }
  destruct (compute_bias_metrics_rows dataset model label_col include_asegs
              subgroups) as [out [Hout _]].
  { intros Hnil. rewrite Hnil in Hsg. exact Hsg. }
  exists out. split; [exact Hout |]. split.
  - rewrite <- Hrec. eapply compute_bias_metrics_row_of; eassumption.
  - intros r Hr Er.
    destruct (compute_bias_metrics_row_inv _ _ _ _ _ _ r Hout Hr) as [_ E].
    rewrite E, Er. exact Hrec.
Qed.

Lemma subgroup_without_rows_witness :
  exists out,
    compute_bias_metrics_for_model [] ["A"%string; "B"%string]
                                   "model"%string "toxicity"%string false
    = Ok out
    /\ In {| subgroup := "B"%string;
             subgroup_size := 0;
             subgroup_auc := NaN;
             background_positive_subgroup_negative_auc := NaN;
             background_negative_subgroup_positive_auc := NaN |} out.
Proof.
  destruct (subgroup_without_rows
              [] ["A"%string; "B"%string] "model"%string "toxicity"%string
              false "B"%string (or_intror (or_introl eq_refl))
              (fun r (H : In r []) => match H with end))
    as [out [Hout [Hin _]]].
  exists out. split; [exact Hout | exact Hin].
Defined.


(** ** The conversion to booleans *)

Lemma ge_half_bool (v : cell) : ge_half (CBool (ge_half v)) = ge_half v.
Proof. reflexivity. Qed.

Lemma convert_row_cell (cols : list string) : forall (r : rating_row) c,
  (In c cols -> convert_row cols r c = CBool (ge_half (r c)))
  /\ (~ In c cols -> convert_row cols r c = r c).
Proof.
  unfold convert_row.
  induction cols as [| col cols IH]; intros r c.
  - split; [intros [] | reflexivity].
  - cbn [fold_left].
    set (r1 := fun c0 : string =>
                 if String.eqb c0 col then CBool (ge_half (r col)) else r c0).
    destruct (IH r1 c) as [IHin IHout].
    assert (Hr1 : CBool (ge_half (r1 c)) =
                  if String.eqb c col then CBool (ge_half (r c))
                  else CBool (ge_half (r c))).
    { unfold r1. destruct (String.eqb_spec c col) as [E | E];
        [subst c; reflexivity | reflexivity]. }
    split.
    + intros Hin. destruct (in_dec string_dec c cols) as [Hc | Hc].
      * rewrite (IHin Hc), Hr1. destruct (String.eqb c col); reflexivity.
      * rewrite (IHout Hc). destruct Hin as [Hin | Hin]; [| contradiction].
        subst col. unfold r1. rewrite String.eqb_refl. reflexivity.
    + intros Hout. rewrite IHout by (intros Hc; apply Hout; right; exact Hc).
      unfold r1. destruct (String.eqb_spec c col) as [E | E];
        [exfalso; apply Hout; left; symmetry; exact E | reflexivity].
Qed.

Lemma fold_convert_to_bool (cols : list string) : forall df,
  fold_left convert_to_bool cols df = map (convert_row cols) df.
Proof.
  unfold convert_row.
  induction cols as [| col cols IH]; intros df.
  - cbn [fold_left]. rewrite map_id. reflexivity.
  - cbn [fold_left]. rewrite IH. unfold convert_to_bool.
    rewrite map_map. reflexivity.
Qed.

Lemma convert_dataframe_to_bool_rows (df : list rating_row) :
  convert_dataframe_to_bool df =
  map (convert_row ("toxicity"%string :: identity_columns)) df.
Proof. apply fold_convert_to_bool. Qed.

(** The boolean of a converted cell, stated without the code's
    comparison. *)
Lemma ge_half_cases (v : cell) :
  match v with
  | CFloat (Num q) =>
      (ge_half v = true /\ (1 # 2 <= q)%Q)
      \/ (ge_half v = false /\ (q < 1 # 2)%Q)
  | CFloat NaN => ge_half v = false
  | CBool b => ge_half v = b
  end.
Proof.
  destruct v as [[q |] | b]; cbn [ge_half]; try reflexivity.
  destruct (Qle_bool (1 # 2) q) eqn:E.
  - left. split; [reflexivity | apply Qle_bool_iff; exact E].
  - right. split; [reflexivity |].
    apply Qnot_le_lt. intros H. apply Qle_bool_iff in H. congruence.
Qed.

Lemma convert_rows_cells (cols : list string) (df : list rating_row) :
  length (map (convert_row cols) df) = length df
  /\ forall i r,
      nth_error df i = Some r ->
      exists r',
        nth_error (map (convert_row cols) df) i = Some r'
        /\ forall c,
            (In c cols ->
             match r c with
             | CFloat (Num q) =>
                 (r' c = CBool true /\ (1 # 2 <= q)%Q)
                 \/ (r' c = CBool false /\ (q < 1 # 2)%Q)
             | CFloat NaN => r' c = CBool false
             | CBool b => r' c = CBool b
             end)
            /\ (~ In c cols -> r' c = r c).
Proof.
  split; [apply length_map |].
  intros i r Hi. exists (convert_row cols r).
  split; [rewrite nth_error_map, Hi; reflexivity |].
  intros c. destruct (convert_row_cell cols r c) as [Hin Hout].
  split; [| exact Hout].
  intros Hc. rewrite (Hin Hc).
  pose proof (ge_half_cases (r c)) as H.
  destruct (r c) as [[q |] | b0].
  - destruct H as [[H1 H2] | [H1 H2]]; [left | right];
      (split; [rewrite H1; reflexivity | exact H2]).
  - rewrite H. reflexivity.
  - rewrite H. reflexivity.
Qed.

Lemma convert_rows_idempotent (cols : list string) (df : list rating_row) :
  length (map (convert_row cols) (map (convert_row cols) df)) =
  length (map (convert_row cols) df)
  /\ forall i r1 r2 c,
      nth_error (map (convert_row cols) df) i = Some r1 ->
      nth_error (map (convert_row cols) (map (convert_row cols) df)) i
      = Some r2 ->
      r2 c = r1 c.
Proof.
  split; [apply length_map |].
  intros i r1 r2 c H1 H2.
  rewrite nth_error_map, H1 in H2. cbn [option_map] in H2.
  injection H2 as H2. subst r2.
  rewrite nth_error_map in H1.
  destruct (nth_error df i) as [r |]; [| discriminate].
  cbn [option_map] in H1. injection H1 as H1. subst r1.
  destruct (convert_row_cell cols r c) as [Hin Hout].
  destruct (convert_row_cell cols (convert_row cols r) c) as [Hin2 Hout2].
  destruct (in_dec string_dec c cols) as [Hc | Hc].
  - rewrite (Hin2 Hc), (Hin Hc). reflexivity.
  - apply (Hout2 Hc).
Qed.

(** X17: [convert_dataframe_to_bool] keeps the rows and their order; in
    every row each of the columns [toxicity] and [identity_columns]
    becomes a boolean: [True] for a rating of 0.5 or more, [False] for a
    rating below 0.5 and for a missing rating (NaN), and a boolean stays
    what it is; every other column keeps its cell. *)
Theorem convert_dataframe_to_bool_cells (df : list rating_row) :
  length (convert_dataframe_to_bool df) = length df
  /\ forall i r,
      nth_error df i = Some r ->
      exists r',
        nth_error (convert_dataframe_to_bool df) i = Some r'
        /\ forall c,
            (In c ("toxicity"%string :: identity_columns) ->
             match r c with
             | CFloat (Num q) =>
                 (r' c = CBool true /\ (1 # 2 <= q)%Q)
                 \/ (r' c = CBool false /\ (q < 1 # 2)%Q)
             | CFloat NaN => r' c = CBool false
             | CBool b => r' c = CBool b
             end)
            /\ (~ In c ("toxicity"%string :: identity_columns) ->
                r' c = r c).
Proof.
  rewrite convert_dataframe_to_bool_rows.
  exact (convert_rows_cells ("toxicity"%string :: identity_columns) df).
Qed.

(** X18: converting twice is converting once: every cell of
    [convert_dataframe_to_bool (convert_dataframe_to_bool df)] is the cell
    of [convert_dataframe_to_bool df] at the same row and column. *)
Theorem convert_dataframe_to_bool_idempotent (df : list rating_row) :
  length (convert_dataframe_to_bool (convert_dataframe_to_bool df)) =
  length (convert_dataframe_to_bool df)
  /\ forall i r1 r2 c,
      nth_error (convert_dataframe_to_bool df) i = Some r1 ->
      nth_error (convert_dataframe_to_bool (convert_dataframe_to_bool df)) i
      = Some r2 ->
      r2 c = r1 c.
Proof.
  rewrite !convert_dataframe_to_bool_rows.
  exact (convert_rows_idempotent ("toxicity"%string :: identity_columns) df).
Qed.

(** ** The subgroups the cell evaluates *)

Lemma over_100_loop_filter (test_df : DataFrame) (identities : list string) :
  forall acc,
    over_100_loop test_df identities acc =
    acc ++ filter (fun identity =>
                     (100 <=? length (select test_df
                                             (fun r => bcol r identity)))%nat)
                  identities.
Proof.
  induction identities as [| identity rest IH]; intros acc.
  - cbn [over_100_loop filter]. rewrite app_nil_r. reflexivity.
  - cbn [over_100_loop filter].
    destruct (100 <=? length (select test_df (fun r => bcol r identity)))%nat.
    + rewrite IH, <- app_assoc. reflexivity.
    + apply IH.
Qed.

Lemma identities_with_over_100_records_In (test_df : DataFrame) identity :
  In identity (identities_with_over_100_records test_df) <->
  In identity identity_columns
  /\ (100 <= count_flagged test_df identity)%nat.
Proof.
  unfold identities_with_over_100_records.
  rewrite over_100_loop_filter. cbn [app].
  rewrite filter_In, select_flag_length, Nat.leb_le. reflexivity.
Qed.

(** X19: the frame the cell computes, [bias_metrics_df], has exactly one
    row for every identity column with 100 flagged rows or more in the test
    set and no other row, so every row has a [subgroup_size] of 100 at
    least; the cell raises [KeyError] when no identity column reaches 100
    flagged rows, and only then. *)
Theorem bias_metrics_df_rows (test_df : DataFrame) :
  match bias_metrics_df test_df with
  | Ok out =>
      (forall r, In r out ->
                 In (subgroup r) identity_columns
                 /\ (100 <= subgroup_size r)%nat
                 /\ subgroup_size r = count_flagged test_df (subgroup r))
      /\ (forall identity,
             In identity identity_columns ->
             (100 <= count_flagged test_df identity)%nat ->
             exists r, In r out /\ subgroup r = identity)
      /\ NoDup (map subgroup out)
  | Raise e =>
      e = KeyError
      /\ forall identity,
          In identity identity_columns ->
          (count_flagged test_df identity < 100)%nat
  end
  /\ ((forall identity,
          In identity identity_columns ->
          (count_flagged test_df identity < 100)%nat) ->
      bias_metrics_df test_df = Raise KeyError).
Proof.
  split.
  2: { intros Hnone. unfold bias_metrics_df.
       destruct (identities_with_over_100_records test_df) as [| id0 ids0]
         eqn:Eids.
       - rewrite compute_bias_metrics_value. reflexivity.
       - exfalso.
         assert (Hin : In id0 (identities_with_over_100_records test_df))
           by (rewrite Eids; left; reflexivity).
         apply identities_with_over_100_records_In in Hin.
         destruct Hin as [Hcol Hcount].
         specialize (Hnone id0 Hcol). lia. }
  unfold bias_metrics_df.
  set (ids := identities_with_over_100_records test_df).
  destruct ids as [| id0 ids0] eqn:Eids.
  - rewrite compute_bias_metrics_value. cbn [map sort_values_subgroup_auc].
    split; [reflexivity |]. intros identity Hin.
    destruct (Nat.lt_ge_cases (count_flagged test_df identity) 100)
      as [Hlt | Hge]; [exact Hlt |].
    exfalso.
    assert (Hc : In identity (identities_with_over_100_records test_df))
      by (apply identities_with_over_100_records_In; auto).
    fold ids in Hc. rewrite Eids in Hc. exact Hc.
  - destruct (compute_bias_metrics_rows test_df MODEL_NAME TOXICITY_COLUMN
                false (id0 :: ids0)) as [out [Hout _]]; [discriminate |].
    rewrite Hout. split; [| split].
    + intros r Hr.
      destruct (compute_bias_metrics_row_inv _ _ _ _ _ _ r Hout Hr)
        as [Hin E].
      rewrite <- Eids in Hin. unfold ids in Hin.
      apply identities_with_over_100_records_In in Hin.
      destruct Hin as [Hcol Hcount].
      assert (Hsize : subgroup_size r = count_flagged test_df (subgroup r)).
      { rewrite E at 1. cbn [record_of subgroup_size].
        apply select_flag_length. }
      split; [exact Hcol |]. split; [rewrite Hsize; exact Hcount | exact Hsize].
    + intros identity Hin Hcount.
      exists (record_of test_df MODEL_NAME TOXICITY_COLUMN identity).
      split; [| reflexivity].
      eapply compute_bias_metrics_row_of; [exact Hout |].
      rewrite <- Eids. unfold ids.
      apply identities_with_over_100_records_In. auto.
    + apply (Permutation_NoDup
               (Permutation_sym
                  (compute_bias_metrics_subgroups _ _ _ _ _ _ Hout))).
      rewrite <- Eids. unfold ids, identities_with_over_100_records.
      rewrite over_100_loop_filter. cbn [app]. apply NoDup_filter.
      unfold identity_columns.
      repeat (constructor;
              [cbn [In]; intros H;
               repeat (destruct H as [H | H]; [discriminate H |]);
               exact H |]).
      constructor.
Qed.

Lemma bias_metrics_df_rows_witness :
  bias_metrics_df [] = Raise KeyError.
Proof.
  apply (proj2 (bias_metrics_df_rows [])).
  intros identity _. unfold count_flagged. cbn. lia.
Defined.

(** ** What a metric does not look at *)

(** X20: a row outside the comparison set of a cross metric has no
    influence on it: adding or removing a row whose subgroup flag equals
    its label (a subgroup positive or a background negative) leaves the
    background-positive / subgroup-negative AUC unchanged, and a row whose
    flag differs from its label leaves the background-negative /
    subgroup-positive AUC unchanged. *)
Theorem cross_auc_ignores_other_rows
  (df1 df2 : DataFrame) (r : row) (sg label model_name : string) :
  (bcol r sg = bcol r label ->
   compute_background_positive_subgroup_negative_auc
     (df1 ++ r :: df2) sg label model_name =
   compute_background_positive_subgroup_negative_auc
     (df1 ++ df2) sg label model_name)
  /\
  (bcol r sg = negb (bcol r label) ->
   compute_background_negative_subgroup_positive_auc
     (df1 ++ r :: df2) sg label model_name =
   compute_background_negative_subgroup_positive_auc
     (df1 ++ df2) sg label model_name).
Proof.
  split; intros H.
  - unfold compute_background_positive_subgroup_negative_auc, select.
    cbv zeta. rewrite !filter_app. cbn [filter]. rewrite H.
    destruct (bcol r label); reflexivity.
  - unfold compute_background_negative_subgroup_positive_auc, select.
    cbv zeta. rewrite !filter_app. cbn [filter]. rewrite H.
    destruct (bcol r label); reflexivity.
Qed.

(** ** The place of the NaN rows *)

Lemma sort_values_shape (records out : list record) :
  sort_values_subgroup_auc records = Ok out ->
  out = stable_sort record_leb
          (filter (fun r => negb (isna (subgroup_auc r))) records)
        ++ filter (fun r => isna (subgroup_auc r)) records.
Proof.
  destruct records as [| r rs]; intros H; [discriminate |].
  injection H as H. symmetry. exact H.
Qed.

(** X21: the returned frame is the rows with a number as subgroup AUC
    followed by the rows with NaN, and the NaN rows come in the order of
    their subgroups in the input list. *)
Theorem nan_rows_last_in_input_order
  (dataset : DataFrame) (subgroups : list string) (model label_col : string)
  (include_asegs : bool) (out : list record) :
  compute_bias_metrics_for_model dataset subgroups model label_col
                                 include_asegs = Ok out ->
  exists numbers,
    out = numbers
          ++ filter (fun r => isna (subgroup_auc r))
                    (map (record_of dataset model label_col) subgroups)
    /\ Forall (fun r => isna (subgroup_auc r) = false) numbers.
Proof.
  rewrite compute_bias_metrics_value. intros H.
  apply sort_values_shape in H.
  eexists. split; [exact H |].
  apply Forall_forall. intros x Hx.
  apply (Permutation_in x (Permutation_sym (stable_sort_perm record_leb _))) in Hx.
  apply filter_In in Hx. destruct Hx as [_ Hx].
  apply negb_true_iff. exact Hx.
Qed.

Lemma nan_rows_last_in_input_order_witness :
  exists numbers,
    [ record_of five_true_scenario "model" "toxicity" "B";
      record_of five_true_scenario "model" "toxicity" "A" ]
    = numbers
      ++ filter (fun r => isna (subgroup_auc r))
                (map (record_of five_true_scenario "model" "toxicity")
                     ["A"%string; "B"%string])
    /\ Forall (fun r => isna (subgroup_auc r) = false) numbers.
Proof.
  apply (nan_rows_last_in_input_order
           five_true_scenario ["A"%string; "B"%string]
           "model"%string "toxicity"%string false).
  vm_compute. reflexivity.
Defined.

(** ** A perfect, an inverted and an uninformative score *)

Lemma frame_examples_In (dataset : DataFrame) (f : row -> bool)
  (label model_name : string) (x : example) :
  In x (examples_of (select dataset f) label model_name) ->
  exists r, In r dataset /\ x = (bcol r label, fcol r model_name).
Proof.
  unfold examples_of, select. intros Hx. apply in_map_iff in Hx.
  destruct Hx as [r [E Hr]]. apply filter_In in Hr.
  exists r. split; [apply Hr | symmetry; exact E].
Qed.

Lemma auc_of_separated (n : nat) (l : list example) :
  (length l <= n)%nat -> separated l -> nan_or_about_one n (auc_of l).
Proof.
  intros Hlen Hsep. unfold auc_of.
  destruct ((0 <? positives l) && (0 <? negatives l)) eqn:E; [| exact I].
  apply andb_true_iff in E. destruct E as [Ep En].
  apply Z.ltb_lt in Ep, En.
  destruct (auc_value_separated l Ep En Hsep) as [H0 H1].
  split.
  - eapply Qle_trans; [apply rounded_down_anti, Hlen | exact H0].
  - eapply Qle_trans; [exact H1 | apply rounded_up_mono, Hlen].
Qed.

Lemma auc_of_inverted (l : list example) :
  inverted l -> auc_of l = NaN \/ auc_of l = Num 0.
Proof.
  intros Hinv. unfold auc_of.
  destruct ((0 <? positives l) && (0 <? negatives l)) eqn:E;
    [right | left; reflexivity].
  apply andb_true_iff in E. destruct E as [Ep En].
  apply Z.ltb_lt in Ep, En. f_equal.
  apply auc_value_inverted; assumption.
Qed.

Lemma auc_of_constant (l : list example) :
  constant_score l -> auc_of l = NaN \/ auc_of l = Num (1 # 2).
Proof.
  intros Hc. unfold auc_of.
  destruct ((0 <? positives l) && (0 <? negatives l)) eqn:E;
    [right | left; reflexivity].
  apply andb_true_iff in E. destruct E as [Ep En].
  apply Z.ltb_lt in Ep, En. f_equal.
  apply auc_value_constant; assumption.
Qed.

(** X22: when every row of the dataset with a true label scores strictly
    lower than every row with a false label, each AUC of each returned row
    is 0 or NaN; when all rows of the dataset have the same score, each is
    1/2 or NaN; when every row with a true label scores strictly higher
    than every row with a false label, each is NaN or 1 up to the
    roundings of the trapezoid sum (between [(1 - 2^-53)^(n + 5)] and
    [(1 + 2^-53)^(n + 5)] on a dataset of [n] rows). *)
Theorem inverted_constant_and_perfect_scores
  (dataset : DataFrame) (subgroups : list string) (model label_col : string)
  (include_asegs : bool) (out : list record) (r : record) :
  compute_bias_metrics_for_model dataset subgroups model label_col
                                 include_asegs = Ok out ->
  In r out ->
  let each_is (a : Q) :=
    (subgroup_auc r = NaN \/ subgroup_auc r = Num a)
    /\ (background_positive_subgroup_negative_auc r = NaN
        \/ background_positive_subgroup_negative_auc r = Num a)
    /\ (background_negative_subgroup_positive_auc r = NaN
        \/ background_negative_subgroup_positive_auc r = Num a) in
  ((forall r1 r2, In r1 dataset -> In r2 dataset ->
                  bcol r1 label_col = true -> bcol r2 label_col = false ->
                  (fcol r1 model < fcol r2 model)%Q) ->
   each_is 0%Q)
  /\
  ((forall r1 r2, In r1 dataset -> In r2 dataset ->
                  (fcol r1 model == fcol r2 model)%Q) ->
   each_is (1 # 2)%Q)
  /\
  ((forall r1 r2, In r1 dataset -> In r2 dataset ->
                  bcol r1 label_col = true -> bcol r2 label_col = false ->
                  (fcol r2 model < fcol r1 model)%Q) ->
   nan_or_about_one (length dataset) (subgroup_auc r)
   /\ nan_or_about_one (length dataset)
                       (background_positive_subgroup_negative_auc r)
   /\ nan_or_about_one (length dataset)
                       (background_negative_subgroup_positive_auc r)).
Proof.
  intros Hout Hr. cbv zeta.
  destruct (compute_bias_metrics_row_inv _ _ _ _ _ _ r Hout Hr) as [_ E].
  rewrite E.
  cbn [record_of subgroup_auc background_positive_subgroup_negative_auc
       background_negative_subgroup_positive_auc].
  split; [| split]; intros H.
  - assert (Hinv : forall f,
               inverted (examples_of (select dataset f) label_col model)).
    { intros f x y Hx Hy Ex Ey.
      apply frame_examples_In in Hx, Hy.
      destruct Hx as [r1 [H1 E1]], Hy as [r2 [H2 E2]]. subst x y.
      cbn [fst snd] in *. apply H; assumption. }
    repeat split; apply auc_of_inverted, Hinv.
  - assert (Hc : forall f,
               constant_score (examples_of (select dataset f) label_col model)).
    { intros f x y Hx Hy.
      apply frame_examples_In in Hx, Hy.
      destruct Hx as [r1 [H1 E1]], Hy as [r2 [H2 E2]]. subst x y.
      cbn [fst snd] in *. apply H; assumption. }
    repeat split; apply auc_of_constant, Hc.
  - assert (Hsep : forall f,
               separated (examples_of (select dataset f) label_col model)).
    { intros f x y Hx Hy Ex Ey.
      apply frame_examples_In in Hx, Hy.
      destruct Hx as [r1 [H1 E1]], Hy as [r2 [H2 E2]]. subst x y.
      cbn [fst snd] in *. apply H; assumption. }
    assert (Hlen : forall f,
               (length (examples_of (select dataset f) label_col model)
                <= length dataset)%nat).
    { intros f. unfold examples_of, select. rewrite length_map.
      apply filter_length_le. }
    repeat split; apply auc_of_separated; auto.
Qed.

Lemma inverted_constant_and_perfect_scores_witness :
  nan_or_about_one (length scenario) (Num 1).
Proof.
  apply (proj2 (proj2 (inverted_constant_and_perfect_scores
                  scenario ["A"%string] "model"%string "toxicity"%string
                  false _
                  {| subgroup := "A"%string;
                     subgroup_size := 2;
                     subgroup_auc := Num 1;
                     background_positive_subgroup_negative_auc := Num 1;
                     background_negative_subgroup_positive_auc := Num 1 |}
                  eq_refl (or_introl eq_refl)))).
  intros r1 r2 H1 H2 L1 L2. unfold scenario in H1, H2. cbn [In] in H1, H2.
  repeat (destruct H1 as [H1 | H1]); try contradiction; subst r1;
    repeat (destruct H2 as [H2 | H2]); try contradiction; subst r2;
    try reflexivity;
    try (vm_compute in L1; discriminate);
    try (vm_compute in L2; discriminate).
Defined.

(** ** The AUC as a share of ordered pairs *)

Lemma pair_share_concordance (l : list example) :
  pair_share (positive_scores l) (negative_scores l) =
  (inject_Z (concordance2 l)
   / inject_Z (2 * (positives l * negatives l)))%Q.
Proof.
  unfold pair_share.
  rewrite <- concordance2_pair_total, <- positives_length, <- negatives_length.
  reflexivity.
Qed.

Lemma near_share_proper n s s' v :
  (s == s')%Q -> near_share n s v -> near_share n s' v.
Proof.
  intros E [H1 H2]. unfold near_share. rewrite <- E. split; assumption.
Qed.

Lemma length_combine_same (y_true : list bool) (y_pred : list Q) :
  length y_true = length y_pred ->
  length (combine y_true y_pred) = length y_true.
Proof.
  intros Hlen. rewrite length_combine, <- Hlen. apply Nat.min_id.
Qed.

Lemma auc_of_near_share (l : list example) :
  0 < positives l -> 0 < negatives l ->
  exists q, auc_of l = Num q
            /\ near_share (length l)
                 (pair_share (positive_scores l) (negative_scores l)) q.
Proof.
  intros Hp Hn. exists (auc_value l).
  split; [apply auc_of_both; assumption |].
  rewrite pair_share_concordance. apply auc_value_near_share; assumption.
Qed.

(** Where the pairs of [l'] are the pairs of [l] in the opposite order. *)
Lemma auc_of_near_complement (l l' : list example) :
  0 < positives l -> 0 < negatives l ->
  0 < positives l' -> 0 < negatives l' ->
  positives l' * negatives l' = positives l * negatives l ->
  length l' = length l ->
  concordance2 l' + concordance2 l = 2 * negatives l * positives l ->
  exists q', auc_of l' = Num q'
             /\ near_share (length l)
                  (1 - pair_share (positive_scores l) (negative_scores l)) q'.
Proof.
  intros Hp Hn Hp' Hn' Hd Hlen Hw.
  destruct (auc_of_near_share l' Hp' Hn') as [q' [E N]].
  exists q'. split; [exact E |].
  rewrite Hlen in N. rewrite !pair_share_concordance in *. rewrite Hd in N.
  eapply near_share_proper; [| exact N].
  assert (Hpos : 0 < 2 * (positives l * negatives l)) by nia.
  replace (concordance2 l')
    with (2 * (positives l * negatives l) - concordance2 l) by lia.
  pose proof (inject_Z_nonzero _ Hpos) as Hd0.
  unfold Z.sub. rewrite inject_Z_plus, inject_Z_opp.
  field. exact Hd0.
Qed.

Lemma compute_auc_nan_cases (y_true : list bool) (y_pred : list Q) :
  (exists v, compute_auc y_true y_pred = Ok v)
  /\ (compute_auc y_true y_pred = Ok NaN <->
      length y_true <> length y_pred
      \/ ~ In true y_true \/ ~ In false y_true).
Proof.
  destruct (Nat.eq_dec (length y_true) (length y_pred)) as [Hlen | Hlen].
  - rewrite (compute_auc_same_length _ _ Hlen).
    destruct (map_fst_combine y_true y_pred Hlen) as [Hfst _].
    split; [eexists; reflexivity |].
    pose proof (auc_of_nan_iff (combine y_true y_pred)) as Hiff.
    rewrite Hfst in Hiff. split.
    + intros H. right. apply Hiff. congruence.
    + intros [H | H]; [contradiction |]. f_equal. apply Hiff. exact H.
  - unfold compute_auc. rewrite (roc_auc_score_mismatch _ _ Hlen).
    split; [eexists; reflexivity |].
    split; [intros _; left; exact Hlen | reflexivity].
Qed.

Lemma In_map_negb (b : bool) (y : list bool) :
  In b (map negb y) <-> In (negb b) y.
Proof.
  split.
  - intros H. apply in_map_iff in H. destruct H as [c [E H]]. subst b.
    rewrite negb_involutive. exact H.
  - intros H. apply in_map_iff. exists (negb b).
    split; [apply negb_involutive | exact H].
Qed.

(** X2: with both labels present, [compute_auc] is the share of the
    (positive, negative) pairs of examples in which the positive one has
    the higher score, a tie counting for half a pair, up to the roundings
    of the computation: the rounded rates move the share by [2 * u64] at
    most, and the sum of the trapezoids moves the result by the factor
    [(1 - u64) ^ (n + 5)] or [(1 + u64) ^ (n + 5)] at most on [n]
    examples. *)
Theorem compute_auc_near_pair_share (y_true : list bool) (y_pred : list Q) :
  length y_true = length y_pred ->
  In true y_true -> In false y_true ->
  let pos := positive_scores (combine y_true y_pred) in
  let neg := negative_scores (combine y_true y_pred) in
  exists q, compute_auc y_true y_pred = Ok (Num q)
            /\ near_share (length y_true) (pair_share pos neg) q.
Proof.
  intros Hlen Ht Hf. cbv zeta.
  destruct (map_fst_combine y_true y_pred Hlen) as [Hfst _].
  rewrite (compute_auc_same_length _ _ Hlen).
  rewrite <- (length_combine_same y_true y_pred Hlen).
  set (l := combine y_true y_pred) in *.
  rewrite <- Hfst in Ht, Hf.
  apply positives_In in Ht. apply negatives_In in Hf.
  destruct (auc_of_near_share l Ht Hf) as [q [E N]].
  exists q. split; [rewrite E; reflexivity | exact N].
Qed.

Lemma compute_auc_near_pair_share_witness :
  exists q,
    compute_auc [true; false; true; false]
                [(3 # 4); (1 # 2); (1 # 2); (5 # 8)]%Q = Ok (Num q)
    /\ near_share 4 (pair_share [(3 # 4); (1 # 2)]%Q [(1 # 2); (5 # 8)]%Q) q.
Proof.
  apply (compute_auc_near_pair_share
           [true; false; true; false]
           [(3 # 4); (1 # 2); (1 # 2); (5 # 8)]%Q eq_refl).
  - simpl. left. reflexivity.
  - simpl. right. left. reflexivity.
Defined.

(** X3: exchanging the two classes turns the AUC into one minus the AUC,
    up to the roundings: NaN stays NaN, and with both labels present the
    result on the labels is the share of the ordered pairs and the result
    on the negated labels is one minus that share, each up to the
    roundings of the computation. *)
Theorem compute_auc_flipped_labels (y_true : list bool) (y_pred : list Q) :
  (compute_auc (map negb y_true) y_pred = Ok NaN <->
   compute_auc y_true y_pred = Ok NaN)
  /\ (length y_true = length y_pred ->
      In true y_true -> In false y_true ->
      let s := pair_share (positive_scores (combine y_true y_pred))
                          (negative_scores (combine y_true y_pred)) in
      exists q q',
        compute_auc y_true y_pred = Ok (Num q)
        /\ compute_auc (map negb y_true) y_pred = Ok (Num q')
        /\ near_share (length y_true) s q
        /\ near_share (length y_true) (1 - s) q').
Proof.
  split.
  - rewrite (proj2 (compute_auc_nan_cases (map negb y_true) y_pred)).
    rewrite (proj2 (compute_auc_nan_cases y_true y_pred)).
    rewrite length_map, !In_map_negb. cbn [negb]. tauto.
  - intros Hlen Ht Hf. cbv zeta.
    destruct (map_fst_combine y_true y_pred Hlen) as [Hfst _].
    rewrite (compute_auc_same_length _ _ Hlen).
    rewrite compute_auc_same_length by (rewrite length_map; exact Hlen).
    rewrite combine_map_l.
    rewrite <- (length_combine_same y_true y_pred Hlen).
    set (l := combine y_true y_pred) in *.
    rewrite <- Hfst in Ht, Hf.
    apply positives_In in Ht. apply negatives_In in Hf.
    destruct (flip_labels_counts l) as [Hp' Hn'].
    destruct (auc_of_near_share l Ht Hf) as [q [E N]].
    destruct (auc_of_near_complement
                l (map (fun x => (negb (fst x), snd x)) l) Ht Hf) as [q' [E' N']].
    + rewrite Hp'. exact Hf.
    + rewrite Hn'. exact Ht.
    + rewrite Hp', Hn'. ring.
    + apply length_map.
    + apply flip_labels_concordance2.
    + exists q, q'. rewrite E, E'.
      split; [reflexivity | split; [reflexivity | split; assumption]].
Qed.

Lemma compute_auc_flipped_labels_witness :
  exists q q',
    compute_auc [true; false; true; false]
                [(3 # 4); (1 # 2); (1 # 2); (5 # 8)]%Q = Ok (Num q)
    /\ compute_auc (map negb [true; false; true; false])
                   [(3 # 4); (1 # 2); (1 # 2); (5 # 8)]%Q = Ok (Num q')
    /\ near_share 4
         (pair_share [(3 # 4); (1 # 2)]%Q [(1 # 2); (5 # 8)]%Q) q
    /\ near_share 4
         (1 - pair_share [(3 # 4); (1 # 2)]%Q [(1 # 2); (5 # 8)]%Q) q'.
Proof.
  apply (proj2 (compute_auc_flipped_labels
                  [true; false; true; false]
                  [(3 # 4); (1 # 2); (1 # 2); (5 # 8)]%Q) eq_refl).
  - simpl. left. reflexivity.
  - simpl. right. left. reflexivity.
Defined.

(** X4: negating every score turns the AUC into one minus the AUC, up to
    the roundings: NaN stays NaN, and with both labels present the result
    on the scores is the share of the ordered pairs and the result on the
    negated scores is one minus that share, each up to the roundings of
    the computation. *)
Theorem compute_auc_negated_scores (y_true : list bool) (y_pred : list Q) :
  (compute_auc y_true (map Qopp y_pred) = Ok NaN <->
   compute_auc y_true y_pred = Ok NaN)
  /\ (length y_true = length y_pred ->
      In true y_true -> In false y_true ->
      let s := pair_share (positive_scores (combine y_true y_pred))
                          (negative_scores (combine y_true y_pred)) in
      exists q q',
        compute_auc y_true y_pred = Ok (Num q)
        /\ compute_auc y_true (map Qopp y_pred) = Ok (Num q')
        /\ near_share (length y_true) s q
        /\ near_share (length y_true) (1 - s) q').
Proof.
  split.
  - rewrite (proj2 (compute_auc_nan_cases y_true (map Qopp y_pred))).
    rewrite (proj2 (compute_auc_nan_cases y_true y_pred)).
    rewrite length_map. tauto.
  - intros Hlen Ht Hf. cbv zeta.
    destruct (map_fst_combine y_true y_pred Hlen) as [Hfst _].
    rewrite (compute_auc_same_length _ _ Hlen).
    rewrite compute_auc_same_length by (rewrite length_map; exact Hlen).
    rewrite combine_map_r.
    rewrite <- (length_combine_same y_true y_pred Hlen).
    set (l := combine y_true y_pred) in *.
    rewrite <- Hfst in Ht, Hf.
    apply positives_In in Ht. apply negatives_In in Hf.
    destruct (negate_scores_counts l) as [Hp' Hn'].
    destruct (auc_of_near_share l Ht Hf) as [q [E N]].
    destruct (auc_of_near_complement
                l (map (fun x => (fst x, (- snd x)%Q)) l) Ht Hf) as [q' [E' N']].
    + rewrite Hp'. exact Ht.
    + rewrite Hn'. exact Hf.
    + rewrite Hp', Hn'. ring.
    + apply length_map.
    + apply negate_scores_concordance2.
    + exists q, q'. rewrite E, E'.
      split; [reflexivity | split; [reflexivity | split; assumption]].
Qed.

Lemma compute_auc_negated_scores_witness :
  exists q q',
    compute_auc [true; false; true; false]
                [(3 # 4); (1 # 2); (1 # 2); (5 # 8)]%Q = Ok (Num q)
    /\ compute_auc [true; false; true; false]
                   (map Qopp [(3 # 4); (1 # 2); (1 # 2); (5 # 8)]%Q)
       = Ok (Num q')
    /\ near_share 4
         (pair_share [(3 # 4); (1 # 2)]%Q [(1 # 2); (5 # 8)]%Q) q
    /\ near_share 4
         (1 - pair_share [(3 # 4); (1 # 2)]%Q [(1 # 2); (5 # 8)]%Q) q'.
Proof.
  apply (proj2 (compute_auc_negated_scores
                  [true; false; true; false]
                  [(3 # 4); (1 # 2); (1 # 2); (5 # 8)]%Q) eq_refl).
  - simpl. left. reflexivity.
  - simpl. right. left. reflexivity.
Defined.
(** ** When the AUC is 0 and when it is about 1 *)

Lemma auc_of_num_inv l q :
  auc_of l = Num q ->
  0 < positives l /\ 0 < negatives l /\ q = auc_value l.
Proof.
  unfold auc_of. intros H.
  destruct ((0 <? positives l) && (0 <? negatives l)) eqn:E;
    [| discriminate].
  apply andb_true_iff in E. destruct E as [Ep En].
  apply Z.ltb_lt in Ep, En. injection H as H.
  split; [exact Ep |]. split; [exact En | symmetry; exact H].
Qed.

Lemma auc_of_zero_iff (l : list example) (n : nat) :
  (length l <= n)%nat -> Z.of_nat n <= 200000 ->
  (auc_of l = Num 0 <->
   0 < positives l /\ 0 < negatives l /\ inverted l).
Proof.
  intros Hlen Hsize. split.
  - intros H. destruct (auc_of_num_inv l 0 H) as [Hp [Hn E]].
    split; [exact Hp |]. split; [exact Hn |].
    apply (auc_value_zero_iff l n Hlen Hsize Hp Hn). symmetry. exact E.
  - intros [Hp [Hn Hi]]. rewrite (auc_of_both l Hp Hn). f_equal.
    apply auc_value_inverted; assumption.
Qed.

Lemma auc_of_about_one_iff (l : list example) (n : nat) :
  (length l <= n)%nat -> Z.of_nat n <= 200000 ->
  ((exists q, auc_of l = Num q /\ (rounded_down n <= q)%Q) <->
   0 < positives l /\ 0 < negatives l /\ separated l).
Proof.
  intros Hlen Hsize. split.
  - intros [q [H Hq]]. destruct (auc_of_num_inv l q H) as [Hp [Hn E]].
    split; [exact Hp |]. split; [exact Hn |].
    apply (auc_value_about_one_iff l n Hlen Hsize Hp Hn).
    rewrite <- E. exact Hq.
  - intros [Hp [Hn Hs]]. exists (auc_value l).
    split; [apply auc_of_both; assumption |].
    apply (auc_value_about_one_iff l n Hlen Hsize Hp Hn). exact Hs.
Qed.

Lemma frame_inverted_iff (d : DataFrame) (label model_name : string) :
  inverted (examples_of d label model_name) <->
  (forall r1 r2, In r1 d -> In r2 d ->
                 bcol r1 label = true -> bcol r2 label = false ->
                 (fcol r1 model_name < fcol r2 model_name)%Q).
Proof.
  split; intros H.
  - intros r1 r2 H1 H2 L1 L2.
    apply (H (bcol r1 label, fcol r1 model_name)
             (bcol r2 label, fcol r2 model_name));
      [apply (in_map (fun r => (bcol r label, fcol r model_name))); exact H1
      | apply (in_map (fun r => (bcol r label, fcol r model_name))); exact H2
      | exact L1 | exact L2].
  - intros x y Hx Hy Ex Ey. unfold examples_of in Hx, Hy.
    apply in_map_iff in Hx, Hy.
    destruct Hx as [r1 [E1 H1]], Hy as [r2 [E2 H2]]. subst x y.
    cbn [fst snd] in *. apply H; assumption.
Qed.

Lemma frame_separated_iff (d : DataFrame) (label model_name : string) :
  separated (examples_of d label model_name) <->
  (forall r1 r2, In r1 d -> In r2 d ->
                 bcol r1 label = true -> bcol r2 label = false ->
                 (fcol r2 model_name < fcol r1 model_name)%Q).
Proof.
  split; intros H.
  - intros r1 r2 H1 H2 L1 L2.
    apply (H (bcol r1 label, fcol r1 model_name)
             (bcol r2 label, fcol r2 model_name));
      [apply (in_map (fun r => (bcol r label, fcol r model_name))); exact H1
      | apply (in_map (fun r => (bcol r label, fcol r model_name))); exact H2
      | exact L1 | exact L2].
  - intros x y Hx Hy Ex Ey. unfold examples_of in Hx, Hy.
    apply in_map_iff in Hx, Hy.
    destruct Hx as [r1 [E1 H1]], Hy as [r2 [E2 H2]]. subst x y.
    cbn [fst snd] in *. apply H; assumption.
Qed.

Lemma frame_auc_zero_iff (d : DataFrame) (n : nat) (label model_name : string) :
  (length d <= n)%nat -> Z.of_nat n <= 200000 ->
  (auc_of (examples_of d label model_name) = Num 0 <->
   (exists r, In r d /\ bcol r label = true)
   /\ (exists r, In r d /\ bcol r label = false)
   /\ (forall r1 r2, In r1 d -> In r2 d ->
                     bcol r1 label = true -> bcol r2 label = false ->
                     (fcol r1 model_name < fcol r2 model_name)%Q)).
Proof.
  intros Hlen Hsize.
  rewrite (auc_of_zero_iff _ n) by
    (try exact Hsize; unfold examples_of; rewrite length_map; exact Hlen).
  rewrite examples_positive_iff, examples_negative_iff, frame_inverted_iff.
  reflexivity.
Qed.

Lemma frame_auc_about_one_iff
  (d : DataFrame) (n : nat) (label model_name : string) :
  (length d <= n)%nat -> Z.of_nat n <= 200000 ->
  ((exists q, auc_of (examples_of d label model_name) = Num q
              /\ (rounded_down n <= q)%Q) <->
   (exists r, In r d /\ bcol r label = true)
   /\ (exists r, In r d /\ bcol r label = false)
   /\ (forall r1 r2, In r1 d -> In r2 d ->
                     bcol r1 label = true -> bcol r2 label = false ->
                     (fcol r2 model_name < fcol r1 model_name)%Q)).
Proof.
  intros Hlen Hsize.
  rewrite (auc_of_about_one_iff _ n) by
    (try exact Hsize; unfold examples_of; rewrite length_map; exact Hlen).
  rewrite examples_positive_iff, examples_negative_iff, frame_separated_iff.
  reflexivity.
Qed.

Lemma result_num_inj (v : pyfloat) (q : Q) :
  @Ok pyfloat v = Ok (Num q) <-> v = Num q.
Proof. split; [intros H; injection H as H; exact H | intros H; rewrite H; reflexivity]. Qed.

(** X6: on at most 200000 examples with both labels present,
    [compute_auc] returns a number that reaches the band of the roundings
    around 1 only for a perfect separation, and 0 only for a perfectly
    inverted one: the result is at least [rounded_down n] exactly when
    every positive example scores strictly higher than every negative
    one, and it is 0 exactly when every positive example scores strictly
    lower. *)
Theorem compute_auc_extremes_iff (l : list example) :
  Z.of_nat (length l) <= 200000 ->
  In true (map fst l) -> In false (map fst l) ->
  exists q,
    compute_auc (map fst l) (map snd l) = Ok (Num q)
    /\ ((rounded_down (length l) <= q)%Q <->
        forall x y, In x l -> In y l -> fst x = true -> fst y = false ->
                    (snd y < snd x)%Q)
    /\ (q = 0%Q <->
        forall x y, In x l -> In y l -> fst x = true -> fst y = false ->
                    (snd x < snd y)%Q).
Proof.
  intros Hsize Ht Hf. apply positives_In in Ht. apply negatives_In in Hf.
  exists (auc_value l). rewrite compute_auc_examples, (auc_of_both l Ht Hf).
  split; [reflexivity |]. split.
  - exact (auc_value_about_one_iff l (length l) (le_n _) Hsize Ht Hf).
  - exact (auc_value_zero_iff l (length l) (le_n _) Hsize Ht Hf).
Qed.

Lemma compute_auc_extremes_iff_witness :
  exists q,
    compute_auc [true; false; true] [(3 # 4); (1 # 8); (1 # 2)]%Q
    = Ok (Num q)
    /\ ((rounded_down 3 <= q)%Q <->
        forall x y,
          In x [(true, (3 # 4)%Q); (false, (1 # 8)%Q); (true, (1 # 2)%Q)] ->
          In y [(true, (3 # 4)%Q); (false, (1 # 8)%Q); (true, (1 # 2)%Q)] ->
          fst x = true -> fst y = false -> (snd y < snd x)%Q)
    /\ (q = 0%Q <->
        forall x y,
          In x [(true, (3 # 4)%Q); (false, (1 # 8)%Q); (true, (1 # 2)%Q)] ->
          In y [(true, (3 # 4)%Q); (false, (1 # 8)%Q); (true, (1 # 2)%Q)] ->
          fst x = true -> fst y = false -> (snd x < snd y)%Q).
Proof.
  apply (compute_auc_extremes_iff
           [(true, (3 # 4)%Q); (false, (1 # 8)%Q); (true, (1 # 2)%Q)]).
  - vm_compute. discriminate.
  - simpl. left. reflexivity.
  - simpl. right. left. reflexivity.
Defined.

(** X9: on a frame of at most 200000 rows, the background-positive /
    subgroup-negative AUC reaches the band of the roundings around 1
    exactly when there is a background positive row and a subgroup
    negative row and every background positive row scores strictly higher
    than every subgroup negative row; it is 0 exactly when both kinds of
    rows exist and every background positive row scores strictly lower. *)
Theorem bpsn_auc_extremes_iff (df : DataFrame) (sg label model_name : string) :
  Z.of_nat (length df) <= 200000 ->
  let exist_both :=
    (exists r, In r df /\ bcol r sg = false /\ bcol r label = true)
    /\ (exists r, In r df /\ bcol r sg = true /\ bcol r label = false) in
  ((exists q,
      compute_background_positive_subgroup_negative_auc df sg label model_name
      = Ok (Num q)
      /\ (rounded_down (length df) <= q)%Q) <->
   exist_both
   /\ forall r1 r2, In r1 df -> In r2 df ->
                    bcol r1 sg = false -> bcol r1 label = true ->
                    bcol r2 sg = true -> bcol r2 label = false ->
                    (fcol r2 model_name < fcol r1 model_name)%Q)
  /\
  (compute_background_positive_subgroup_negative_auc df sg label model_name
   = Ok (Num 0) <->
   exist_both
   /\ forall r1 r2, In r1 df -> In r2 df ->
                    bcol r1 sg = false -> bcol r1 label = true ->
                    bcol r2 sg = true -> bcol r2 label = false ->
                    (fcol r1 model_name < fcol r2 model_name)%Q).
Proof.
  intros Hsize. cbv zeta. rewrite compute_bpsn_auc_value.
  assert (Hin : forall r, In r (select df (bpsn_member sg label)) <->
                          In r df /\ bpsn_member sg label r = true)
    by (intros r; apply filter_In).
  assert (Hlen : (length (select df (bpsn_member sg label)) <= length df)%nat)
    by apply filter_length_le.
  pose proof (bpsn_set_classes df sg label) as Hex.
  pose proof (frame_auc_about_one_iff
                (select df (bpsn_member sg label)) (length df)
                label model_name Hlen Hsize) as Hone.
  pose proof (frame_auc_zero_iff
                (select df (bpsn_member sg label)) (length df)
                label model_name Hlen Hsize) as Hzero.
  assert (Hto : forall (R : row -> row -> Prop),
             (forall r1 r2,
                 In r1 (select df (bpsn_member sg label)) ->
                 In r2 (select df (bpsn_member sg label)) ->
                 bcol r1 label = true -> bcol r2 label = false -> R r1 r2)
             <->
             (forall r1 r2, In r1 df -> In r2 df ->
                            bcol r1 sg = false -> bcol r1 label = true ->
                            bcol r2 sg = true -> bcol r2 label = false ->
                            R r1 r2)).
  { intros R. split; intros H r1 r2.
    - intros H1 H2 S1 L1 S2 L2. apply H; try assumption; apply Hin.
      + rewrite (bpsn_member_positive sg label r1 L1), S1. auto.
      + rewrite (bpsn_member_negative sg label r2 L2), S2. auto.
    - intros H1 H2 L1 L2. apply Hin in H1, H2.
      destruct H1 as [H1 M1], H2 as [H2 M2].
      rewrite (bpsn_member_positive sg label r1 L1) in M1.
      rewrite (bpsn_member_negative sg label r2 L2) in M2.
      apply H; try assumption. destruct (bcol r1 sg); [discriminate | auto]. }
  split.
  - rewrite <- Hex,
      <- (Hto (fun r1 r2 => (fcol r2 model_name < fcol r1 model_name)%Q)).
    rewrite and_assoc, <- Hone.
    split; intros [q [E Hq]]; exists q; (split; [| exact Hq]).
    + apply result_num_inj. exact E.
    + apply result_num_inj. exact E.
  - rewrite <- Hex,
      <- (Hto (fun r1 r2 => (fcol r1 model_name < fcol r2 model_name)%Q)).
    rewrite and_assoc, <- Hzero. apply result_num_inj.
Qed.

Lemma bpsn_auc_extremes_iff_witness :
  (exists q,
      compute_background_positive_subgroup_negative_auc
        scenario "A"%string "toxicity"%string "model"%string = Ok (Num q)
      /\ (rounded_down (length scenario) <= q)%Q) <->
  ((exists r, In r scenario /\ bcol r "A"%string = false
              /\ bcol r "toxicity"%string = true)
   /\ (exists r, In r scenario /\ bcol r "A"%string = true
                 /\ bcol r "toxicity"%string = false))
  /\ forall r1 r2, In r1 scenario -> In r2 scenario ->
                   bcol r1 "A"%string = false ->
                   bcol r1 "toxicity"%string = true ->
                   bcol r2 "A"%string = true ->
                   bcol r2 "toxicity"%string = false ->
                   (fcol r2 "model"%string < fcol r1 "model"%string)%Q.
Proof.
  apply (proj1 (bpsn_auc_extremes_iff
                  scenario "A"%string "toxicity"%string "model"%string
                  ltac:(vm_compute; discriminate))).
Defined.

(** X10: on a frame of at most 200000 rows, the background-negative /
    subgroup-positive AUC reaches the band of the roundings around 1
    exactly when there is a subgroup positive row and a background
    negative row and every subgroup positive row scores strictly higher
    than every background negative row; it is 0 exactly when both kinds of
    rows exist and every subgroup positive row scores strictly lower. *)
Theorem bnsp_auc_extremes_iff (df : DataFrame) (sg label model_name : string) :
  Z.of_nat (length df) <= 200000 ->
  let exist_both :=
    (exists r, In r df /\ bcol r sg = true /\ bcol r label = true)
    /\ (exists r, In r df /\ bcol r sg = false /\ bcol r label = false) in
  ((exists q,
      compute_background_negative_subgroup_positive_auc df sg label model_name
      = Ok (Num q)
      /\ (rounded_down (length df) <= q)%Q) <->
   exist_both
   /\ forall r1 r2, In r1 df -> In r2 df ->
                    bcol r1 sg = true -> bcol r1 label = true ->
                    bcol r2 sg = false -> bcol r2 label = false ->
                    (fcol r2 model_name < fcol r1 model_name)%Q)
  /\
  (compute_background_negative_subgroup_positive_auc df sg label model_name
   = Ok (Num 0) <->
   exist_both
   /\ forall r1 r2, In r1 df -> In r2 df ->
                    bcol r1 sg = true -> bcol r1 label = true ->
                    bcol r2 sg = false -> bcol r2 label = false ->
                    (fcol r1 model_name < fcol r2 model_name)%Q).
Proof.
  intros Hsize. cbv zeta. rewrite compute_bnsp_auc_value.
  assert (Hin : forall r, In r (select df (bnsp_member sg label)) <->
                          In r df /\ bnsp_member sg label r = true)
    by (intros r; apply filter_In).
  assert (Hlen : (length (select df (bnsp_member sg label)) <= length df)%nat)
    by apply filter_length_le.
  pose proof (bnsp_set_classes df sg label) as Hex.
  pose proof (frame_auc_about_one_iff
                (select df (bnsp_member sg label)) (length df)
                label model_name Hlen Hsize) as Hone.
  pose proof (frame_auc_zero_iff
                (select df (bnsp_member sg label)) (length df)
                label model_name Hlen Hsize) as Hzero.
  assert (Hto : forall (R : row -> row -> Prop),
             (forall r1 r2,
                 In r1 (select df (bnsp_member sg label)) ->
                 In r2 (select df (bnsp_member sg label)) ->
                 bcol r1 label = true -> bcol r2 label = false -> R r1 r2)
             <->
             (forall r1 r2, In r1 df -> In r2 df ->
                            bcol r1 sg = true -> bcol r1 label = true ->
                            bcol r2 sg = false -> bcol r2 label = false ->
                            R r1 r2)).
  { intros R. split; intros H r1 r2.
    - intros H1 H2 S1 L1 S2 L2. apply H; try assumption; apply Hin.
      + rewrite (bnsp_member_positive sg label r1 L1), S1. auto.
      + rewrite (bnsp_member_negative sg label r2 L2), S2. auto.
    - intros H1 H2 L1 L2. apply Hin in H1, H2.
      destruct H1 as [H1 M1], H2 as [H2 M2].
      rewrite (bnsp_member_positive sg label r1 L1) in M1.
      rewrite (bnsp_member_negative sg label r2 L2) in M2.
      apply H; try assumption. destruct (bcol r2 sg); [discriminate | auto]. }
  split.
  - rewrite <- Hex,
      <- (Hto (fun r1 r2 => (fcol r2 model_name < fcol r1 model_name)%Q)).
    rewrite and_assoc, <- Hone.
    split; intros [q [E Hq]]; exists q; (split; [| exact Hq]).
    + apply result_num_inj. exact E.
    + apply result_num_inj. exact E.
  - rewrite <- Hex,
      <- (Hto (fun r1 r2 => (fcol r1 model_name < fcol r2 model_name)%Q)).
    rewrite and_assoc, <- Hzero. apply result_num_inj.
Qed.

Lemma bnsp_auc_extremes_iff_witness :
  (exists q,
      compute_background_negative_subgroup_positive_auc
        scenario "A"%string "toxicity"%string "model"%string = Ok (Num q)
      /\ (rounded_down (length scenario) <= q)%Q) <->
  ((exists r, In r scenario /\ bcol r "A"%string = true
              /\ bcol r "toxicity"%string = true)
   /\ (exists r, In r scenario /\ bcol r "A"%string = false
                 /\ bcol r "toxicity"%string = false))
  /\ forall r1 r2, In r1 scenario -> In r2 scenario ->
                   bcol r1 "A"%string = true ->
                   bcol r1 "toxicity"%string = true ->
                   bcol r2 "A"%string = false ->
                   bcol r2 "toxicity"%string = false ->
                   (fcol r2 "model"%string < fcol r1 "model"%string)%Q.
Proof.
  apply (proj1 (bnsp_auc_extremes_iff
                  scenario "A"%string "toxicity"%string "model"%string
                  ltac:(vm_compute; discriminate))).
Defined.
